(** * Stroke recognition of free-draw-free-fall ([src/utils/geometry.ts])

    A shallow embedding of the scored [recognize] pipeline (lines 1-258 of
    [geometry.ts]) and of the helpers it calls.  The older, sequential
    [recognize] that the file carries below line 259, where the helpers are
    repeated word for word, is [Sequential.recognize], with [angleCoverage],
    which only it calls.  [addGround] and [addShapeToWorld] of
    [src/physics/world.ts] follow, over a Matter.js of which nothing is
    assumed.

    Number model.  A JavaScript [number] is read as a real number: every
    arithmetic operator, [Math.hypot], [Math.sqrt], [Math.acos] and
    [Math.PI] has its exact mathematical meaning, and nothing is rounded.
    The values [NaN] and [Infinity] do not exist in this model; the two
    places where the program could produce them from finite inputs are
    made explicit instead:
      - a division whose divisor is not a literal goes through [divide],
        which reports [DivisionByZero] on a zero divisor;
      - [Math.min()] / [Math.max()] of an empty array (see [arrayMin]).
    Real numbers do not compute, so the worked strokes at the end of the
    file are evaluated by rewriting, with [lra] deciding the comparisons.

    Where binary64 and the real numbers part.  The program compares what it
    has computed in binary64 with a threshold, and at the threshold itself
    rounding decides: for a 60 x 50 box, [abs(60 / 50 - 1)] is just below
    [0.2] in binary64 and equal to [0.2] over the real numbers.  What is
    stated about the rectangle that [recognize] answers therefore leaves
    that test out.  The denominator of [fitCircle] is such a case for every
    set of points on one line: it is 0 over the real numbers and whatever
    rounding has left in binary64.  What is stated about the test of that
    denominator is stated of [Binary64.fitCircle], the same function on
    binary64 numbers.

    Effects.  Destructuring an element that is out of range raises a
    [TypeError] in JavaScript, so element access goes through [get] and
    all code that indexes lives in the [result] monad.  The recursion of
    [rdp] is driven by a fuel argument and reports [OutOfFuel] when it
    runs dry; the theorems show that none of these three errors is ever
    produced.  Array indices and lengths are natural numbers; where the
    source lets an index start at [-1] ([idx] in [rdp]) or computes it with
    [%] ([countCorners]) it is an integer.

    Engine limits.  [bbox] passes every coordinate as an argument of one
    call, [Math.min(...xs)], and an engine raises a [RangeError] beyond the
    number of arguments it can pass.  [arrayMin] and [bbox] have no such
    limit; the module [Engine] repeats [bbox] and its callers with the limit
    as a parameter, [recognize_within_limit] shows that they are the same
    up to the limit, and [recognize_raises_on_long_stroke] what happens
    beyond it.  The depth of the call stack and the size of the memory are
    not modelled. *)

From Stdlib Require Import String.
From Stdlib Require Import Reals Lra Lia List ZArith Bool Arith.
From Stdlib Require Import Sorting.Permutation Sorting.Sorted.
From Stdlib Require PrimFloat Uint63.
Import ListNotations.

Local Open Scope R_scope.
#[local] Set Warnings "-inexact-float,-abstract-large-number".

(** ** The result monad *)

Inductive error : Set := TypeError | DivisionByZero | OutOfFuel | RangeError.

Inductive result (A : Type) : Type :=
| Ok (a : A)
| Err (e : error).

Arguments Ok {A} a.
Arguments Err {A} e.

Definition bind {A B : Type} (m : result A) (k : A -> result B) : result B :=
  match m with
  | Ok a => k a
  | Err e => Err e
  end.

Definition fmap {A B : Type} (f : A -> B) (m : result A) : result B :=
  bind m (fun a => Ok (f a)).

Declare Scope result_scope.
Delimit Scope result_scope with result.
Notation "x <- m ;; k" := (bind m (fun x => k))
  (at level 61, m at next level, right associativity) : result_scope.
Notation "' p <- m ;; k" := (bind m (fun x => let 'p := x in k))
  (at level 61, p pattern, m at next level, right associativity) : result_scope.
Local Open Scope result_scope.

(** [for (const x of xs) s = body(x, s)] *)
Fixpoint foldM {A St : Type} (body : A -> St -> result St) (xs : list A) (s : St)
  : result St :=
  match xs with
  | [] => Ok s
  | x :: xs' => s' <- body x s ;; foldM body xs' s'
  end.

(** [for (let i = a; i < b; i++) s = body(i, s)] *)
Definition forRange {St : Type} (a b : nat) (s : St) (body : nat -> St -> result St)
  : result St :=
  foldM body (seq a (b - a)) s.

(** ** Numbers *)

#[warning="-notation-for-abbreviation"]
Notation point := (R * R)%type.

Definition ltb (a b : R) : bool := if Rlt_dec a b then true else false.
Definition leb (a b : R) : bool := if Rle_dec a b then true else false.
Definition gtb (a b : R) : bool := ltb b a.

Infix "<?" := ltb : R_scope.
Infix "<=?" := leb : R_scope.
Infix ">?" := gtb (at level 70) : R_scope.

(** [Math.hypot(x, y)] *)
Definition hypot (x y : R) : R := sqrt (x * x + y * y).

(** [x || 1] on numbers: [0] is the only falsy real. *)
Definition orOne (x : R) : R := if Req_dec_T x 0 then 1 else x.

(** [a / b] for a divisor that is computed at run time. *)
Definition divide (a b : R) : result R :=
  if Req_dec_T b 0 then Err DivisionByZero else Ok (a / b).

(** [Math.min(...xs)] and [Math.max(...xs)].  On an empty array JavaScript
    answers [Infinity] and [-Infinity], which are not real numbers; the
    model answers [0] there.  The only caller, [bbox], is reached with an
    empty array only from [recognize] on the empty stroke, whose answer
    does not depend on the value (see [recognize_nil]). *)
Definition arrayMin (xs : list R) : R :=
  match xs with
  | [] => 0
  | x :: xs' => fold_left Rmin xs' x
  end.

Definition arrayMax (xs : list R) : R :=
  match xs with
  | [] => 0
  | x :: xs' => fold_left Rmax xs' x
  end.

(** [points[i]], destructured by the caller. *)
Definition get {A : Type} (xs : list A) (i : nat) : result A :=
  match nth_error xs i with
  | Some x => Ok x
  | None => Err TypeError
  end.

(** [xs.slice(a, b)] for [0 <= a <= b], [xs.slice(a)] and [xs.slice(0, -1)]. *)
Definition slice {A : Type} (a b : nat) (xs : list A) : list A :=
  firstn (b - a) (skipn a xs).
Definition sliceFrom {A : Type} (a : nat) (xs : list A) : list A := skipn a xs.
Definition dropLast {A : Type} (xs : list A) : list A := removelast xs.

(** ** Shapes *)

(** The style tag of a shape is a [string]; [recognize] only copies it. *)

Inductive DrawnShape : Type :=
| rect (x y w h : R) (color : string)
| circle (x y r : R) (color : string)
| triangle (points : list point) (color : string)
| free (points : list point) (color : string).

(** ** Geometry helpers *)

(** The object [bbox] answers with; its fields [w] and [h] are [bw] and
    [bh] here. *)
Record BBox : Type := mkBBox {
  minX : R; minY : R; maxX : R; maxY : R; bw : R; bh : R
}.

Definition bbox (points : list point) : BBox :=
  let xs := map fst points in
  let ys := map snd points in
  let minX := arrayMin xs in
  let maxX := arrayMax xs in
  let minY := arrayMin ys in
  let maxY := arrayMax ys in
  mkBBox minX minY maxX maxY (maxX - minX) (maxY - minY).

(** [points.reduce((acc, p, i) => ..., init)] with the index passed on. *)
Fixpoint reduceFrom {A St : Type} (f : St -> A -> nat -> result St)
  (xs : list A) (i : nat) (acc : St) : result St :=
  match xs with
  | [] => Ok acc
  | x :: xs' => acc' <- f acc x i ;; reduceFrom f xs' (S i) acc'
  end.

Definition pathClosed (points : list point) : result bool :=
  if (length points <? 3)%nat then Ok false else
  '(x0, y0) <- get points 0 ;;
  '(xn, yn) <- get points (length points - 1) ;;
  perim <- reduceFrom (fun acc p i =>
             if (i =? 0)%nat then Ok (acc + 0)
             else q <- get points (i - 1) ;;
                  Ok (acc + hypot (fst p - fst q) (snd p - snd q)))
           points 0%nat 0 ;;
  let closeThresh := Rmax 10 (perim * 0.05) in
  Ok (hypot (x0 - xn) (y0 - yn) <? closeThresh).

Definition ensureClosed (points : list point) : result (list point) :=
  let minClosePx := 8 in
  if (length points <? 2)%nat then Ok points else
  '(x0, y0) <- get points 0 ;;
  '(xn, yn) <- get points (length points - 1) ;;
  if hypot (x0 - xn) (y0 - yn) <=? minClosePx then Ok points
  else Ok (points ++ [(x0, y0)]).

Definition polygonPerimeter (points : list point) : result R :=
  forRange 1 (length points) 0 (fun i p =>
    '(xi, yi) <- get points i ;;
    '(xp, yp) <- get points (i - 1) ;;
    Ok (p + hypot (xi - xp) (yi - yp))).

Definition polygonArea (points : list point) : result R :=
  '(a, _) <- forRange 0 (length points) (0, (length points - 1)%nat)
    (fun i '(a, j) =>
      '(xi, yi) <- get points i ;;
      '(xj, yj) <- get points j ;;
      Ok (a + (xj * yi - xi * yj), i)) ;;
  Ok (Rabs a / 2).

(** The distance of [(x, y)] to the line through [(sx, sy)] and [(ex, ey)],
    as both [rdpDistance] and [rdp] compute it inside their loops. *)
Definition lineDistance (sx sy ex ey x y : R) : result R :=
  let num := Rabs ((ey - sy) * x - (ex - sx) * y + ex * sy - ey * sx) in
  let den := orOne (hypot (ey - sy) (ex - sx)) in
  divide num den.

Definition rdpDistance (points : list point) : result R :=
  if (length points <? 3)%nat then Ok 0 else
  '(sx, sy) <- get points 0 ;;
  '(ex, ey) <- get points (length points - 1) ;;
  forRange 1 (length points - 1) 0 (fun i maxD =>
    '(x, y) <- get points i ;;
    d <- lineDistance sx sy ex ey x y ;;
    Ok (if d >? maxD then d else maxD)).

(** The loop of [rdp]: the largest distance and the first index reaching it;
    both start at [-1]. *)
Definition rdpScan (points : list point) (sx sy ex ey : R) : result (R * Z) :=
  forRange 1 (length points - 1) (-1, (-1)%Z) (fun i '(maxD, idx) =>
    '(x, y) <- get points i ;;
    d <- lineDistance sx sy ex ey x y ;;
    Ok (if d >? maxD then (d, Z.of_nat i) else (maxD, idx))).

Fixpoint rdpFuel (fuel : nat) (points : list point) (epsilon : R)
  : result (list point) :=
  if (length points <=? 2)%nat then Ok points else
  match fuel with
  | O => Err OutOfFuel
  | S fuel' =>
    '(sx, sy) <- get points 0 ;;
    '(ex, ey) <- get points (length points - 1) ;;
    '(maxD, idx) <- rdpScan points sx sy ex ey ;;
    dist <- rdpDistance points ;;
    if dist <? epsilon then Ok [(sx, sy); (ex, ey)] else
    if (maxD >? epsilon) && (0 <? idx)%Z then
      left <- rdpFuel fuel' (slice 0 (Z.to_nat (idx + 1)) points) epsilon ;;
      right <- rdpFuel fuel' (sliceFrom (Z.to_nat idx) points) epsilon ;;
      Ok (dropLast left ++ right)
    else Ok [(sx, sy); (ex, ey)]
  end.

(** Every recursive call of [rdp] is on a strictly shorter array, so the
    length of the input is enough fuel (see [rdpFuel_enough]). *)
Definition rdp (points : list point) (epsilon : R) : result (list point) :=
  rdpFuel (length points) points epsilon.

(** [poly[z]] for an index computed with [%]. *)
Definition getZ {A : Type} (xs : list A) (z : Z) : result A :=
  if (z <? 0)%Z then Err TypeError else get xs (Z.to_nat z).

Definition toDeg (rad : R) : R := (rad * 180) / PI.

Definition countCorners (poly : list point) (angleThreshDeg : R) : result nat :=
  if (length poly <? 3)%nat then Ok 0%nat else
  let len := Z.of_nat (length poly) in
  forRange 0 (length poly) 0%nat (fun i corners =>
    '(x0, y0) <- getZ poly (Z.rem (Z.of_nat i - 1 + len) len) ;;
    '(x1, y1) <- get poly i ;;
    '(x2, y2) <- getZ poly (Z.rem (Z.of_nat i + 1) len) ;;
    let v1x := x0 - x1 in let v1y := y0 - y1 in
    let v2x := x2 - x1 in let v2y := y2 - y1 in
    let dot := v1x * v2x + v1y * v2y in
    let mag1 := orOne (hypot v1x v1y) in
    let mag2 := orOne (hypot v2x v2y) in
    q <- divide dot (mag1 * mag2) ;;
    let ang := acos (Rmax (-1) (Rmin 1 q)) in
    let deg := toDeg ang in
    Ok (if (deg <? 180 - angleThreshDeg) && (deg >? angleThreshDeg)
        then S corners else corners)).

Record Sums : Type := mkSums {
  Suu : R; Suv : R; Svv : R; Suuu : R; Suvv : R; Svvv : R; Suuv : R
}.

Record CircleFit : Type := mkFit { cx : R; cy : R; r : R; stdRel : R }.

(** The loop of [fitCircle] over the coordinates centred at the mean. *)
Definition fitMoments (meanX meanY : R) (points : list point) : Sums :=
  fold_left (fun S '(x, y) =>
      let u := x - meanX in
      let v := y - meanY in
      mkSums (Suu S + u * u) (Suv S + u * v) (Svv S + v * v)
             (Suuu S + u * u * u) (Suvv S + u * v * v) (Svvv S + v * v * v)
             (Suuv S + u * u * v))
    points (mkSums 0 0 0 0 0 0 0).

(** The denominator of the normal equations. *)
Definition fitDen (S : Sums) : R := 2 * (Suu S * Svv S - Suv S * Suv S).

Definition fitCircle (points : list point) : result (option CircleFit) :=
  let n := length points in
  if (n <? 6)%nat then Ok None else
  meanX <- divide (fold_left (fun s p => s + fst p) points 0) (INR n) ;;
  meanY <- divide (fold_left (fun s p => s + snd p) points 0) (INR n) ;;
  let S := fitMoments meanX meanY points in
  let den := fitDen S in
  if Rabs den <? 1e-6 then Ok None else
  uc <- divide (Svv S * (Suuu S + Suvv S) - Suv S * (Svvv S + Suuv S)) den ;;
  vc <- divide (Suu S * (Svvv S + Suuv S) - Suv S * (Suuu S + Suvv S)) den ;;
  let cx := meanX + uc in
  let cy := meanY + vc in
  let rs := map (fun '(x, y) => hypot (x - cx) (y - cy)) points in
  r <- divide (fold_left (fun s v => s + v) rs 0) (INR n) ;;
  variance <- divide (fold_left (fun s v => s + (v - r) * (v - r)) rs 0) (INR n) ;;
  stdRel <- divide (sqrt variance) (orOne r) ;;
  Ok (Some (mkFit cx cy r stdRel)).

(** ** Classifiers *)

Record ShapeCandidate : Type := mkCandidate {
  shape : DrawnShape;
  confidence : R
}.

(** [4 * Math.PI * A / ((P || 1) * (P || 1))] *)
Definition circularityOf (P A : R) : result R :=
  divide (4 * PI * A) (orOne P * orOne P).

Definition classifyRectangle (pts rawClosed : list point) (P A w h : R)
  (color : string) : result ShapeCandidate :=
  let areaBBox := w * h in
  rectangularity <- divide A (Rmax 1 areaBBox) ;;
  circularity <- circularityOf P A ;;
  let confidence := rectangularity * 0.8 + (1 - circularity) * 0.2 in
  let confidence :=
    if (rectangularity <? 0.6) || (circularity >? 0.9) then 0 else confidence in
  let b := bbox rawClosed in
  aspect <- divide w (orOne h) ;;
  if Rabs (aspect - 1) <? 0.2 then
    let cx := minX b + w / 2 in
    let cy := minY b + h / 2 in
    let s := Rmin w h in
    Ok (mkCandidate (rect (cx - s / 2) (cy - s / 2) s s color) confidence)
  else
    Ok (mkCandidate (rect (minX b) (minY b) w h color) confidence).

Definition classifyCircle (pts rawClosed : list point) (P A w h : R)
  (closed : bool) (color : string) : result ShapeCandidate :=
  if negb closed || (Rmin w h <? 10) then Ok (mkCandidate (free pts color) 0) else
  circularity <- circularityOf P A ;;
  let confidence := circularity * 0.9 in
  let confidence := if circularity <? 0.75 then 0 else confidence in
  fit <- fitCircle pts ;;
  match fit with
  | Some f =>
    if (r f >? 6) && (stdRel f <? 0.15) then
      Ok (mkCandidate (circle (cx f) (cy f) (r f) color) (confidence + 0.1))
    else
      let b := bbox rawClosed in
      Ok (mkCandidate
            (circle (minX b + w / 2) (minY b + h / 2) (Rmin w h / 2) color)
            confidence)
  | None =>
    let b := bbox rawClosed in
    Ok (mkCandidate
          (circle (minX b + w / 2) (minY b + h / 2) (Rmin w h / 2) color)
          confidence)
  end.

(** The sum of the three pairwise distances of a triple. *)
Definition spread (p q t : point) : R :=
  hypot (fst p - fst q) (snd p - snd q) +
  hypot (fst q - fst t) (snd q - snd t) +
  hypot (fst t - fst p) (snd t - snd p).

(** The three nested loops of [classifyTriangle]. *)
Definition bestTriple (pts : list point) : result (list point * R) :=
  let n := length pts in
  forRange 0 n ([], -1) (fun i st =>
    forRange (i + 1) n st (fun j st =>
      forRange (j + 1) n st (fun k '(best, maxSum) =>
        pi <- get pts i ;;
        pj <- get pts j ;;
        pk <- get pts k ;;
        let s := spread pi pj pk in
        Ok (if s >? maxSum then ([pi; pj; pk], s) else (best, maxSum))))).

Definition classifyTriangle (pts : list point) (P A : R) (color : string)
  : result ShapeCandidate :=
  corners <- countCorners pts 35 ;;
  circularity <- circularityOf P A ;;
  let confidence :=
    if (3 <=? corners)%nat && (corners <=? 5)%nat && (circularity <? 0.85)
    then Rmin 0.8 ((INR corners - 2) * 0.2) + (1 - circularity) * 0.3
    else 0 in
  if confidence <? 0.3 then Ok (mkCandidate (free pts color) 0) else
  '(best, _) <- bestTriple pts ;;
  if (length best =? 3)%nat
  then Ok (mkCandidate (triangle best color) confidence)
  else Ok (mkCandidate (free pts color) 0).

(** ** Arbitration *)

(** [xs.sort(cmp)].  ECMAScript requires the sort to be stable, and for a
    consistent comparator that fixes the answer; the model is the stable
    insertion sort: [x] goes behind exactly the elements it must follow. *)
Fixpoint insertBy {A : Type} (cmp : A -> A -> R) (x : A) (xs : list A) : list A :=
  match xs with
  | [] => [x]
  | y :: ys => if cmp x y >? 0 then y :: insertBy cmp x ys else x :: y :: ys
  end.

Definition sortBy {A : Type} (cmp : A -> A -> R) (xs : list A) : list A :=
  fold_right (insertBy cmp) [] xs.

Definition recognize (pointsRaw : list point) (color : string) : result DrawnShape :=
  rawClosed <- ensureClosed pointsRaw ;;
  let w := bw (bbox rawClosed) in
  let h := bh (bbox rawClosed) in
  let eps := Rmax 3 (hypot w h * 0.01) in
  pts <- rdp rawClosed eps ;;
  if (length pts <? 3)%nat then Ok (free rawClosed color) else
  P <- polygonPerimeter pts ;;
  A <- polygonArea pts ;;
  closed <- pathClosed pointsRaw ;;
  cr <- classifyRectangle pts rawClosed P A w h color ;;
  cc <- classifyCircle pts rawClosed P A w h closed color ;;
  ct <- classifyTriangle pts P A color ;;
  let candidates := filter (fun c => confidence c >? 0.4) [cr; cc; ct] in
  if (0 <? length candidates)%nat then
    best <- get (sortBy (fun a b => confidence b - confidence a) candidates) 0 ;;
    Ok (shape best)
  else Ok (free pts color).

(** [recognize] with the three classifiers it calls taken as parameters:
    the body of [recognize], with [cR], [cC] and [cT] called where the source
    calls [classifyRectangle], [classifyCircle] and [classifyTriangle].
    [recognize] is its instance at these three ([recognize_with]).  A call
    is eager, so a classifier that raises makes [recognizeWith] raise
    wherever it is called. *)
Definition recognizeWith
  (cR : list point -> list point -> R -> R -> R -> R -> string
        -> result ShapeCandidate)
  (cC : list point -> list point -> R -> R -> R -> R -> bool -> string
        -> result ShapeCandidate)
  (cT : list point -> R -> R -> string -> result ShapeCandidate)
  (pointsRaw : list point) (color : string) : result DrawnShape :=
  rawClosed <- ensureClosed pointsRaw ;;
  let w := bw (bbox rawClosed) in
  let h := bh (bbox rawClosed) in
  let eps := Rmax 3 (hypot w h * 0.01) in
  pts <- rdp rawClosed eps ;;
  if (length pts <? 3)%nat then Ok (free rawClosed color) else
  P <- polygonPerimeter pts ;;
  A <- polygonArea pts ;;
  closed <- pathClosed pointsRaw ;;
  cr <- cR pts rawClosed P A w h color ;;
  cc <- cC pts rawClosed P A w h closed color ;;
  ct <- cT pts P A color ;;
  let candidates := filter (fun c => confidence c >? 0.4) [cr; cc; ct] in
  if (0 <? length candidates)%nat then
    best <- get (sortBy (fun a b => confidence b - confidence a) candidates) 0 ;;
    Ok (shape best)
  else Ok (free pts color).

(** A classifier that raises whenever it is called. *)
Definition raising {A : Type} : result A := Err TypeError.

(** ** The engine's limit on the arguments of one call *)

(** [Math.min(...xs)] passes every element of [xs] as an argument of one
    call, and an engine passes only so many: beyond its limit the call
    raises a [RangeError] before [Math.min] runs.  The limit is the
    engine's, not the program's, so it is a parameter here.  [bbox], the
    two classifiers that call it, and [recognize] are written once more
    with this limit; up to the limit they are the definitions above
    ([recognize_within_limit]). *)
Module Engine.

Section Limit.

Variable maxArguments : nat.

(** [f(...xs)] *)
Definition spreadInto {A : Type} (f : list R -> A) (xs : list R) : result A :=
  if (maxArguments <? length xs)%nat then Err RangeError else Ok (f xs).

Definition bbox (points : list point) : result BBox :=
  let xs := map fst points in
  let ys := map snd points in
  minX <- spreadInto arrayMin xs ;;
  maxX <- spreadInto arrayMax xs ;;
  minY <- spreadInto arrayMin ys ;;
  maxY <- spreadInto arrayMax ys ;;
  Ok (mkBBox minX minY maxX maxY (maxX - minX) (maxY - minY)).

Definition classifyRectangle (pts rawClosed : list point) (P A w h : R)
  (color : string) : result ShapeCandidate :=
  let areaBBox := w * h in
  rectangularity <- divide A (Rmax 1 areaBBox) ;;
  circularity <- circularityOf P A ;;
  let confidence := rectangularity * 0.8 + (1 - circularity) * 0.2 in
  let confidence :=
    if (rectangularity <? 0.6) || (circularity >? 0.9) then 0 else confidence in
  b <- bbox rawClosed ;;
  aspect <- divide w (orOne h) ;;
  if Rabs (aspect - 1) <? 0.2 then
    let cx := minX b + w / 2 in
    let cy := minY b + h / 2 in
    let s := Rmin w h in
    Ok (mkCandidate (rect (cx - s / 2) (cy - s / 2) s s color) confidence)
  else
    Ok (mkCandidate (rect (minX b) (minY b) w h color) confidence).

Definition classifyCircle (pts rawClosed : list point) (P A w h : R)
  (closed : bool) (color : string) : result ShapeCandidate :=
  if negb closed || (Rmin w h <? 10) then Ok (mkCandidate (free pts color) 0) else
  circularity <- circularityOf P A ;;
  let confidence := circularity * 0.9 in
  let confidence := if circularity <? 0.75 then 0 else confidence in
  fit <- fitCircle pts ;;
  match fit with
  | Some f =>
    if (r f >? 6) && (stdRel f <? 0.15) then
      Ok (mkCandidate (circle (cx f) (cy f) (r f) color) (confidence + 0.1))
    else
      b <- bbox rawClosed ;;
      Ok (mkCandidate
            (circle (minX b + w / 2) (minY b + h / 2) (Rmin w h / 2) color)
            confidence)
  | None =>
    b <- bbox rawClosed ;;
    Ok (mkCandidate
          (circle (minX b + w / 2) (minY b + h / 2) (Rmin w h / 2) color)
          confidence)
  end.

Definition recognize (pointsRaw : list point) (color : string)
  : result DrawnShape :=
  rawClosed <- ensureClosed pointsRaw ;;
  b <- bbox rawClosed ;;
  let w := bw b in
  let h := bh b in
  let eps := Rmax 3 (hypot w h * 0.01) in
  pts <- rdp rawClosed eps ;;
  if (length pts <? 3)%nat then Ok (free rawClosed color) else
  P <- polygonPerimeter pts ;;
  A <- polygonArea pts ;;
  closed <- pathClosed pointsRaw ;;
  cr <- classifyRectangle pts rawClosed P A w h color ;;
  cc <- classifyCircle pts rawClosed P A w h closed color ;;
  ct <- classifyTriangle pts P A color ;;
  let candidates := filter (fun c => confidence c >? 0.4) [cr; cc; ct] in
  if (0 <? length candidates)%nat then
    best <- get (sortBy (fun a b => confidence b - confidence a) candidates) 0 ;;
    Ok (shape best)
  else Ok (free pts color).

End Limit.

End Engine.

(** ** [fitCircle] in binary64 *)

(** [fitCircle] tests the [den] it has computed, a binary64 number, against
    [1e-6].  For points of one line the exact denominator is 0, and the
    computed one need not be ([K6_fit]).  So [fitCircle] is written once
    more on binary64 numbers: [+], [-], [*], [/] and [Math.sqrt] are the
    IEEE 754 operations of [PrimFloat], rounded to nearest, and a literal is
    the nearest binary64 number, as in JavaScript.  ECMAScript leaves the
    accuracy of [Math.hypot] to the engine, so it is a parameter; [den] does
    not depend on it. *)
Module Binary64.

Import PrimFloat.

Section Fit.

Local Open Scope float_scope.

Variable hypot : float -> float -> float.

Record Sums : Type := mkSums {
  Suu : float; Suv : float; Svv : float;
  Suuu : float; Suvv : float; Svvv : float; Suuv : float
}.

Record CircleFit : Type := mkFit {
  cx : float; cy : float; r : float; stdRel : float
}.

(** [points.length] as a number; exact for every length of an array. *)
Definition ofNat (n : nat) : float := of_uint63 (Uint63.of_Z (Z.of_nat n)).

(** [x || 1]: the numbers [0], [-0] and [NaN] are falsy. *)
Definition orOne (x : float) : float :=
  if (x =? 0) || is_nan x then 1 else x.

Definition fitMoments (meanX meanY : float) (points : list (float * float))
  : Sums :=
  fold_left (fun S '(x, y) =>
      let u := x - meanX in
      let v := y - meanY in
      mkSums (Suu S + u * u) (Suv S + u * v) (Svv S + v * v)
             (Suuu S + u * u * u) (Suvv S + u * v * v) (Svvv S + v * v * v)
             (Suuv S + u * u * v))
    points (mkSums 0 0 0 0 0 0 0).

Definition fitDen (S : Sums) : float := 2 * (Suu S * Svv S - Suv S * Suv S).

Definition fitCircle (points : list (float * float)) : option CircleFit :=
  let n := length points in
  if (n <? 6)%nat then None else
  let meanX := fold_left (fun s p => s + fst p) points 0 / ofNat n in
  let meanY := fold_left (fun s p => s + snd p) points 0 / ofNat n in
  let S := fitMoments meanX meanY points in
  let den := fitDen S in
  if abs den <? 1e-6 then None else
  let uc := (Svv S * (Suuu S + Suvv S) - Suv S * (Svvv S + Suuv S)) / den in
  let vc := (Suu S * (Svvv S + Suuv S) - Suv S * (Suuu S + Suvv S)) / den in
  let cx := meanX + uc in
  let cy := meanY + vc in
  let rs := map (fun '(x, y) => hypot (x - cx) (y - cy)) points in
  let r := fold_left (fun s v => s + v) rs 0 / ofNat n in
  let variance := fold_left (fun s v => s + (v - r) * (v - r)) rs 0 / ofNat n in
  let stdRel := sqrt variance / orOne r in
  Some (mkFit cx cy r stdRel).

(** [den], as [fitCircle] has computed it when it tests it. *)
Definition normalDen (points : list (float * float)) : float :=
  let n := length points in
  let meanX := fold_left (fun s p => s + fst p) points 0 / ofNat n in
  let meanY := fold_left (fun s p => s + snd p) points 0 / ofNat n in
  fitDen (fitMoments meanX meanY points).

(** The average of binary64 numbers, summed from the left as [reduce] sums
    them, and their standard deviation around it. *)
Definition average (xs : list float) : float :=
  fold_left add xs 0 / ofNat (length xs).

Definition deviation (xs : list float) : float :=
  sqrt (average (map (fun v => (v - average xs) * (v - average xs)) xs)).

End Fit.

(** Six points of the line [y = x + 7]. *)
Definition K6 : list (float * float) :=
  [(2, 9); (26, 33); (97, 104); (183, 190); (213, 220); (225, 232)]%float.

End Binary64.

(** ** Angular coverage and the sequential [recognize] (lines 404-495) *)

(** [Math.atan2(y, x)]: the angle of the direction [(x, y)], in [(-PI, PI]];
    [0] for the direction [(0, 0)]. *)
Definition atan2 (y x : R) : R :=
  if 0 <? x then atan (y / x)
  else if x <? 0 then
    if 0 <=? y then atan (y / x) + PI else atan (y / x) - PI
  else if 0 <? y then PI / 2
  else if y <? 0 then - PI / 2
  else 0.

(** [angs[i]] on an array of numbers answers [undefined] out of range, which
    arithmetic turns into [NaN]; the model reports it as an error, and
    [angleCoverage_bounds] shows that it does not happen.  Any correct sort puts
    numbers in the same order, so [sortBy] stands for [angs.sort] here as
    well. *)
Definition angleCoverage (points : list point) (cx cy : R) : result R :=
  if (length points <? 3)%nat then Ok 0 else
  let angs :=
    sortBy (fun a b => a - b)
           (map (fun '(x, y) => atan2 (y - cy) (x - cx)) points) in
  let n := length angs in
  if (n <? 2)%nat then Ok 0 else
  maxGap <- forRange 0 (n - 1) 0 (fun i maxGap =>
    a1 <- get angs (i + 1) ;;
    a0 <- get angs i ;;
    let gap := a1 - a0 in
    Ok (if gap >? maxGap then gap else maxGap)) ;;
  first <- get angs 0 ;;
  last <- get angs (n - 1) ;;
  let wrapGap := (first + PI * 2) - last in
  let maxGap := if wrapGap >? maxGap then wrapGap else maxGap in
  let coverage := Rmax 0 (Rmin (PI * 2) (PI * 2 - maxGap)) in
  Ok coverage.

Module Sequential.

(** The [recognize] of lines 421-495, which tries circle, rectangle and
    triangle in turn.  A [return] inside an [if] is the [Some] of the test
    it ends; the code behind the [if] is the [None] branch. *)
Definition recognize (pointsRaw : list point) (color : string)
  : result DrawnShape :=
  rawClosed <- ensureClosed pointsRaw ;;
  let w := bw (bbox rawClosed) in
  let h := bh (bbox rawClosed) in
  let eps := Rmax 3 (hypot w h * 0.010) in
  pts <- rdp rawClosed eps ;;
  if (3 <=? length pts)%nat then
    corners <- countCorners pts 35 ;;
    P <- polygonPerimeter pts ;;
    A <- polygonArea pts ;;
    circularity <- circularityOf P A ;;
    fit <- fitCircle (if (6 <=? length rawClosed)%nat then rawClosed else pts) ;;
    isCircle <-
      match fit with
      | Some c =>
        aspect <- divide w (orOne h) ;;
        coverage <- angleCoverage pointsRaw (cx c) (cy c) ;;
        let circleOk :=
          (r c >? 6) && (stdRel c <? 0.38) && (Rabs (aspect - 1) <? 0.55)
          && (coverage >? 4.5) in
        Ok (if circleOk then Some (circle (cx c) (cy c) (r c) color) else None)
      | None => Ok None
      end ;;
    match isCircle with
    | Some s => Ok s
    | None =>
      isRect <-
        (if (corners =? 4)%nat then
           let b := bbox rawClosed in
           let bboxArea := Rmax 1 (bw b * bh b) in
           rectangularity <- divide A bboxArea ;;
           if (rectangularity >? 0.70) && (circularity <? 0.82) then
             aspect <- divide (bw b) (orOne (bh b)) ;;
             if Rabs (aspect - 1) <? 0.15 then
               let cx := minX b + bw b / 2 in
               let cy := minY b + bh b / 2 in
               let s := Rmin (bw b) (bh b) in
               Ok (Some (rect (cx - s / 2) (cy - s / 2) s s color))
             else Ok (Some (rect (minX b) (minY b) (bw b) (bh b) color))
           else Ok None
         else Ok None) ;;
      match isRect with
      | Some s => Ok s
      | None =>
        isTriangle <-
          (if (3 <=? corners)%nat && (circularity <? 0.78) then
             '(best, _) <- bestTriple pts ;;
             Ok (if (length best =? 3)%nat
                 then Some (triangle best color) else None)
           else Ok None) ;;
        match isTriangle with
        | Some s => Ok s
        | None => Ok (free pts color)
        end
      end
    end
  else Ok (free rawClosed color).

End Sequential.

(** ** The physics world ([src/physics/world.ts]) *)

(** The options [world.ts] passes to every body it creates. *)
Record BodyOptions : Type := mkOptions {
  isStatic : bool;
  restitution : R;
  fillStyle : string
}.

(** Matter.js, as far as [world.ts] calls it.  What a body is and how it is
    built is the library's business; [Bodies.fromVertices] may answer no
    body. *)
Class Matter : Type := {
  Body : Type;
  Bodies_rectangle : R -> R -> R -> R -> BodyOptions -> Body;
  Bodies_circle : R -> R -> R -> BodyOptions -> Body;
  Bodies_fromVertices :
    R -> R -> list (list point) -> BodyOptions -> bool -> option Body;
  Body_create : list Body -> Body;
  Body_setStatic : Body -> bool -> Body
}.

Section World.

Context {M : Matter}.

(** [Matter.World.add(engine.world, bodies)]; the engine is its world, the
    list of the bodies added so far. *)
Definition World_add (world : list Body) (bodies : list Body) : list Body :=
  world ++ bodies.

Definition addGround (world : list Body)
  (viewportWidth viewportHeight groundHeight : R) (color : string)
  : Body * list Body :=
  let ground :=
    Bodies_rectangle (viewportWidth / 2) (viewportHeight - groundHeight / 2)
      viewportWidth groundHeight (mkOptions true 0.8 color) in
  (ground, World_add world [ground]).

(** The answer is the body, or [None] for [undefined], and the world
    afterwards.  [Body.setStatic] changes the body in place; the model
    answers with the changed body.  [verts[0].x] raises a [TypeError] when
    the triangle has no such vertex; [rel[i]] in the fan is read without
    being taken apart, and is in range there ([fan_loop]). *)
Definition addShapeToWorld (world : list Body) (shape : DrawnShape)
  (dynamic : bool) (viewportWidth viewportHeight : R)
  : result (option Body * list Body) :=
  match shape with
  | rect shape_x shape_y shape_w shape_h color =>
    let x := Rmax 0 (Rmin viewportWidth shape_x) in
    let y := Rmax 0 (Rmin viewportHeight shape_y) in
    let w := Rmax 10 (Rmin (viewportWidth - x) (Rabs shape_w)) in
    let h := Rmax 10 (Rmin (viewportHeight - y) (Rabs shape_h)) in
    let body := Bodies_rectangle (x + w / 2) (y + h / 2) w h
                  (mkOptions (negb dynamic) 0.8 color) in
    Ok (Some body, World_add world [body])
  | circle shape_x shape_y shape_r color =>
    let x := Rmax 0 (Rmin viewportWidth shape_x) in
    let y := Rmax 0 (Rmin viewportHeight shape_y) in
    let r := Rmax 5 (Rmin 300 shape_r) in
    let body := Bodies_circle x y r (mkOptions (negb dynamic) 0.8 color) in
    Ok (Some body, World_add world [body])
  | triangle points color =>
    let verts := points in
    v0 <- get verts 0 ;;
    v1 <- get verts 1 ;;
    v2 <- get verts 2 ;;
    let cx := (fst v0 + fst v1 + fst v2) / 3 in
    let cy := (snd v0 + snd v1 + snd v2) / 3 in
    let relVerts := map (fun v => (fst v - cx, snd v - cy)) verts in
    let body := Bodies_fromVertices cx cy [relVerts]
                  (mkOptions (negb dynamic) 0.8 color) true in
    match body with
    | Some b => Ok (Some b, World_add world [b])
    | None => Ok (None, world)
    end
  | free points color =>
    if (2 <? length points)%nat then
      let pts := points in
      cx <- divide (fold_left (fun s p => s + fst p) pts 0) (INR (length pts)) ;;
      cy <- divide (fold_left (fun s p => s + snd p) pts 0) (INR (length pts)) ;;
      let rel := map (fun p => (fst p - cx, snd p - cy)) pts in
      let options := mkOptions (negb dynamic) 0.8 color in
      body <-
        match Bodies_fromVertices cx cy [rel] options true with
        | Some b => Ok (Some b)
        | None =>
          parts <- forRange 1 (length rel - 1) [] (fun i parts =>
            r0 <- get rel 0 ;;
            ri <- get rel i ;;
            rj <- get rel (i + 1) ;;
            let tri := [r0; ri; rj] in
            match Bodies_fromVertices cx cy [tri] options true with
            | Some b => Ok (parts ++ [b])
            | None => Ok parts
            end) ;;
          Ok (if (0 <? length parts)%nat then Some (Body_create parts) else None)
        end ;;
      match body with
      | Some b =>
        let b := Body_setStatic b (negb dynamic) in
        Ok (Some b, World_add world [b])
      | None => Ok (None, world)
      end
    else Ok (None, world)
  end.

End World.

(** * Notions used by the properties *)

(** ** Subsequences and the contract of [rdp] *)

Inductive Subseq {A : Type} : list A -> list A -> Prop :=
| Subseq_nil : Subseq [] []
| Subseq_keep x l m : Subseq l m -> Subseq (x :: l) (x :: m)
| Subseq_skip x l m : Subseq l m -> Subseq l (x :: m).

#[local] Hint Constructors Subseq : core.

(** What [rdp] promises about its output [out] on the input [points]. *)
Record RdpOut (out points : list point) : Prop := {
  rdp_subseq : Subseq out points;
  rdp_subseq_init : Subseq (removelast out) (removelast points);
  rdp_head : forall d, hd d out = hd d points;
  rdp_last : forall d, last out d = last points d;
  rdp_length : (2 <= length points)%nat -> (2 <= length out)%nat
}.

(** ** Closing and length, in the words of the specification *)

(** The distance between the first and the last point. *)
Definition closingGap (points : list point) : R :=
  let p0 := hd (0, 0) points in
  let pn := last points (0, 0) in
  hypot (fst p0 - fst pn) (snd p0 - snd pn).

(** The answer of [ensureClosed], as a function of the stroke. *)
Definition closedPath (points : list point) : list point :=
  if (length points <? 2)%nat then points
  else if closingGap points <=? 8 then points
  else points ++ [hd (0, 0) points].

(** The Euclidean distance. *)
Definition euclid (p q : point) : R :=
  sqrt ((fst p - fst q) * (fst p - fst q) + (snd p - snd q) * (snd p - snd q)).

(** The sum of the distances between consecutive points. *)
Definition polylineLength (points : list point) : R :=
  fold_right Rplus 0
    (map (fun '(p, q) => euclid p q) (combine points (tl points))).

(** ** The search for the widest triple *)

(** [vs] is the triple of [pts] at positions [a < b < c]. *)
Definition tripleAt (pts : list point) (a b c : nat) (vs : list point) : Prop :=
  (a < b < c)%nat /\ (c < length pts)%nat /\
  vs = [nth a pts (0, 0); nth b pts (0, 0); nth c pts (0, 0)].

(** The state of the search once the triples in [Done] have been tried. *)
Definition searched (pts : list point) (Done : nat -> nat -> nat -> Prop)
  (st : list point * R) : Prop :=
  let '(best, maxSum) := st in
  (forall a b c, Done a b c ->
     spread (nth a pts (0, 0)) (nth b pts (0, 0)) (nth c pts (0, 0)) <= maxSum) /\
  ((best = [] /\ maxSum = -1) \/
   (exists a b c,
      tripleAt pts a b c best /\
      maxSum = spread (nth a pts (0, 0)) (nth b pts (0, 0)) (nth c pts (0, 0)))).

(** The triples tried before the innermost loop reaches [(i, j, k)]. *)
Definition before (pts : list point) (i j k : nat) (a b c : nat) : Prop :=
  (a < b < c)%nat /\ (c < length pts)%nat /\
  (a < i \/ (a = i /\ b < j) \/ (a = i /\ b = j /\ c < k))%nat.

(** [vs] is a triple of [pts] whose spread no other triple exceeds. *)
Definition widestTriple (pts vs : list point) : Prop :=
  exists a b c,
    tripleAt pts a b c vs /\
    forall a' b' c', (a' < b' < c')%nat -> (c' < length pts)%nat ->
      spread (nth a' pts (0, 0)) (nth b' pts (0, 0)) (nth c' pts (0, 0))
      <= spread (nth a pts (0, 0)) (nth b pts (0, 0)) (nth c pts (0, 0)).

(** ** Arbitration *)

(** The comparator and the filter of [recognize]. *)
Definition byConfidence (a b : ShapeCandidate) : R := confidence b - confidence a.
Definition survives (c : ShapeCandidate) : bool := confidence c >? 0.4.

(** [best] is the first candidate of [cs] among those of the highest
    confidence. *)
Definition firstBest (cs : list ShapeCandidate) (best : ShapeCandidate) : Prop :=
  exists l1 l2,
    cs = l1 ++ best :: l2 /\
    (forall c, In c l1 -> confidence c < confidence best) /\
    (forall c, In c l2 -> confidence c <= confidence best).

(** The last step of [recognize]: the shape of the head of the sorted
    survivors, or the free polygon. *)
Definition arbitrate (cs : list ShapeCandidate) (pts : list point)
  (color : string) : DrawnShape :=
  match sortBy byConfidence (filter survives cs) with
  | best :: _ => shape best
  | [] => free pts color
  end.

(** The tolerance [recognize] passes to [rdp]. *)
Definition epsilonOf (rawClosed : list point) : R :=
  Rmax 3 (hypot (bw (bbox rawClosed)) (bh (bbox rawClosed)) * 0.01).

(** What [recognize] has computed when it reaches the arbitration. *)
Inductive Scored (pointsRaw rawClosed pts : list point) (color : string)
  (cr cc ct : ShapeCandidate) : Prop :=
| scored (P A : R) (closed : bool) :
    polygonPerimeter pts = Ok P ->
    polygonArea pts = Ok A ->
    pathClosed pointsRaw = Ok closed ->
    classifyRectangle pts rawClosed P A
      (bw (bbox rawClosed)) (bh (bbox rawClosed)) color = Ok cr ->
    classifyCircle pts rawClosed P A
      (bw (bbox rawClosed)) (bh (bbox rawClosed)) closed color = Ok cc ->
    classifyTriangle pts P A color = Ok ct ->
    Scored pointsRaw rawClosed pts color cr cc ct.

(** The invariants of a shape. *)
Definition shapeValid (s : DrawnShape) : Prop :=
  match s with
  | rect _ _ w h _ => 0 < w /\ 0 < h
  | circle _ _ r _ => 0 < r
  | triangle _ _ => True
  | free points _ => (1 <= length points)%nat
  end.

(** ** The circle fit, in the words of the specification *)

(** Mean and (population) standard deviation, as the specification names
    them. *)
Definition mean (xs : list R) : R := fold_right Rplus 0 xs / INR (length xs).

Definition stddev (xs : list R) : R :=
  sqrt (mean (map (fun v => (v - mean xs) * (v - mean xs)) xs)).

(** The denominator of the normal equations of the fit through [points],
    over the coordinates centred at their mean. *)
Definition normalDen (points : list point) : R :=
  fitDen (fitMoments (mean (map fst points)) (mean (map snd points)) points).

(** The centre of the fit, by the formulas of [fitCircle]. *)
Definition fitCenter (points : list point) : point :=
  let meanX := mean (map fst points) in
  let meanY := mean (map snd points) in
  let S := fitMoments meanX meanY points in
  (meanX + (Svv S * (Suuu S + Suvv S) - Suv S * (Svvv S + Suuv S)) / fitDen S,
   meanY + (Suu S * (Svvv S + Suuv S) - Suv S * (Suuu S + Suvv S)) / fitDen S).

(** The distances of the points to a centre. *)
Definition radii (center : point) (points : list point) : list R :=
  map (fun p => euclid p center) points.

(** ** Uniform scaling *)

Definition scalePoint (k : R) (p : point) : point := (k * fst p, k * snd p).

Definition scalePath (k : R) (points : list point) : list point :=
  map (scalePoint k) points.

Definition scaleShape (k : R) (s : DrawnShape) : DrawnShape :=
  match s with
  | rect x y w h color => rect (k * x) (k * y) (k * w) (k * h) color
  | circle x y r color => circle (k * x) (k * y) (k * r) color
  | triangle points color => triangle (scalePath k points) color
  | free points color => free (scalePath k points) color
  end.

Definition scaleCandidate (k : R) (c : ShapeCandidate) : ShapeCandidate :=
  mkCandidate (scaleShape k (shape c)) (confidence c).





(** The rectangle candidate, or the circle candidate, of a stroke with the
    simplified polygon [pts] is kept by the filter of [recognize]. *)
Definition rectangleKept (pointsRaw pts : list point) : Prop :=
  exists P A color cr,
    polygonPerimeter pts = Ok P /\ polygonArea pts = Ok A /\
    classifyRectangle pts (closedPath pointsRaw) P A
      (bw (bbox (closedPath pointsRaw))) (bh (bbox (closedPath pointsRaw)))
      color = Ok cr /\
    survives cr = true.

Definition circleKept (pointsRaw pts : list point) : Prop :=
  exists P A closed color cc,
    polygonPerimeter pts = Ok P /\ polygonArea pts = Ok A /\
    pathClosed pointsRaw = Ok closed /\
    classifyCircle pts (closedPath pointsRaw) P A
      (bw (bbox (closedPath pointsRaw))) (bh (bbox (closedPath pointsRaw)))
      closed color = Ok cc /\
    survives cc = true.


(** The thresholds of [recognize] that are absolute numbers, not fractions of
    the stroke: the closing distance [8], the floor [3] of the tolerance, and,
    once the classifiers run on the simplified polygon [pts], the floor [1]
    of the bounding-box area in the rectangle classifier and, in the circle
    classifier, the least size [10], the floor [10] of the closing
    threshold, and the bounds [1e-6] and [6] of the circle fit.  They agree
    at scale [k] when each one decides the same way for the stroke and for
    the scaled stroke: the same tests pass, the tolerance keeps the same
    points, and the floored area of the box is [k * k] times what it was.
    A threshold of a classifier whose candidate is kept at neither scale
    has nothing to decide.  At [k = 1] the thresholds agree for every
    stroke ([floorsAgree_one]). *)
Record circleFloorsAgree (k : R) (pointsRaw pts : list point) : Prop := {
  agree_size :
    Rmin (bw (bbox (closedPath pointsRaw))) (bh (bbox (closedPath pointsRaw)))
      < 10 <->
    k * Rmin (bw (bbox (closedPath pointsRaw)))
             (bh (bbox (closedPath pointsRaw))) < 10;
  agree_closed :
    closingGap pointsRaw < Rmax 10 (polylineLength pointsRaw * 0.05) <->
    k * closingGap pointsRaw < Rmax 10 (k * polylineLength pointsRaw * 0.05);
  agree_fit_den :
    (6 <= length pts)%nat ->
    (Rabs (normalDen pts) < 1e-6 <->
     Rabs (k * k * k * k * normalDen pts) < 1e-6);
  agree_fit_radius :
    forall f, fitCircle pts = Ok (Some f) -> (6 < r f <-> 6 < k * r f)
}.

Record classifierFloorsAgree (k : R) (pointsRaw pts : list point) : Prop := {
  agree_rectangle :
    (~ rectangleKept pointsRaw pts /\
     ~ rectangleKept (scalePath k pointsRaw) (scalePath k pts)) \/
    Rmax 1 (k * bw (bbox (closedPath pointsRaw))
            * (k * bh (bbox (closedPath pointsRaw))))
    = k * k * Rmax 1 (bw (bbox (closedPath pointsRaw))
                      * bh (bbox (closedPath pointsRaw)));
  agree_circle :
    (~ circleKept pointsRaw pts /\
     ~ circleKept (scalePath k pointsRaw) (scalePath k pts)) \/
    circleFloorsAgree k pointsRaw pts
}.

Record floorsAgree (k : R) (pointsRaw : list point) : Prop := {
  agree_close :
    closingGap pointsRaw <= 8 <-> k * closingGap pointsRaw <= 8;
  agree_epsilon :
    rdp (scalePath k (closedPath pointsRaw))
        (epsilonOf (scalePath k (closedPath pointsRaw)))
    = fmap (scalePath k)
        (rdp (closedPath pointsRaw) (epsilonOf (closedPath pointsRaw)));
  agree_classifiers :
    forall pts,
      rdp (closedPath pointsRaw) (epsilonOf (closedPath pointsRaw)) = Ok pts ->
      (3 <= length pts)%nat ->
      classifierFloorsAgree k pointsRaw pts
}.

(** ** What a shape carries *)

Definition colorOf (s : DrawnShape) : string :=
  match s with
  | rect _ _ _ _ color | circle _ _ _ color
  | triangle _ color | free _ color => color
  end.

Definition verticesOf (s : DrawnShape) : list point :=
  match s with
  | triangle points _ | free points _ => points
  | rect _ _ _ _ _ | circle _ _ _ _ => []
  end.

Definition isFree (s : DrawnShape) : bool :=
  match s with free _ _ => true | _ => false end.

(** What the sequential [recognize] promises about its answer [s]. *)
Record Recognized (pointsRaw : list point) (color : string) (s : DrawnShape)
  : Prop := {
  recognized_color : colorOf s = color;
  recognized_vertices : forall p, In p (verticesOf s) -> In p pointsRaw;
  recognized_valid : pointsRaw <> [] -> shapeValid s;
  recognized_radius : forall x y rad c, s = circle x y rad c -> 6 < rad;
  recognized_triangle :
    forall points c, s = triangle points c -> length points = 3%nat
}.

(** ** The tolerance of the simplification *)

(** The distance [rdp] and [rdpDistance] measure: from [p] to the line
    through [a] and [b]; when [a] and [b] coincide they measure [0] for
    every [p]. *)
Definition distToLine (a b p : point) : R :=
  Rabs ((snd b - snd a) * fst p - (fst b - fst a) * snd p
        + fst b * snd a - snd b * fst a)
  / orOne (hypot (snd b - snd a) (fst b - fst a)).

(** [a] and [b] are neighbours in [out]. *)
Definition adjacent (out : list point) (a b : point) : Prop :=
  exists l1 l2, out = l1 ++ a :: b :: l2.

(** Every point of [points] is within [epsilon] of the line through two
    neighbours of [out]. *)
Definition withinTolerance (epsilon : R) (out points : list point) : Prop :=
  forall p, In p points ->
    exists a b, adjacent out a b /\ distToLine a b p <= epsilon.

(** ** Translation *)

Definition translatePoint (dx dy : R) (p : point) : point :=
  (fst p + dx, snd p + dy).

Definition translatePath (dx dy : R) (points : list point) : list point :=
  map (translatePoint dx dy) points.




(** ** Sorting numbers *)

(** The comparator of [angs.sort((a, b) => a - b)]. *)
Definition ascending (a b : R) : R := a - b.

(** ** Bodies *)

(** The bodies a world holds more than the world before. *)
Definition added {B : Type} (body : option B) : list B :=
  match body with Some b => [b] | None => [] end.

(** The mean of the points, and the points relative to a centre. *)
Definition centroidOf (points : list point) : point :=
  (mean (map fst points), mean (map snd points)).

Definition relativeTo (c : point) (points : list point) : list point :=
  map (fun p => (fst p - fst c, snd p - snd c)) points.

(** A stand-in for Matter.js that records the calls made to it; its
    [Bodies.fromVertices] builds a body from the vertex sets that [accepts]
    holds for. *)
#[warning="-register-all"]
Inductive Recorded : Type :=
| RectangleCall (x y w h : R) (options : BodyOptions)
| CircleCall (x y r : R) (options : BodyOptions)
| FromVerticesCall (x y : R) (vertexSets : list (list point))
    (options : BodyOptions) (flagInternal : bool)
| CreateCall (parts : list Recorded)
| SetStaticCall (body : Recorded) (static : bool).

Definition Recording (accepts : list (list point) -> bool) : Matter := {|
  Body := Recorded;
  Bodies_rectangle := RectangleCall;
  Bodies_circle := CircleCall;
  Bodies_fromVertices x y vertexSets options flagInternal :=
    if accepts vertexSets
    then Some (FromVerticesCall x y vertexSets options flagInternal)
    else None;
  Body_create := CreateCall;
  Body_setStatic := SetStaticCall
|}.

(** A library that builds a body from every vertex set, and one that builds
    bodies from triangles only. *)
Definition anything (vertexSets : list (list point)) : bool := true.

Definition trianglesOnly (vertexSets : list (list point)) : bool :=
  forallb (fun vs => (length vs =? 3)%nat) vertexSets.

(** ** Worked strokes *)

Definition black : string := "black"%string.

(** A 12 x 40 stroke that stops 5 short of its start. *)
Definition S0 : list point := [(0, 0); (12, 0); (12, 40); (0, 40); (0, 5)].

(** The circularity of [S0]: area 480, perimeter 99. *)
Definition S0_circularity : R := 4 * PI * 480 / (99 * 99).

(** A 3 x 4 rectangle, as a simplified polygon. *)
Definition R4 : list point := [(0, 0); (3, 0); (3, 4); (0, 4)].

(** Two identical points. *)
Definition P2 : list point := [(1, 1); (1, 1)].

(** Six points around the origin, their mean. *)
Definition F6 : list point := [(1, 0); (-1, 0); (0, 1); (0, -1); (1, 1); (-1, -1)].


(** A 300 x 400 stroke, large enough for every floor at scales 1 and 2. *)
Definition S1 : list point := [(0, 0); (300, 0); (300, 400); (0, 400); (0, 4)].

(** A rhombus with sides of length 20, drawn from its lowest corner and
    stopped 7 short of it. *)
Definition D0 : list point := [(16, 0); (32, 12); (16, 24); (0, 12); (9, 0)].

(** The circularity of [D0]: area 426, perimeter 75. *)
Definition D0_circularity : R := 4 * PI * 426 / (75 * 75).

(** Six points at distance 5 from the origin. *)
Definition C6 : list point := [(5, 0); (-5, 0); (0, 5); (0, -5); (3, 4); (-3, -4)].

(** Three directions a quarter turn apart. *)
Definition Q3 : list point := [(1, 0); (0, 1); (-1, 0)].

(** A square of side 4. *)
Definition Q4 : list point := [(0, 0); (4, 0); (4, 4); (0, 4)].

(** A path that ends where it starts. *)
Definition L4 : list point := [(0, 0); (5, 0); (5, 5); (0, 0)].

(** * Properties *)

(** ** The monad and the loops *)

Lemma bind_Ok_inv {A B : Type} (m : result A) (k : A -> result B) (b : B) :
  bind m k = Ok b -> exists a, m = Ok a /\ k a = Ok b.
Proof.
  destruct m as [a|e]; simpl; intros H; [eauto | discriminate].
Qed.

(** A loop whose body preserves [Inv] and never fails on the elements it
    visits runs to completion and establishes [Inv]. *)
Lemma foldM_inv {A St : Type} (Inv : St -> Prop) (body : A -> St -> result St)
  (xs : list A) :
  (forall x s, In x xs -> Inv s -> exists s', body x s = Ok s' /\ Inv s') ->
  forall s, Inv s -> exists s', foldM body xs s = Ok s' /\ Inv s'.
Proof.
  induction xs as [|x xs IH]; intros Hbody s Hs; simpl.
  - eauto.
  - destruct (Hbody x s (or_introl eq_refl) Hs) as (s1 & -> & Hs1). simpl.
    apply IH; [|exact Hs1]. intros y t Hy. apply Hbody. now right.
Qed.

Lemma forRange_inv {St : Type} (Inv : St -> Prop) (a b : nat)
  (body : nat -> St -> result St) :
  (forall i s, (a <= i < b)%nat -> Inv s -> exists s', body i s = Ok s' /\ Inv s') ->
  forall s, Inv s -> exists s', forRange a b s body = Ok s' /\ Inv s'.
Proof.
  intros Hbody s Hs. unfold forRange. apply foldM_inv; [|exact Hs].
  intros i t Hi. apply Hbody. apply in_seq in Hi. lia.
Qed.

(** The same with an invariant that follows the loop counter. *)
Lemma foldM_seq_inv {St : Type} (Inv : nat -> St -> Prop)
  (body : nat -> St -> result St) (n : nat) :
  forall a s,
  (forall i s, (a <= i < a + n)%nat -> Inv i s ->
               exists s', body i s = Ok s' /\ Inv (S i) s') ->
  Inv a s -> exists s', foldM body (seq a n) s = Ok s' /\ Inv (a + n)%nat s'.
Proof.
  induction n as [|n IH]; intros a s Hbody Hs; simpl.
  - rewrite Nat.add_0_r. eauto.
  - destruct (Hbody a s ltac:(lia) Hs) as (s1 & -> & Hs1). simpl.
    replace (a + S n)%nat with (S a + n)%nat by lia.
    apply IH; [|exact Hs1]. intros i t Hi. apply Hbody. lia.
Qed.

Lemma forRange_counter_inv {St : Type} (Inv : nat -> St -> Prop) (a b : nat)
  (body : nat -> St -> result St) (s : St) :
  (a <= b)%nat ->
  (forall i s, (a <= i < b)%nat -> Inv i s ->
               exists s', body i s = Ok s' /\ Inv (S i) s') ->
  Inv a s -> exists s', forRange a b s body = Ok s' /\ Inv b s'.
Proof.
  intros Hab Hbody Hs. unfold forRange.
  destruct (foldM_seq_inv Inv body (b - a) a s) as (s' & H1 & H2);
    [intros i t Hi; apply Hbody; lia | exact Hs |].
  exists s'. split; [exact H1|]. now replace b with (a + (b - a))%nat by lia.
Qed.

(** ** Element access *)

Lemma get_Ok {A : Type} (xs : list A) (i : nat) (x : A) :
  get xs i = Ok x <-> nth_error xs i = Some x.
Proof.
  unfold get. destruct (nth_error xs i); split; intros H; try discriminate;
    now inversion H.
Qed.

Lemma get_in_range {A : Type} (xs : list A) (i : nat) (d : A) :
  (i < length xs)%nat -> get xs i = Ok (nth i xs d).
Proof.
  intros H. apply get_Ok. now apply nth_error_nth'.
Qed.

Lemma get_last {A : Type} (xs : list A) (d : A) :
  xs <> [] -> get xs (length xs - 1) = Ok (last xs d).
Proof.
  intros H. destruct (exists_last H) as (ys & y & ->).
  rewrite last_last, length_app. simpl.
  replace (length ys + 1 - 1)%nat with (length ys) by lia.
  apply get_Ok. rewrite nth_error_app2 by lia. now rewrite Nat.sub_diag.
Qed.

Lemma get_head {A : Type} (xs : list A) (d : A) :
  xs <> [] -> get xs 0 = Ok (hd d xs).
Proof. destruct xs; [congruence | reflexivity]. Qed.

Lemma getZ_in_range {A : Type} (xs : list A) (z : Z) (d : A) :
  (0 <= z < Z.of_nat (length xs))%Z -> getZ xs z = Ok (nth (Z.to_nat z) xs d).
Proof.
  intros H. unfold getZ. destruct (Z.ltb_spec z 0); [lia|].
  apply get_in_range. lia.
Qed.

(** ** Numbers *)

Lemma ltb_true (a b : R) : (a <? b) = true <-> a < b.
Proof. unfold ltb. destruct (Rlt_dec a b); split; intros; congruence. Qed.

Lemma ltb_false (a b : R) : (a <? b) = false <-> b <= a.
Proof.
  unfold ltb. destruct (Rlt_dec a b); split; intros; try congruence; lra.
Qed.

Lemma leb_true (a b : R) : (a <=? b) = true <-> a <= b.
Proof. unfold leb. destruct (Rle_dec a b); split; intros; congruence. Qed.

Lemma leb_false (a b : R) : (a <=? b) = false <-> b < a.
Proof.
  unfold leb. destruct (Rle_dec a b); split; intros; try congruence; lra.
Qed.

Lemma gtb_true (a b : R) : (a >? b) = true <-> b < a.
Proof. apply ltb_true. Qed.

Lemma gtb_false (a b : R) : (a >? b) = false <-> a <= b.
Proof. apply ltb_false. Qed.

Lemma hypot_nonneg (x y : R) : 0 <= hypot x y.
Proof. apply sqrt_pos. Qed.

Lemma hypot_zero (x y : R) : hypot x y = 0 -> x = 0 /\ y = 0.
Proof.
  unfold hypot. intros H. apply sqrt_eq_0 in H; nra.
Qed.

Lemma hypot_00 : hypot 0 0 = 0.
Proof. unfold hypot. replace (0 * 0 + 0 * 0) with 0 by ring. apply sqrt_0. Qed.

Lemma hypot_scale (k x y : R) : 0 <= k -> hypot (k * x) (k * y) = k * hypot x y.
Proof.
  intros Hk. unfold hypot.
  replace (k * x * (k * x) + k * y * (k * y)) with (k * k * (x * x + y * y)) by ring.
  rewrite sqrt_mult by nra. now rewrite sqrt_square.
Qed.

Lemma orOne_neq_0 (x : R) : orOne x <> 0.
Proof. unfold orOne. destruct (Req_dec_T x 0); lra. Qed.

Lemma orOne_id (x : R) : x <> 0 -> orOne x = x.
Proof. unfold orOne. destruct (Req_dec_T x 0); congruence. Qed.

Lemma orOne_0 : orOne 0 = 1.
Proof. unfold orOne. destruct (Req_dec_T 0 0); congruence. Qed.

Lemma orOne_pos (x : R) : 0 <= x -> 0 < orOne x.
Proof. unfold orOne. destruct (Req_dec_T x 0); lra. Qed.

Lemma divide_Ok (a b : R) : b <> 0 -> divide a b = Ok (a / b).
Proof. unfold divide. destruct (Req_dec_T b 0); congruence. Qed.

Lemma divide_Ok_inv (a b q : R) : divide a b = Ok q -> b <> 0 /\ q = a / b.
Proof.
  unfold divide. destruct (Req_dec_T b 0); intros H; [discriminate|].
  split; congruence.
Qed.

(** ** Subsequences *)

Lemma Subseq_refl {A : Type} (l : list A) : Subseq l l.
Proof. induction l; auto. Qed.

Lemma Subseq_nil_l {A : Type} (l : list A) : Subseq [] l.
Proof. induction l; auto. Qed.

Lemma Subseq_app {A : Type} (l1 m1 l2 m2 : list A) :
  Subseq l1 m1 -> Subseq l2 m2 -> Subseq (l1 ++ l2) (m1 ++ m2).
Proof. induction 1; simpl; auto. Qed.

Lemma Subseq_In {A : Type} (l m : list A) (x : A) :
  Subseq l m -> In x l -> In x m.
Proof.
  induction 1; simpl; auto.
  intros [->|H1]; auto.
Qed.

Lemma Subseq_length {A : Type} (l m : list A) :
  Subseq l m -> (length l <= length m)%nat.
Proof. induction 1; simpl; lia. Qed.

Lemma removelast_firstn_S {A : Type} (i : nat) (l : list A) :
  (i < length l)%nat -> removelast (firstn (S i) l) = firstn i l.
Proof.
  revert l. induction i as [|i IH]; intros [|x l] H; simpl in *; try lia.
  - now destruct l.
  - destruct l as [|y l]; [simpl in H; lia|].
    rewrite <- (IH (y :: l)) by (simpl in *; lia). reflexivity.
Qed.

Lemma removelast_skipn {A : Type} (i : nat) (l : list A) :
  (i < length l)%nat -> firstn i l ++ removelast (skipn i l) = removelast l.
Proof.
  intros H. rewrite <- (firstn_skipn i l) at 3.
  rewrite removelast_app; [reflexivity|].
  intros E. apply (f_equal (@length A)) in E. rewrite length_skipn in E.
  simpl in E. lia.
Qed.

Lemma last_app_nonempty {A : Type} (l m : list A) (d : A) :
  m <> [] -> last (l ++ m) d = last m d.
Proof.
  intros H. destruct (exists_last H) as (m' & y & ->).
  now rewrite app_assoc, !last_last.
Qed.

Lemma last_skipn {A : Type} (i : nat) (l : list A) (d : A) :
  (i < length l)%nat -> last (skipn i l) d = last l d.
Proof.
  intros H. rewrite <- (firstn_skipn i l) at 2.
  rewrite last_app_nonempty; [reflexivity|].
  intros E. apply (f_equal (@length A)) in E. rewrite length_skipn in E.
  simpl in E. lia.
Qed.

Lemma hd_firstn {A : Type} (i : nat) (l : list A) (d : A) :
  hd d (firstn (S i) l) = hd d l.
Proof. now destruct l. Qed.

Lemma hd_removelast {A : Type} (l : list A) (d : A) :
  (2 <= length l)%nat -> hd d (removelast l) = hd d l.
Proof. destruct l as [|x [|y l]]; simpl; intros; try lia; reflexivity. Qed.

Lemma length_removelast {A : Type} (l : list A) :
  length (removelast l) = (length l - 1)%nat.
Proof.
  destruct l as [|x l] using rev_ind; [reflexivity|].
  rewrite removelast_last, length_app. simpl. lia.
Qed.

Lemma hd_app_nonempty {A : Type} (l m : list A) (d : A) :
  l <> [] -> hd d (l ++ m) = hd d l.
Proof. destruct l; [congruence | reflexivity]. Qed.

Lemma Subseq_ends {A : Type} (l : list A) (d : A) :
  (2 <= length l)%nat -> Subseq [hd d l; last l d] l.
Proof.
  destruct l as [|x l]; simpl; [lia|]. intros H.
  apply Subseq_keep.
  assert (Hl : l <> []) by (destruct l; [simpl in H; lia | discriminate]).
  destruct (exists_last Hl) as (m & y & ->).
  replace (match m ++ [y] with [] => x | _ :: _ => last (m ++ [y]) d end)
    with y.
  - replace [y] with ([] ++ [y]) at 1 by reflexivity.
    apply Subseq_app; [apply Subseq_nil_l | apply Subseq_refl].
  - destruct (m ++ [y]) eqn:E; [now destruct m|]. rewrite <- E.
    now rewrite last_last.
Qed.

Lemma Subseq_head_removelast {A : Type} (l : list A) (d : A) :
  (2 <= length l)%nat -> Subseq [hd d l] (removelast l).
Proof.
  destruct l as [|x [|y l]]; simpl; intros H; try lia.
  apply Subseq_keep, Subseq_nil_l.
Qed.

(** ** Simplification *)

Lemma lineDistance_ok (sx sy ex ey x y : R) :
  exists d, lineDistance sx sy ex ey x y = Ok d /\ 0 <= d.
Proof.
  unfold lineDistance. eexists. split.
  - apply divide_Ok, orOne_neq_0.
  - apply Rmult_le_pos; [apply Rabs_pos|].
    left. apply Rinv_0_lt_compat, orOne_pos, hypot_nonneg.
Qed.

Lemma rdpDistance_ok (points : list point) :
  exists d, rdpDistance points = Ok d /\ 0 <= d.
Proof.
  unfold rdpDistance. destruct (Nat.ltb_spec (length points) 3) as [Hn|Hn].
  - exists 0. split; [reflexivity | lra].
  - rewrite (get_in_range points 0 (0, 0)) by lia.
    rewrite (get_in_range points (length points - 1) (0, 0)) by lia.
    simpl bind. destruct (nth 0 points (0, 0)) as [sx sy].
    destruct (nth (length points - 1) points (0, 0)) as [ex ey].
    apply forRange_inv; [|lra].
    intros i maxD Hi HmaxD.
    rewrite (get_in_range points i (0, 0)) by lia. simpl bind.
    destruct (nth i points (0, 0)) as [x y].
    destruct (lineDistance_ok sx sy ex ey x y) as (d & -> & Hd). simpl bind.
    eexists. split; [reflexivity|]. now destruct (d >? maxD).
Qed.

Lemma rdpScan_ok (points : list point) (sx sy ex ey : R) :
  (3 <= length points)%nat ->
  exists maxD idx, rdpScan points sx sy ex ey = Ok (maxD, idx) /\
                   (1 <= idx < Z.of_nat (length points) - 1)%Z /\ 0 <= maxD.
Proof.
  intros Hn. unfold rdpScan.
  destruct (forRange_counter_inv
    (fun i '(maxD, idx) =>
       (i = 1%nat /\ maxD = -1 /\ idx = (-1)%Z) \/
       ((1 <= idx < Z.of_nat i)%Z /\ 0 <= maxD))
    1 (length points - 1) 
    (fun i '(maxD, idx) =>
       '(x, y) <- get points i ;;
       d <- lineDistance sx sy ex ey x y ;;
       Ok (if d >? maxD then (d, Z.of_nat i) else (maxD, idx)))
    (-1, (-1)%Z)) as ([maxD idx] & Hrun & Hinv).
  - lia.
  - intros i [maxD idx] Hi Hinv.
    rewrite (get_in_range points i (0, 0)) by lia. simpl bind.
    destruct (nth i points (0, 0)) as [x y].
    destruct (lineDistance_ok sx sy ex ey x y) as (d & -> & Hd). simpl bind.
    eexists. split; [reflexivity|].
    destruct (d >? maxD) eqn:E.
    + right. split; [lia | exact Hd].
    + apply gtb_false in E. right.
      destruct Hinv as [(_ & -> & _) | (Hidx & Hm)]; [lra|].
      split; [lia | exact Hm].
  - now left.
  - exists maxD, idx. split; [exact Hrun|].
    destruct Hinv as [(Hone & _) | (Hidx & Hm)]; [lia|].
    split; [lia | exact Hm].
Qed.

Lemma RdpOut_refl (points : list point) : RdpOut points points.
Proof. split; auto using Subseq_refl. Qed.

Lemma RdpOut_ends (points : list point) (s e : point) :
  (3 <= length points)%nat ->
  get points 0 = Ok s -> get points (length points - 1) = Ok e ->
  RdpOut [s; e] points.
Proof.
  intros Hn Hs He.
  rewrite (get_in_range points 0 s) in Hs by lia.
  assert (Hne : points <> []) by (destruct points; [simpl in Hn; lia | discriminate]).
  rewrite (get_last points s Hne) in He.
  injection Hs as Hs. injection He as He.
  assert (Hhd : forall d, hd d points = s).
  { intros d. destruct points; [congruence|]. simpl in *. congruence. }
  assert (Hla : forall d, last points d = e).
  { intros d. destruct (exists_last Hne) as (m & y & E). rewrite E in *.
    rewrite last_last in *. congruence. }
  split.
  - rewrite <- (Hhd s), <- (Hla s). apply Subseq_ends. lia.
  - simpl. rewrite <- (Hhd s). apply Subseq_head_removelast. lia.
  - intros d. simpl. now rewrite Hhd.
  - intros d. simpl. now rewrite Hla.
  - simpl. lia.
Qed.

Lemma RdpOut_join (points left right : list point) (i : nat) :
  (1 <= i < length points - 1)%nat ->
  RdpOut left (firstn (S i) points) ->
  RdpOut right (skipn i points) ->
  RdpOut (removelast left ++ right) points.
Proof.
  intros Hi [L1 L2 L3 L4 L5] [R1 R2 R3 R4 R5].
  rewrite removelast_firstn_S in L2 by lia.
  rewrite length_firstn in L5. rewrite length_skipn in R5.
  assert (HL : (2 <= length left)%nat) by (apply L5; lia).
  assert (HR : (2 <= length right)%nat) by (apply R5; lia).
  assert (HRne : right <> []) by (destruct right; [simpl in HR; lia | discriminate]).
  assert (HLne : removelast left <> []).
  { intros E. apply (f_equal (@length point)) in E.
    rewrite length_removelast in E. simpl in E. lia. }
  split.
  - rewrite <- (firstn_skipn i points). now apply Subseq_app.
  - rewrite removelast_app by exact HRne.
    rewrite <- (removelast_skipn i points) by lia. now apply Subseq_app.
  - intros d. rewrite hd_app_nonempty by exact HLne.
    rewrite hd_removelast by exact HL. rewrite L3. apply hd_firstn.
  - intros d. rewrite last_app_nonempty by exact HRne.
    rewrite R4. apply last_skipn. lia.
  - intros _. rewrite length_app, length_removelast. lia.
Qed.

Lemma rdpFuel_spec (fuel : nat) :
  forall points epsilon, (length points <= fuel)%nat ->
  exists out, rdpFuel fuel points epsilon = Ok out /\ RdpOut out points.
Proof.
  induction fuel as [|fuel IH]; intros points epsilon Hfuel.
  - exists points. split; [|apply RdpOut_refl].
    simpl. destruct (Nat.leb_spec (length points) 2); [reflexivity | lia].
  - simpl. destruct (Nat.leb_spec (length points) 2) as [Hn|Hn].
    { exists points. split; [reflexivity | apply RdpOut_refl]. }
    pose proof (get_in_range points 0 (0, 0) ltac:(lia)) as Hs.
    pose proof (get_in_range points (length points - 1) (0, 0) ltac:(lia)) as He.
    destruct (nth 0 points (0, 0)) as [sx sy].
    destruct (nth (length points - 1) points (0, 0)) as [ex ey].
    rewrite Hs, He. simpl bind.
    destruct (rdpScan_ok points sx sy ex ey ltac:(lia)) as (maxD & idx & -> & Hidx & _).
    simpl bind.
    destruct (rdpDistance_ok points) as (dist & -> & _). simpl bind.
    destruct (dist <? epsilon).
    { eexists. split; [reflexivity|]. apply RdpOut_ends; auto; lia. }
    destruct ((maxD >? epsilon) && (0 <? idx)%Z).
    2:{ eexists. split; [reflexivity|]. apply RdpOut_ends; auto; lia. }
    unfold slice, sliceFrom, dropLast. simpl skipn. rewrite Nat.sub_0_r.
    replace (Z.to_nat (idx + 1)) with (S (Z.to_nat idx)) by lia.
    destruct (IH (firstn (S (Z.to_nat idx)) points) epsilon) as (left & -> & HL).
    { rewrite length_firstn. lia. }
    destruct (IH (skipn (Z.to_nat idx) points) epsilon) as (right & -> & HR).
    { rewrite length_skipn. lia. }
    simpl bind. eexists. split; [reflexivity|].
    apply RdpOut_join with (i := Z.to_nat idx); auto. lia.
Qed.

Lemma rdp_spec (points : list point) (epsilon : R) :
  exists out, rdp points epsilon = Ok out /\ RdpOut out points.
Proof. apply rdpFuel_spec. lia. Qed.

(** More fuel than the length changes nothing. *)
Lemma rdpFuel_irrel (f1 : nat) :
  forall f2 points epsilon,
  (length points <= f1)%nat -> (length points <= f2)%nat ->
  rdpFuel f1 points epsilon = rdpFuel f2 points epsilon.
Proof.
  induction f1 as [|f1 IH]; intros f2 points epsilon H1 H2.
  - destruct points; [|simpl in H1; lia]. now destruct f2.
  - destruct f2 as [|f2].
    { destruct points; [reflexivity | simpl in H2; lia]. }
    cbn [rdpFuel].
    destruct (Nat.leb_spec (length points) 2) as [Hn|Hn]; [reflexivity|].
    destruct (get points 0) as [[sx sy]|]; cbn [bind]; [|reflexivity].
    destruct (get points _) as [[ex ey]|]; cbn [bind]; [|reflexivity].
    destruct (rdpScan_ok points sx sy ex ey ltac:(lia))
      as (maxD & idx & -> & Hidx & _).
    cbn [bind].
    destruct (rdpDistance points); cbn [bind]; [|reflexivity].
    destruct (_ <? _); [reflexivity|].
    destruct (_ && _); [|reflexivity].
    unfold slice, sliceFrom. cbn [skipn]. rewrite Nat.sub_0_r.
    rewrite (IH f2 (firstn _ _) epsilon) by (rewrite length_firstn; lia).
    rewrite (IH f2 (skipn _ _) epsilon) by (rewrite length_skipn; lia).
    reflexivity.
Qed.

Lemma rdpFuel_enough (fuel : nat) (points : list point) (epsilon : R) :
  (length points <= fuel)%nat -> rdpFuel fuel points epsilon = rdp points epsilon.
Proof. intros H. apply rdpFuel_irrel; lia. Qed.

(** [rdp] satisfies the recursive equation of the source. *)
Lemma rdp_unfold (points : list point) (epsilon : R) :
  rdp points epsilon =
  if (length points <=? 2)%nat then Ok points else
  '(sx, sy) <- get points 0 ;;
  '(ex, ey) <- get points (length points - 1) ;;
  '(maxD, idx) <- rdpScan points sx sy ex ey ;;
  dist <- rdpDistance points ;;
  if dist <? epsilon then Ok [(sx, sy); (ex, ey)] else
  if (maxD >? epsilon) && (0 <? idx)%Z then
    left <- rdp (slice 0 (Z.to_nat (idx + 1)) points) epsilon ;;
    right <- rdp (sliceFrom (Z.to_nat idx) points) epsilon ;;
    Ok (dropLast left ++ right)
  else Ok [(sx, sy); (ex, ey)].
Proof.
  unfold rdp at 1.
  destruct (Nat.leb_spec (length points) 2) as [Hn|Hn].
  { destruct points as [|p [|q [|]]]; simpl in Hn; try lia; reflexivity. }
  destruct (length points) as [|n] eqn:En; [lia|].
  cbn [rdpFuel]. rewrite En.
  destruct (Nat.leb_spec (S n) 2); [lia|].
  destruct (get points 0) as [[sx sy]|]; cbn [bind]; [|reflexivity].
  destruct (get points _) as [[ex ey]|]; cbn [bind]; [|reflexivity].
  destruct (rdpScan_ok points sx sy ex ey ltac:(lia))
    as (maxD & idx & -> & Hidx & _).
  cbn [bind].
  destruct (rdpDistance points); cbn [bind]; [|reflexivity].
  destruct (_ <? _); [reflexivity|].
  destruct (_ && _); [|reflexivity].
  unfold slice, sliceFrom. cbn [skipn]. rewrite Nat.sub_0_r.
  rewrite !rdpFuel_enough; [reflexivity | |].
  - rewrite length_skipn. lia.
  - rewrite length_firstn. lia.
Qed.

(** Where [rdp] recurses, both slices are strictly shorter than the array. *)
Lemma rdp_slices_shorter (points : list point) (sx sy ex ey maxD : R) (idx : Z) :
  (3 <= length points)%nat ->
  rdpScan points sx sy ex ey = Ok (maxD, idx) ->
  (length (slice 0 (Z.to_nat (idx + 1)) points) < length points)%nat /\
  (length (sliceFrom (Z.to_nat idx) points) < length points)%nat.
Proof.
  intros Hn Hscan.
  destruct (rdpScan_ok points sx sy ex ey Hn) as (maxD' & idx' & E & Hidx & _).
  rewrite E in Hscan. injection Hscan as -> ->.
  unfold slice, sliceFrom. cbn [skipn].
  rewrite length_firstn, length_skipn. lia.
Qed.

(** C5, as amended: [rdp] always answers; the answer is a subsequence of the
    input with the same first and last point; it has at least two points as
    soon as the input has; an input of at most two points comes back
    unchanged. *)
Theorem rdp_retains_ends (points : list point) (epsilon : R) :
  exists out,
    rdp points epsilon = Ok out /\
    Subseq out points /\
    (forall d, hd d out = hd d points) /\
    (forall d, last out d = last points d) /\
    ((2 <= length points)%nat -> (2 <= length out)%nat) /\
    ((length points <= 2)%nat -> out = points).
Proof.
  destruct (rdp_spec points epsilon) as (out & Hrun & [H1 _ H3 H4 H5]).
  exists out. repeat split; auto.
  intros Hn. rewrite rdp_unfold in Hrun.
  destruct (Nat.leb_spec (length points) 2); [congruence | lia].
Qed.

(** C5, as stated, fails on a one-point input: it comes back unchanged and
    so has fewer than two points. *)
Lemma rdp_single_point_short :
  exists out, rdp [(0, 0)] 3 = Ok out /\ ~ (2 <= length out)%nat.
Proof.
  exists [(0, 0)]. split; [reflexivity | simpl; lia].
Qed.

(** ** Closing, perimeter, area *)

Ltac get_step l i :=
  rewrite (get_in_range l i (0, 0)) by (simpl; lia); cbn [bind].

Lemma get_first_last (points : list point) :
  points <> [] ->
  get points 0 = Ok (hd (0, 0) points) /\
  get points (length points - 1) = Ok (last points (0, 0)).
Proof. intros H. split; [now apply get_head | now apply get_last]. Qed.

Lemma ensureClosed_eq (points : list point) :
  ensureClosed points = Ok (closedPath points).
Proof.
  unfold ensureClosed, closedPath, closingGap.
  destruct (Nat.ltb_spec (length points) 2) as [Hn|Hn]; [reflexivity|].
  destruct (get_first_last points) as [E1 E2].
  { destruct points; [simpl in Hn; lia | discriminate]. }
  rewrite E1, E2. cbn [bind].
  destruct (hd (0, 0) points) as [x0 y0], (last points (0, 0)) as [xn yn].
  cbn [fst snd]. now destruct (_ <=? _).
Qed.

Lemma ensureClosed_ok (points : list point) :
  exists rawClosed,
    ensureClosed points = Ok rawClosed /\
    (length points <= length rawClosed)%nat /\
    (forall p, In p rawClosed -> In p points).
Proof.
  rewrite ensureClosed_eq. eexists. split; [reflexivity|]. unfold closedPath.
  destruct (Nat.ltb_spec (length points) 2) as [Hn|Hn]; [auto|].
  destruct (_ <=? _); [auto|]. split.
  - rewrite length_app. simpl. lia.
  - intros p Hp. apply in_app_or in Hp as [Hp|[<-|[]]]; [exact Hp|].
    destruct points; [simpl in Hn; lia | now left].
Qed.

Lemma polygonPerimeter_ok (points : list point) :
  exists P, polygonPerimeter points = Ok P /\ 0 <= P.
Proof.
  unfold polygonPerimeter. apply forRange_inv; [|lra].
  intros i p Hi Hp. get_step points i. destruct (nth i points _) as [xi yi].
  get_step points (i - 1)%nat. destruct (nth (i - 1) points _) as [xp yp].
  eexists. split; [reflexivity|].
  pose proof (hypot_nonneg (xi - xp) (yi - yp)). lra.
Qed.

Lemma polygonArea_ok (points : list point) :
  exists A, polygonArea points = Ok A /\ 0 <= A.
Proof.
  unfold polygonArea.
  destruct (forRange_inv (fun '(_, j) => (j < length points)%nat \/ points = [])
    0 (length points)
    (fun i '(a, j) =>
      '(xi, yi) <- get points i ;;
      '(xj, yj) <- get points j ;;
      Ok (a + (xj * yi - xi * yj), i))) with (s := (0, (length points - 1)%nat))
    as ([a j] & -> & _).
  - intros i [a j] Hi Hj.
    assert (j < length points)%nat by (destruct Hj as [ | -> ]; [auto | simpl in Hi; lia]).
    get_step points i. destruct (nth i points _) as [xi yi].
    get_step points j. destruct (nth j points _) as [xj yj].
    eexists. split; [reflexivity|]. left. lia.
  - destruct points; [now right | left; simpl; lia].
  - cbn [bind]. eexists. split; [reflexivity|].
    pose proof (Rabs_pos a). lra.
Qed.

(** *** The length of a polyline, in the words of the specification *)

Lemma euclid_hypot (p q : point) :
  euclid p q = hypot (fst p - fst q) (snd p - snd q).
Proof. reflexivity. Qed.

Lemma euclid_sym (p q : point) : euclid p q = euclid q p.
Proof. unfold euclid. f_equal. ring. Qed.

Lemma polylineLength_cons (p q : point) (l : list point) :
  polylineLength (p :: q :: l) = euclid p q + polylineLength (q :: l).
Proof. reflexivity. Qed.

(** The [reduce] of [pathClosed], started in the middle of the array. *)
Lemma pathClosed_reduce (points : list point) :
  forall suffix prefix prev acc,
  points = prefix ++ prev :: suffix ->
  reduceFrom (fun acc p i =>
      if (i =? 0)%nat then Ok (acc + 0)
      else q <- get points (i - 1) ;;
           Ok (acc + hypot (fst p - fst q) (snd p - snd q)))
    suffix (S (length prefix)) acc
  = Ok (acc + polylineLength (prev :: suffix)).
Proof.
  induction suffix as [|x suffix IH]; intros prefix prev acc E.
  - simpl. unfold polylineLength. simpl. f_equal. lra.
  - cbn [reduceFrom]. cbn [Nat.eqb]. 
    replace (S (length prefix) - 1)%nat with (length prefix) by lia.
    assert (Hget : get points (length prefix) = Ok prev).
    { apply get_Ok. subst points. rewrite nth_error_app2 by lia.
      now rewrite Nat.sub_diag. }
    rewrite Hget. cbn [bind].
    replace (S (S (length prefix))) with (S (length (prefix ++ [prev])))
      by (rewrite length_app; simpl; lia).
    rewrite (IH (prefix ++ [prev]) x) by now rewrite <- app_assoc.
    rewrite polylineLength_cons, (euclid_sym prev x), euclid_hypot.
    f_equal. lra.
Qed.

Lemma pathClosed_eq (points : list point) :
  pathClosed points =
  Ok (if (length points <? 3)%nat then false
      else closingGap points <? Rmax 10 (polylineLength points * 0.05)).
Proof.
  unfold pathClosed, closingGap.
  destruct (Nat.ltb_spec (length points) 3) as [Hn|Hn]; [reflexivity|].
  destruct (get_first_last points) as [E1 E2].
  { destruct points; [simpl in Hn; lia | discriminate]. }
  rewrite E1, E2. cbn [bind].
  destruct (hd (0, 0) points) as [x0 y0] eqn:E0,
           (last points (0, 0)) as [xn yn] eqn:En.
  destruct points as [|p l]; [simpl in Hn; lia|].
  cbn [reduceFrom Nat.eqb bind].
  rewrite (pathClosed_reduce (p :: l) l [] p) by reflexivity.
  cbn [bind fst snd]. do 3 f_equal. lra.
Qed.

(** C4: [pathClosed] answers [true] exactly when the sequence has at least
    three points and its first and last point are at a Euclidean distance
    strictly below [max(10, 5% of the polyline length)]; with fewer than
    three points it answers [false]. *)
Theorem pathClosed_iff (points : list point) :
  exists b,
    pathClosed points = Ok b /\
    (b = true <->
       (3 <= length points)%nat /\
       euclid (hd (0, 0) points) (last points (0, 0))
         < Rmax 10 (5 / 100 * polylineLength points)) /\
    ((length points < 3)%nat -> b = false).
Proof.
  rewrite pathClosed_eq. eexists. split; [reflexivity|].
  replace (5 / 100 * polylineLength points) with (polylineLength points * 0.05)
    by lra.
  rewrite euclid_hypot. fold (closingGap points).
  destruct (Nat.ltb_spec (length points) 3) as [Hn|Hn]; split.
  - split; [discriminate | lia].
  - reflexivity.
  - rewrite ltb_true. intuition lia.
  - lia.
Qed.

(** ** Corners *)

Lemma countCorners_ok (poly : list point) (angleThreshDeg : R) :
  exists corners, countCorners poly angleThreshDeg = Ok corners.
Proof.
  unfold countCorners. destruct (Nat.ltb_spec (length poly) 3) as [Hn|Hn]; [eauto|].
  destruct (forRange_inv (fun _ => True) 0 (length poly)
    (fun i corners =>
      '(x0, y0) <- getZ poly (Z.rem (Z.of_nat i - 1 + Z.of_nat (length poly))
                                    (Z.of_nat (length poly))) ;;
      '(x1, y1) <- get poly i ;;
      '(x2, y2) <- getZ poly (Z.rem (Z.of_nat i + 1) (Z.of_nat (length poly))) ;;
      let v1x := x0 - x1 in let v1y := y0 - y1 in
      let v2x := x2 - x1 in let v2y := y2 - y1 in
      let dot := v1x * v2x + v1y * v2y in
      let mag1 := orOne (hypot v1x v1y) in
      let mag2 := orOne (hypot v2x v2y) in
      q <- divide dot (mag1 * mag2) ;;
      let ang := acos (Rmax (-1) (Rmin 1 q)) in
      let deg := toDeg ang in
      Ok (if (deg <? 180 - angleThreshDeg) && (deg >? angleThreshDeg)
          then S corners else corners))) with (s := 0%nat) as (c & Hc & _);
    [|exact I|eauto].
  intros i corners Hi _.
  rewrite (getZ_in_range poly _ (0, 0)).
  2:{ rewrite Z.rem_mod_nonneg by lia. apply Z.mod_pos_bound. lia. }
  cbn [bind]. destruct (nth _ poly _) as [x0 y0].
  get_step poly i. destruct (nth i poly _) as [x1 y1].
  rewrite (getZ_in_range poly _ (0, 0)).
  2:{ rewrite Z.rem_mod_nonneg by lia. apply Z.mod_pos_bound. lia. }
  cbn [bind]. destruct (nth _ poly _) as [x2 y2].
  cbv zeta. rewrite divide_Ok.
  - cbn [bind]. eauto.
  - apply Rmult_integral_contrapositive_currified; apply orOne_neq_0.
Qed.

(** ** Circle fit *)

Lemma fitCircle_den_nonzero (den : R) : (Rabs den <? 1e-6) = false -> den <> 0.
Proof.
  intros H. apply ltb_false in H. intros ->. rewrite Rabs_R0 in H. lra.
Qed.

Lemma INR_length_nonzero {A : Type} (l : list A) :
  (length l <? 6)%nat = false -> INR (length l) <> 0.
Proof.
  intros H. apply Nat.ltb_ge in H. apply not_0_INR. lia.
Qed.

Lemma fitCircle_ok (points : list point) :
  exists fit, fitCircle points = Ok fit.
Proof.
  unfold fitCircle. destruct (length points <? 6)%nat eqn:Hn; [eauto|].
  pose proof (INR_length_nonzero points Hn) as Hnz.
  rewrite !divide_Ok by exact Hnz. cbn [bind]. cbv zeta.
  destruct (Rabs _ <? 1e-6) eqn:Hden; [eauto|].
  apply fitCircle_den_nonzero in Hden.
  rewrite !divide_Ok by exact Hden. cbn [bind].
  rewrite (divide_Ok _ (INR _)) by exact Hnz. cbn [bind].
  rewrite (divide_Ok _ (INR _)) by exact Hnz. cbn [bind].
  rewrite divide_Ok by apply orOne_neq_0. cbn [bind]. eauto.
Qed.

(** ** The widest triple *)


Section BestTriple.

Variable pts : list point.

Lemma searched_weaken (D D' : nat -> nat -> nat -> Prop) st :
  (forall a b c, D' a b c -> D a b c) -> searched pts D st -> searched pts D' st.
Proof.
  destruct st as [best maxSum]. intros Hsub [H1 H2]. split; auto.
Qed.

Lemma bestTriple_inner (i j : nat) (st : list point * R) :
  (i < j < (length pts))%nat ->
  searched pts (before pts i j (j + 1)) st ->
  exists st',
    forRange (j + 1) (length pts) st (fun k '(best, maxSum) =>
      pi <- get pts i ;;
      pj <- get pts j ;;
      pk <- get pts k ;;
      let s := spread pi pj pk in
      Ok (if s >? maxSum then ([pi; pj; pk], s) else (best, maxSum))) = Ok st' /\
    searched pts (before pts i j (length pts)) st'.
Proof.
  intros Hij Hst.
  apply (forRange_counter_inv (fun k => searched pts (before pts i j k)));
    [lia | | exact Hst].
  intros k [best maxSum] Hk [H1 H2].
  rewrite (get_in_range pts i (0, 0)), (get_in_range pts j (0, 0)),
    (get_in_range pts k (0, 0)) by lia.
  cbn [bind]. cbv zeta.
  eexists. split; [reflexivity|].
  assert (Hold : forall a b c, (a < b < c)%nat -> (c < (length pts))%nat ->
            (a < i \/ (a = i /\ b < j) \/ (a = i /\ b = j /\ c < k))%nat ->
            spread (nth a pts (0, 0)) (nth b pts (0, 0)) (nth c pts (0, 0)) <= maxSum).
  { intros a b c Habc Hc Hpos. apply H1. unfold before. auto. }
  destruct (_ >? maxSum) eqn:E.
  - apply gtb_true in E. split.
    + intros a b c (Habc & Hc & Hpos).
      destruct (Nat.eq_dec a i) as [->|Ha];
        [destruct (Nat.eq_dec b j) as [->|Hb];
           [destruct (Nat.eq_dec c k) as [->|Hck]; [lra|]|]|];
        (apply Rle_trans with maxSum; [apply Hold; lia | lra]).
    + right. exists i, j, k. repeat split; lia.
  - apply gtb_false in E. split; [|exact H2].
    intros a b c (Habc & Hc & Hpos).
    destruct (Nat.eq_dec a i) as [->|Ha];
      [destruct (Nat.eq_dec b j) as [->|Hb];
         [destruct (Nat.eq_dec c k) as [->|Hck]; [lra|]|]|];
      apply Hold; lia.
Qed.

Lemma bestTriple_middle (i : nat) (st : list point * R) :
  (i < (length pts))%nat ->
  searched pts (before pts i 0 0) st ->
  exists st',
    forRange (i + 1) (length pts) st (fun j st =>
      forRange (j + 1) (length pts) st (fun k '(best, maxSum) =>
        pi <- get pts i ;;
        pj <- get pts j ;;
        pk <- get pts k ;;
        let s := spread pi pj pk in
        Ok (if s >? maxSum then ([pi; pj; pk], s) else (best, maxSum)))) = Ok st' /\
    searched pts (before pts (i + 1) 0 0) st'.
Proof.
  intros Hi Hst.
  destruct (forRange_counter_inv (fun j => searched pts (before pts i j 0))
    (i + 1) (length pts)
    (fun j st =>
      forRange (j + 1) (length pts) st (fun k '(best, maxSum) =>
        pi <- get pts i ;;
        pj <- get pts j ;;
        pk <- get pts k ;;
        let s := spread pi pj pk in
        Ok (if s >? maxSum then ([pi; pj; pk], s) else (best, maxSum))))
    st) as (st' & Hrun & Hst'); [lia | | |].
  - intros j s Hj Hs.
    destruct (bestTriple_inner i j s) as (s' & Hs' & Hinv); [lia | |].
    + revert Hs. apply searched_weaken. unfold before. intros a b c. lia.
    + exists s'. split; [exact Hs'|].
      revert Hinv. apply searched_weaken. unfold before. intros a b c. lia.
  - revert Hst. apply searched_weaken. unfold before. intros a b c. lia.
  - exists st'. split; [exact Hrun|].
    revert Hst'. apply searched_weaken. unfold before. intros a b c. lia.
Qed.

Lemma bestTriple_spec :
  exists best maxSum,
    bestTriple pts = Ok (best, maxSum) /\
    searched pts (fun a b c => (a < b < c)%nat /\ (c < (length pts))%nat) (best, maxSum).
Proof.
  unfold bestTriple.
  destruct (forRange_counter_inv (fun i => searched pts (before pts i 0 0)) 0 (length pts)
    (fun i st =>
      forRange (i + 1) (length pts) st (fun j st =>
        forRange (j + 1) (length pts) st (fun k '(best, maxSum) =>
          pi <- get pts i ;;
          pj <- get pts j ;;
          pk <- get pts k ;;
          let s := spread pi pj pk in
          Ok (if s >? maxSum then ([pi; pj; pk], s) else (best, maxSum)))))
    ([], -1)) as ([best maxSum] & Hrun & Hst); [lia | | |].
  - intros i s Hi Hs. replace (S i) with (i + 1)%nat by lia.
    apply bestTriple_middle; [lia | exact Hs].
  - split; [|now left]. unfold before. intros a b c. lia.
  - exists best, maxSum. split; [exact Hrun|].
    revert Hst. apply searched_weaken. unfold before. intros a b c. lia.
Qed.

End BestTriple.

(** ** Classifiers *)

Lemma circularityOf_ok (P A : R) :
  circularityOf P A = Ok (4 * PI * A / (orOne P * orOne P)).
Proof.
  apply divide_Ok.
  apply Rmult_integral_contrapositive_currified; apply orOne_neq_0.
Qed.

Lemma Rmax_1_nonzero (x : R) : Rmax 1 x <> 0.
Proof. pose proof (Rmax_l 1 x). lra. Qed.

Lemma classifyRectangle_spec (pts rawClosed : list point) (P A w h : R)
  (color : string) :
  exists c,
    classifyRectangle pts rawClosed P A w h color = Ok c /\
    (exists x y W H,
       shape c = rect x y W H color /\
       ((W = w /\ H = h) \/ (W = Rmin w h /\ H = Rmin w h))) /\
    (0.4 < confidence c -> 0.6 <= A / Rmax 1 (w * h)).
Proof.
  unfold classifyRectangle.
  rewrite divide_Ok by apply Rmax_1_nonzero.
  rewrite circularityOf_ok. cbn [bind]. cbv zeta.
  rewrite divide_Ok by apply orOne_neq_0. cbn [bind].
  assert (Hconf : 0.4 <
      (if (A / Rmax 1 (w * h) <? 0.6) ||
          (4 * PI * A / (orOne P * orOne P) >? 0.9)
       then 0
       else A / Rmax 1 (w * h) * 0.8 +
            (1 - 4 * PI * A / (orOne P * orOne P)) * 0.2) ->
      0.6 <= A / Rmax 1 (w * h)).
  { destruct (_ <? 0.6) eqn:E; cbn [orb]; [lra|].
    intros _. now apply ltb_false in E. }
  destruct (Rabs _ <? 0.2); eexists; (split; [reflexivity|]);
    cbn [shape confidence]; (split; [|exact Hconf]);
    do 4 eexists; (split; [reflexivity|]); auto.
Qed.

Lemma classifyCircle_spec (pts rawClosed : list point) (P A w h : R)
  (closed : bool) (color : string) :
  exists c,
    classifyCircle pts rawClosed P A w h closed color = Ok c /\
    ((shape c = free pts color /\ confidence c = 0) \/
     (exists x y r, shape c = circle x y r color /\ 0 < r)).
Proof.
  unfold classifyCircle.
  destruct (negb closed || (Rmin w h <? 10)) eqn:Egate.
  { eexists. split; [reflexivity|]. now left. }
  apply orb_false_iff in Egate as [_ Hmin]. apply ltb_false in Hmin.
  rewrite circularityOf_ok. cbn [bind]. cbv zeta.
  destruct (fitCircle_ok pts) as (fit & ->). cbn [bind].
  destruct fit as [f|].
  - destruct ((r f >? 6) && (stdRel f <? 0.15)) eqn:Efit.
    + apply andb_true_iff in Efit as [Hr _]. apply gtb_true in Hr.
      eexists. split; [reflexivity|]. right. do 3 eexists.
      split; [reflexivity | lra].
    + eexists. split; [reflexivity|]. right. do 3 eexists.
      split; [reflexivity | lra].
  - eexists. split; [reflexivity|]. right. do 3 eexists.
    split; [reflexivity | lra].
Qed.

Lemma classifyTriangle_spec (pts : list point) (P A : R) (color : string) :
  exists c,
    classifyTriangle pts P A color = Ok c /\
    ((shape c = free pts color /\ confidence c = 0) \/
     (exists vs, shape c = triangle vs color /\ widestTriple pts vs)).
Proof.
  unfold classifyTriangle.
  destruct (countCorners_ok pts 35) as (corners & ->). cbn [bind].
  rewrite circularityOf_ok. cbn [bind]. cbv zeta.
  destruct (_ <? 0.3).
  { eexists. split; [reflexivity|]. now left. }
  destruct (bestTriple_spec pts) as (best & maxSum & -> & Hall & Hbest).
  cbn [bind].
  destruct (Nat.eqb_spec (length best) 3) as [Hlen|Hlen].
  - eexists. split; [reflexivity|]. right. exists best. split; [reflexivity|].
    destruct Hbest as [(-> & _) | (a & b & c & Ht & Hmax)]; [discriminate|].
    exists a, b, c. split; [exact Ht|].
    intros a' b' c' H1 H2. rewrite <- Hmax. apply Hall. auto.
  - eexists. split; [reflexivity|]. now left.
Qed.


(** ** Arbitration *)

Lemma sortBy_head (cs : list ShapeCandidate) :
  cs <> [] ->
  exists best rest, sortBy byConfidence cs = best :: rest /\ firstBest cs best.
Proof.
  induction cs as [|x cs IH]; [congruence|]. intros _.
  destruct cs as [|y cs].
  - exists x, []. split; [reflexivity|].
    exists [], []. repeat split; simpl; intros c [].
  - destruct IH as (b & rest & Hsort & l1 & l2 & Hcs & Hl1 & Hl2); [discriminate|].
    change (sortBy byConfidence (x :: y :: cs))
      with (insertBy byConfidence x (sortBy byConfidence (y :: cs))).
    rewrite Hsort. cbn [insertBy]. unfold byConfidence at 1.
    destruct (_ >? 0) eqn:E.
    + apply gtb_true in E. exists b, (insertBy byConfidence x rest).
      split; [reflexivity|].
      exists (x :: l1), l2. rewrite Hcs. split; [reflexivity|]. split; [|exact Hl2].
      intros c [<-|Hc]; [lra | auto].
    + apply gtb_false in E. exists x, (b :: rest). split; [reflexivity|].
      exists [], (y :: cs). split; [reflexivity|]. split; [intros c []|].
      intros c Hc. rewrite Hcs in Hc.
      apply in_app_or in Hc as [Hc|[<-|Hc]].
      * specialize (Hl1 c Hc). lra.
      * lra.
      * specialize (Hl2 c Hc). lra.
Qed.

Lemma arbitrate_cases (cs : list ShapeCandidate) (pts : list point)
  (color : string) :
  (filter survives cs = [] /\ arbitrate cs pts color = free pts color) \/
  (exists best, firstBest (filter survives cs) best /\
                arbitrate cs pts color = shape best).
Proof.
  unfold arbitrate. destruct (filter survives cs) as [|c l] eqn:E.
  - now left.
  - right. destruct (sortBy_head (c :: l)) as (b & rest & -> & Hb); [discriminate|].
    eauto.
Qed.

Lemma firstBest_In (cs : list ShapeCandidate) (best : ShapeCandidate) :
  firstBest cs best -> In best cs.
Proof.
  intros (l1 & l2 & -> & _). apply in_or_app. right. now left.
Qed.

Lemma firstBest_max (cs : list ShapeCandidate) (best c : ShapeCandidate) :
  firstBest cs best -> In c cs -> confidence c <= confidence best.
Proof.
  intros (l1 & l2 & -> & H1 & H2) Hc.
  apply in_app_or in Hc as [Hc|[<-|Hc]].
  - specialize (H1 c Hc). lra.
  - lra.
  - auto.
Qed.

Lemma survives_true (c : ShapeCandidate) : survives c = true <-> 0.4 < confidence c.
Proof. apply gtb_true. Qed.

(** ** The pipeline *)

(** The two ways out of [recognize]. *)
Lemma recognize_branches (pointsRaw : list point) (color : string) :
  exists rawClosed pts,
    ensureClosed pointsRaw = Ok rawClosed /\
    rdp rawClosed (epsilonOf rawClosed) = Ok pts /\
    (((length pts < 3)%nat /\
      recognize pointsRaw color = Ok (free rawClosed color)) \/
     ((3 <= length pts)%nat /\
      exists cr cc ct,
        Scored pointsRaw rawClosed pts color cr cc ct /\
        recognize pointsRaw color = Ok (arbitrate [cr; cc; ct] pts color))).
Proof.
  unfold recognize.
  destruct (ensureClosed_ok pointsRaw) as (rawClosed & Hrc & _).
  destruct (rdp_spec rawClosed (epsilonOf rawClosed)) as (pts & Hpts & _).
  exists rawClosed, pts. rewrite Hrc. cbn [bind]. cbv zeta.
  fold (epsilonOf rawClosed). rewrite Hpts. cbn [bind].
  split; [reflexivity|]. split; [reflexivity|].
  destruct (Nat.ltb_spec (length pts) 3) as [Hn|Hn]; [left; auto|].
  right. split; [exact Hn|].
  destruct (polygonPerimeter_ok pts) as (P & HP & _).
  destruct (polygonArea_ok pts) as (A & HA & _).
  pose proof (pathClosed_eq pointsRaw) as Hclosed.
  destruct (classifyRectangle_spec pts rawClosed P A
              (bw (bbox rawClosed)) (bh (bbox rawClosed)) color) as (cr & Hcr & _).
  destruct (classifyCircle_spec pts rawClosed P A
              (bw (bbox rawClosed)) (bh (bbox rawClosed))
              (if (length pointsRaw <? 3)%nat then false
               else closingGap pointsRaw
                    <? Rmax 10 (polylineLength pointsRaw * 0.05)) color)
    as (cc & Hcc & _).
  destruct (classifyTriangle_spec pts P A color) as (ct & Hct & _).
  exists cr, cc, ct. split.
  { econstructor; eassumption. }
  rewrite HP, HA, Hclosed. cbn [bind]. rewrite Hcr, Hcc, Hct. cbn [bind].
  fold survives. fold byConfidence. unfold arbitrate.
  destruct (filter survives [cr; cc; ct]) as [|c l] eqn:E; [reflexivity|].
  destruct (sortBy_head (c :: l)) as (b & rest & Hb & _); [discriminate|].
  rewrite Hb. reflexivity.
Qed.

Lemma Scored_unique (pointsRaw rawClosed pts : list point) (color : string)
  (cr cc ct cr' cc' ct' : ShapeCandidate) :
  Scored pointsRaw rawClosed pts color cr cc ct ->
  Scored pointsRaw rawClosed pts color cr' cc' ct' ->
  cr = cr' /\ cc = cc' /\ ct = ct'.
Proof.
  intros [P A closed HP HA Hc H1 H2 H3] [P' A' closed' HP' HA' Hc' H1' H2' H3'].
  rewrite HP in HP'. injection HP' as <-.
  rewrite HA in HA'. injection HA' as <-.
  rewrite Hc in Hc'. injection Hc' as <-.
  rewrite H1 in H1'. rewrite H2 in H2'. rewrite H3 in H3'.
  repeat split; congruence.
Qed.

(** The pipeline, once the closed path and its simplification are known. *)
Lemma recognize_long (pointsRaw rawClosed pts : list point) (color : string) :
  ensureClosed pointsRaw = Ok rawClosed ->
  rdp rawClosed (epsilonOf rawClosed) = Ok pts ->
  (3 <= length pts)%nat ->
  exists cr cc ct,
    Scored pointsRaw rawClosed pts color cr cc ct /\
    recognize pointsRaw color = Ok (arbitrate [cr; cc; ct] pts color).
Proof.
  intros Hrc Hpts Hn.
  destruct (recognize_branches pointsRaw color)
    as (rc & pts' & Hrc' & Hpts' & Hcases).
  rewrite Hrc in Hrc'. injection Hrc' as <-.
  rewrite Hpts in Hpts'. injection Hpts' as <-.
  destruct Hcases as [(Hshort & _) | (_ & H)]; [lia | exact H].
Qed.

Lemma recognize_short (pointsRaw rawClosed pts : list point) (color : string) :
  ensureClosed pointsRaw = Ok rawClosed ->
  rdp rawClosed (epsilonOf rawClosed) = Ok pts ->
  (length pts < 3)%nat ->
  recognize pointsRaw color = Ok (free rawClosed color).
Proof.
  intros Hrc Hpts Hn.
  destruct (recognize_branches pointsRaw color)
    as (rc & pts' & Hrc' & Hpts' & Hcases).
  rewrite Hrc in Hrc'. injection Hrc' as <-.
  rewrite Hpts in Hpts'. injection Hpts' as <-.
  destruct Hcases as [(_ & H) | (Hlong & _)]; [exact H | lia].
Qed.

(** *** The classifiers as parameters *)

Lemma recognize_with (pointsRaw : list point) (color : string) :
  recognize pointsRaw color
  = recognizeWith classifyRectangle classifyCircle classifyTriangle
      pointsRaw color.
Proof. reflexivity. Qed.

(** Before the test of [pts.length] nothing depends on the classifiers. *)
Lemma recognizeWith_short
  (cR : list point -> list point -> R -> R -> R -> R -> string
        -> result ShapeCandidate)
  (cC : list point -> list point -> R -> R -> R -> R -> bool -> string
        -> result ShapeCandidate)
  (cT : list point -> R -> R -> string -> result ShapeCandidate)
  (pointsRaw rawClosed pts : list point) (color : string) :
  ensureClosed pointsRaw = Ok rawClosed ->
  rdp rawClosed (epsilonOf rawClosed) = Ok pts ->
  (length pts < 3)%nat ->
  recognizeWith cR cC cT pointsRaw color = Ok (free rawClosed color).
Proof.
  intros Hrc Hpts Hn. unfold recognizeWith. rewrite Hrc. cbn [bind]. cbv zeta.
  fold (epsilonOf rawClosed). rewrite Hpts. cbn [bind].
  destruct (Nat.ltb_spec (length pts) 3); [reflexivity | lia].
Qed.

(** Behind it, the answer is the arbitration of what the three answer. *)
Lemma recognizeWith_long
  (cR : list point -> list point -> R -> R -> R -> R -> string
        -> result ShapeCandidate)
  (cC : list point -> list point -> R -> R -> R -> R -> bool -> string
        -> result ShapeCandidate)
  (cT : list point -> R -> R -> string -> result ShapeCandidate)
  (pointsRaw rawClosed pts : list point) (color : string)
  (P A : R) (closed : bool) (cr cc ct : ShapeCandidate) :
  ensureClosed pointsRaw = Ok rawClosed ->
  rdp rawClosed (epsilonOf rawClosed) = Ok pts ->
  (3 <= length pts)%nat ->
  polygonPerimeter pts = Ok P ->
  polygonArea pts = Ok A ->
  pathClosed pointsRaw = Ok closed ->
  cR pts rawClosed P A (bw (bbox rawClosed)) (bh (bbox rawClosed)) color
    = Ok cr ->
  cC pts rawClosed P A (bw (bbox rawClosed)) (bh (bbox rawClosed)) closed color
    = Ok cc ->
  cT pts P A color = Ok ct ->
  recognizeWith cR cC cT pointsRaw color = Ok (arbitrate [cr; cc; ct] pts color).
Proof.
  intros Hrc Hpts Hn HP HA Hcl Hcr Hcc Hct.
  unfold recognizeWith. rewrite Hrc. cbn [bind]. cbv zeta.
  fold (epsilonOf rawClosed). rewrite Hpts. cbn [bind].
  destruct (Nat.ltb_spec (length pts) 3); [lia|].
  rewrite HP, HA, Hcl. cbn [bind]. rewrite Hcr, Hcc, Hct. cbn [bind].
  fold survives. fold byConfidence. unfold arbitrate.
  destruct (filter survives [cr; cc; ct]) as [|c l] eqn:E; [reflexivity|].
  destruct (sortBy_head (c :: l)) as (b & rest & Hb & _); [discriminate|].
  rewrite Hb. reflexivity.
Qed.

(** In a list cut at [best], with everything before it strictly below and
    nothing behind it above, [best] is the first of the highest. *)
Lemma firstBest_split (before after : list ShapeCandidate)
  (best : ShapeCandidate) :
  (forall c, In c before -> confidence c < confidence best) ->
  (forall c, In c after -> confidence c <= confidence best) ->
  firstBest (before ++ best :: after) best.
Proof. intros Hb Ha. exists before, after. auto. Qed.

(** C1: when the simplified closed path has at least three points,
    [recognize] scores the rectangle, circle and triangle candidates, drops
    every candidate whose confidence is below 0.4, and answers with the shape
    of a kept candidate of the highest confidence; when none is kept it
    answers with the free shape over the simplified polygon. *)
Theorem recognize_arbitrates (pointsRaw rawClosed pts : list point) (color : string) :
  ensureClosed pointsRaw = Ok rawClosed ->
  rdp rawClosed (epsilonOf rawClosed) = Ok pts ->
  (3 <= length pts)%nat ->
  exists cr cc ct,
    Scored pointsRaw rawClosed pts color cr cc ct /\
    exists kept,
      (forall c, In c kept <-> In c [cr; cc; ct] /\ (confidence c >? 0.4) = true) /\
      (forall c, In c [cr; cc; ct] -> confidence c < 0.4 -> ~ In c kept) /\
      (kept = [] -> recognize pointsRaw color = Ok (free pts color)) /\
      (kept <> [] ->
       exists best,
         In best kept /\
         (forall c, In c kept -> confidence c <= confidence best) /\
         recognize pointsRaw color = Ok (shape best)).
Proof.
  intros Hrc Hpts Hn.
  destruct (recognize_long _ _ _ color Hrc Hpts Hn) as (cr & cc & ct & Hsc & Hrun).
  exists cr, cc, ct. split; [exact Hsc|].
  exists (filter survives [cr; cc; ct]). split; [|split; [|split]].
  - intros c. apply filter_In.
  - intros c _ Hlow Hin. apply filter_In in Hin as [_ Hs].
    apply survives_true in Hs. lra.
  - intros Hnone.
    destruct (arbitrate_cases [cr; cc; ct] pts color)
      as [(_ & Harb) | (best & Hbest & _)].
    + now rewrite Harb in Hrun.
    + apply firstBest_In in Hbest. rewrite Hnone in Hbest. destruct Hbest.
  - intros Hsome.
    destruct (arbitrate_cases [cr; cc; ct] pts color)
      as [(Hnone & _) | (best & Hbest & Harb)]; [congruence|].
    exists best. split; [now apply firstBest_In|]. split.
    + intros c. now apply firstBest_max.
    + now rewrite Harb in Hrun.
Qed.

Lemma firstBest_unique (cs : list ShapeCandidate) (b b' : ShapeCandidate) :
  firstBest cs b -> firstBest cs b' -> b = b'.
Proof.
  intros (l1 & l2 & E & H1 & H2) (l1' & l2' & E' & H1' & H2').
  rewrite E in E'. clear E cs. revert l1' E' H1 H1'.
  induction l1 as [|x l1 IH]; intros [|x' l1'] E' H1 H1'; simpl in E'.
  - congruence.
  - injection E' as -> ->.
    assert (confidence x' < confidence b') by (apply H1'; now left).
    assert (confidence b' <= confidence x').
    { apply H2. apply in_or_app. right. now left. }
    lra.
  - injection E' as -> <-.
    assert (confidence b' < confidence b) by (apply H1; now left).
    assert (confidence b <= confidence b').
    { apply H2'. apply in_or_app. right. now left. }
    lra.
  - injection E' as -> E'. apply (IH l1' E').
    + intros c Hc. apply H1. now right.
    + intros c Hc. apply H1'. now right.
Qed.

(** C10: among the kept candidates, listed in the order rectangle, circle,
    triangle, [recognize] answers with the shape of the first one that has
    the highest confidence: every candidate before it has a strictly smaller
    confidence, every candidate after it has at most the same.  The
    arbitration does not look at how a confidence was computed, so this is
    shown whatever the three classifiers are; [recognize] is the instance
    [recognize_with], for which it is [recognize_first_best]. *)
Theorem recognize_first_wins_ties
  (cR : list point -> list point -> R -> R -> R -> R -> string
        -> result ShapeCandidate)
  (cC : list point -> list point -> R -> R -> R -> R -> bool -> string
        -> result ShapeCandidate)
  (cT : list point -> R -> R -> string -> result ShapeCandidate)
  (pointsRaw rawClosed pts : list point) (color : string)
  (P A : R) (closed : bool)
  (cr cc ct best : ShapeCandidate) (before after : list ShapeCandidate) :
  ensureClosed pointsRaw = Ok rawClosed ->
  rdp rawClosed (epsilonOf rawClosed) = Ok pts ->
  (3 <= length pts)%nat ->
  polygonPerimeter pts = Ok P ->
  polygonArea pts = Ok A ->
  pathClosed pointsRaw = Ok closed ->
  cR pts rawClosed P A (bw (bbox rawClosed)) (bh (bbox rawClosed)) color
    = Ok cr ->
  cC pts rawClosed P A (bw (bbox rawClosed)) (bh (bbox rawClosed)) closed color
    = Ok cc ->
  cT pts P A color = Ok ct ->
  filter (fun c => confidence c >? 0.4) [cr; cc; ct] = before ++ best :: after ->
  (forall c, In c before -> confidence c < confidence best) ->
  (forall c, In c after -> confidence c <= confidence best) ->
  recognizeWith cR cC cT pointsRaw color = Ok (shape best).
Proof.
  intros Hrc Hpts Hn HP HA Hcl Hcr Hcc Hct Hkept Hbefore Hafter.
  rewrite (recognizeWith_long cR cC cT pointsRaw rawClosed pts color
             P A closed cr cc ct) by assumption.
  do 2 f_equal.
  destruct (arbitrate_cases [cr; cc; ct] pts color)
    as [(Hnone & _) | (b & Hb & ->)].
  - fold survives in Hkept. rewrite Hnone in Hkept. now destruct before.
  - f_equal. apply (firstBest_unique (filter survives [cr; cc; ct])).
    + exact Hb.
    + fold survives in Hkept. rewrite Hkept. now apply firstBest_split.
Qed.

(** The same for [recognize] itself. *)
Lemma recognize_first_best (pointsRaw rawClosed pts : list point)
  (color : string) (cr cc ct best : ShapeCandidate)
  (before after : list ShapeCandidate) :
  ensureClosed pointsRaw = Ok rawClosed ->
  rdp rawClosed (epsilonOf rawClosed) = Ok pts ->
  (3 <= length pts)%nat ->
  Scored pointsRaw rawClosed pts color cr cc ct ->
  filter (fun c => confidence c >? 0.4) [cr; cc; ct] = before ++ best :: after ->
  (forall c, In c before -> confidence c < confidence best) ->
  (forall c, In c after -> confidence c <= confidence best) ->
  recognize pointsRaw color = Ok (shape best).
Proof.
  intros Hrc Hpts Hn [P A closed HP HA Hcl Hcr Hcc Hct] Hkept Hbefore Hafter.
  rewrite recognize_with.
  rewrite (recognizeWith_long _ _ _ pointsRaw rawClosed pts color
             P A closed cr cc ct) by assumption.
  do 2 f_equal.
  destruct (arbitrate_cases [cr; cc; ct] pts color)
    as [(Hnone & _) | (b & Hb & ->)].
  - fold survives in Hkept. rewrite Hnone in Hkept. now destruct before.
  - f_equal. apply (firstBest_unique (filter survives [cr; cc; ct])).
    + exact Hb.
    + fold survives in Hkept. rewrite Hkept. now apply firstBest_split.
Qed.

(** ** A loop that ends where it starts *)

(** When the two ends of [points] coincide, the line through them is a
    point and [lineDistance] answers 0 for every vertex. *)
Lemma lineDistance_same_ends (sx sy x y : R) :
  lineDistance sx sy sx sy x y = Ok 0.
Proof.
  unfold lineDistance.
  rewrite divide_Ok by apply orOne_neq_0. f_equal.
  replace ((sy - sy) * x - (sx - sx) * y + sx * sy - sy * sx) with 0 by ring.
  rewrite Rabs_R0. unfold Rdiv. ring.
Qed.

Lemma rdpDistance_same_ends (points : list point) :
  hd (0, 0) points = last points (0, 0) -> rdpDistance points = Ok 0.
Proof.
  intros Hends. unfold rdpDistance.
  destruct (Nat.ltb_spec (length points) 3) as [Hn|Hn]; [reflexivity|].
  destruct (get_first_last points) as [E1 E2].
  { destruct points; [simpl in Hn; lia | discriminate]. }
  rewrite E1, E2, <- Hends. cbn [bind].
  destruct (hd (0, 0) points) as [sx sy].
  destruct (forRange_inv (fun m => m = 0) 1 (length points - 1)
    (fun i maxD =>
      '(x, y) <- get points i ;;
      d <- lineDistance sx sy sx sy x y ;;
      Ok (if d >? maxD then d else maxD)) ) with (s := 0)
    as (m & Hm & ->); [ | reflexivity | exact Hm].
  intros i m Hi ->.
  rewrite (get_in_range points i (0, 0)) by lia. cbn [bind].
  destruct (nth i points (0, 0)) as [x y].
  rewrite lineDistance_same_ends. cbn [bind].
  eexists. split; [reflexivity|]. now destruct (0 >? 0).
Qed.

(** [rdp] keeps only the two ends of a path of three or more points that
    ends where it starts, whatever the tolerance. *)
Lemma rdp_same_ends (points : list point) (epsilon : R) :
  (3 <= length points)%nat -> 0 < epsilon ->
  hd (0, 0) points = last points (0, 0) ->
  rdp points epsilon = Ok [hd (0, 0) points; last points (0, 0)].
Proof.
  intros Hn Heps Hends. rewrite rdp_unfold.
  destruct (Nat.leb_spec (length points) 2); [lia|].
  destruct (get_first_last points) as [E1 E2].
  { destruct points; [simpl in Hn; lia | discriminate]. }
  rewrite E1, E2. cbn [bind].
  rewrite (rdpDistance_same_ends points Hends).
  destruct (hd (0, 0) points) as [sx sy], (last points (0, 0)) as [ex ey].
  destruct (rdpScan_ok points sx sy ex ey Hn) as (maxD & idx & -> & _).
  cbn [bind]. now rewrite (proj2 (ltb_true 0 epsilon) Heps).
Qed.

(** So a stroke whose ends are more than 8 apart, which [ensureClosed]
    closes with a copy of its first point, is never classified. *)
Lemma recognize_far_ends (pointsRaw : list point) (color : string) :
  (2 <= length pointsRaw)%nat -> 8 < closingGap pointsRaw ->
  recognize pointsRaw color
  = Ok (free (pointsRaw ++ [hd (0, 0) pointsRaw]) color).
Proof.
  intros Hn Hgap.
  assert (Hrc : closedPath pointsRaw = pointsRaw ++ [hd (0, 0) pointsRaw]).
  { unfold closedPath. destruct (Nat.ltb_spec (length pointsRaw) 2); [lia|].
    now rewrite (proj2 (leb_false _ _) Hgap). }
  set (rawClosed := pointsRaw ++ [hd (0, 0) pointsRaw]) in *.
  assert (Hlen : (3 <= length rawClosed)%nat).
  { unfold rawClosed. rewrite length_app. simpl. lia. }
  assert (Hends : hd (0, 0) rawClosed = last rawClosed (0, 0)).
  { unfold rawClosed. rewrite last_last.
    destruct pointsRaw; [simpl in Hn; lia | reflexivity]. }
  apply recognize_short
    with (pts := [hd (0, 0) rawClosed; last rawClosed (0, 0)]).
  - rewrite ensureClosed_eq. now rewrite Hrc.
  - apply rdp_same_ends; auto.
    pose proof (Rmax_l 3 (hypot (bw (bbox rawClosed)) (bh (bbox rawClosed)) * 0.01)).
    unfold epsilonOf. lra.
  - simpl. lia.
Qed.

(** ** Bounding box and flat polygons *)

Lemma fold_left_Rmin_le (l : list R) :
  forall a, fold_left Rmin l a <= a /\ forall x, In x l -> fold_left Rmin l a <= x.
Proof.
  induction l as [|y l IH]; intros a; simpl.
  - split; [lra | intros x []].
  - destruct (IH (Rmin a y)) as [H1 H2].
    pose proof (Rmin_l a y). pose proof (Rmin_r a y).
    split; [lra|]. intros x [<-|Hx]; [lra | auto].
Qed.

Lemma fold_left_Rmax_ge (l : list R) :
  forall a, a <= fold_left Rmax l a /\ forall x, In x l -> x <= fold_left Rmax l a.
Proof.
  induction l as [|y l IH]; intros a; simpl.
  - split; [lra | intros x []].
  - destruct (IH (Rmax a y)) as [H1 H2].
    pose proof (Rmax_l a y). pose proof (Rmax_r a y).
    split; [lra|]. intros x [<-|Hx]; [lra | auto].
Qed.

Lemma arrayMin_le (xs : list R) (x : R) : In x xs -> arrayMin xs <= x.
Proof.
  destruct xs as [|a l]; simpl; [intros []|].
  destruct (fold_left_Rmin_le l a) as [H1 H2]. intros [<-|Hx]; auto.
Qed.

Lemma arrayMax_ge (xs : list R) (x : R) : In x xs -> x <= arrayMax xs.
Proof.
  destruct xs as [|a l]; simpl; [intros []|].
  destruct (fold_left_Rmax_ge l a) as [H1 H2]. intros [<-|Hx]; auto.
Qed.

Lemma bbox_spans (points : list point) (p : point) :
  In p points ->
  minX (bbox points) <= fst p <= maxX (bbox points) /\
  minY (bbox points) <= snd p <= maxY (bbox points).
Proof.
  intros Hp. unfold bbox. cbn [minX maxX minY maxY].
  pose proof (in_map fst _ _ Hp). pose proof (in_map snd _ _ Hp).
  auto using arrayMin_le, arrayMax_ge.
Qed.

Lemma bbox_width_nonneg (points : list point) : 0 <= bw (bbox points).
Proof.
  destruct points as [|p l]; [simpl; lra|].
  destruct (bbox_spans (p :: l) p (or_introl eq_refl)) as [H _].
  unfold bbox in *. cbn [bw minX maxX] in *. lra.
Qed.

Lemma bbox_height_nonneg (points : list point) : 0 <= bh (bbox points).
Proof.
  destruct points as [|p l]; [simpl; lra|].
  destruct (bbox_spans (p :: l) p (or_introl eq_refl)) as [_ H].
  unfold bbox in *. cbn [bh minY maxY] in *. lra.
Qed.

Lemma bbox_width_zero (points : list point) (p : point) :
  bw (bbox points) = 0 -> In p points -> fst p = minX (bbox points).
Proof.
  intros Hw Hp. destruct (bbox_spans points p Hp) as [H _].
  unfold bbox in *. cbn [bw minX maxX] in *. lra.
Qed.

Lemma bbox_height_zero (points : list point) (p : point) :
  bh (bbox points) = 0 -> In p points -> snd p = minY (bbox points).
Proof.
  intros Hh Hp. destruct (bbox_spans points p Hp) as [_ H].
  unfold bbox in *. cbn [bh minY maxY] in *. lra.
Qed.

(** A polygon whose points share one coordinate encloses nothing: the
    shoelace sum telescopes. *)
Lemma polygonArea_flat (points : list point) (c : R) :
  (forall p, In p points -> fst p = c) \/ (forall p, In p points -> snd p = c) ->
  polygonArea points = Ok 0.
Proof.
  intros Hflat. unfold polygonArea.
  set (n := length points).
  set (pt := fun i => nth i points (0, 0)).
  destruct (forRange_counter_inv
    (fun i '(a, j) =>
       ((i = 0 /\ j = n - 1) \/ (0 < i /\ j = i - 1))%nat /\
       ((forall p, In p points -> fst p = c) ->
          a = c * (snd (pt j) - snd (pt (n - 1)%nat))) /\
       ((forall p, In p points -> snd p = c) ->
          a = c * (fst (pt (n - 1)%nat) - fst (pt j))))
    0 n
    (fun i '(a, j) =>
      '(xi, yi) <- get points i ;;
      '(xj, yj) <- get points j ;;
      Ok (a + (xj * yi - xi * yj), i))
    (0, (n - 1)%nat)) as ([a j] & Hrun & Hj & Hx & Hy).
  - lia.
  - intros i [a j] Hi (Hj & Hx & Hy).
    assert (Hjn : (j < n)%nat) by lia.
    get_step points i. get_step points j. fold (pt i) (pt j).
    assert (Hi_in : In (pt i) points) by (apply nth_In; fold n; lia).
    assert (Hj_in : In (pt j) points) by (apply nth_In; fold n; lia).
    destruct (pt i) as [xi yi] eqn:Ei, (pt j) as [xj yj] eqn:Ej.
    eexists. split; [reflexivity|]. split; [right; lia|]. split.
    + intros H. rewrite (Hx H). rewrite Ei.
      apply H in Hi_in, Hj_in. cbn [fst snd] in *. subst. ring.
    + intros H. rewrite (Hy H). rewrite Ei.
      apply H in Hi_in, Hj_in. cbn [fst snd] in *. subst. ring.
  - split; [left; lia|]. split; intros _; ring.
  - fold n. rewrite Hrun. cbn [bind].
    assert (Ha : a = 0).
    { assert (Hjn : j = (n - 1)%nat) by lia. subst j.
      destruct Hflat as [H|H]; [rewrite (Hx H) | rewrite (Hy H)]; ring. }
    subst a. rewrite Rabs_R0. f_equal. lra.
Qed.

(** ** Shape invariants *)

Lemma rectangular_area_positive (A w h : R) :
  0.6 <= A / Rmax 1 (w * h) -> 0 < A.
Proof.
  intros H. pose proof (Rmax_l 1 (w * h)) as Hm.
  assert (Hpos : 0 < / Rmax 1 (w * h)) by (apply Rinv_0_lt_compat; lra).
  unfold Rdiv in H. nra.
Qed.

Lemma Scored_valid (pointsRaw rawClosed pts : list point) (color : string)
  (cr cc ct c : ShapeCandidate) :
  Scored pointsRaw rawClosed pts color cr cc ct ->
  (forall p, In p pts -> In p rawClosed) ->
  In c [cr; cc; ct] -> 0.4 < confidence c -> shapeValid (shape c).
Proof.
  intros [P A closed HP HA Hcl Hr Hc Ht] Hsub Hin Hconf.
  destruct Hin as [<-|[<-|[<-|[]]]].
  - destruct (classifyRectangle_spec pts rawClosed P A
                (bw (bbox rawClosed)) (bh (bbox rawClosed)) color)
      as (c0 & Hc0 & (x & y & W & H & Hshape & Hdims) & Hrect).
    rewrite Hr in Hc0. injection Hc0 as <-.
    rewrite Hshape. cbn [shapeValid].
    apply Hrect, rectangular_area_positive in Hconf.
    pose proof (bbox_width_nonneg rawClosed) as Hw.
    pose proof (bbox_height_nonneg rawClosed) as Hh.
    assert (Hw0 : bw (bbox rawClosed) <> 0).
    { intros Hz.
      rewrite (polygonArea_flat pts (minX (bbox rawClosed))) in HA.
      - injection HA as <-. lra.
      - left. intros p Hp. apply bbox_width_zero; auto. }
    assert (Hh0 : bh (bbox rawClosed) <> 0).
    { intros Hz.
      rewrite (polygonArea_flat pts (minY (bbox rawClosed))) in HA.
      - injection HA as <-. lra.
      - right. intros p Hp. apply bbox_height_zero; auto. }
    destruct Hdims as [(-> & ->) | (-> & ->)].
    + lra.
    + unfold Rmin. destruct (Rle_dec _ _); lra.
  - destruct (classifyCircle_spec pts rawClosed P A
                (bw (bbox rawClosed)) (bh (bbox rawClosed)) closed color)
      as (c0 & Hc0 & Hcases).
    rewrite Hc in Hc0. injection Hc0 as <-.
    destruct Hcases as [(_ & Hzero) | (x & y & r & -> & Hr0)]; [lra | exact Hr0].
  - destruct (classifyTriangle_spec pts P A color) as (c0 & Hc0 & Hcases).
    rewrite Ht in Hc0. injection Hc0 as <-.
    destruct Hcases as [(_ & Hzero) | (vs & -> & _)]; [lra | exact I].
Qed.

(** C8: on a non-empty stroke [recognize] answers with one shape; a circle
    has a positive radius, a rectangle a positive width and height, a free
    shape at least one point. *)
Theorem recognize_shape_valid (pointsRaw : list point) (color : string) :
  pointsRaw <> [] ->
  exists s, recognize pointsRaw color = Ok s /\ shapeValid s.
Proof.
  intros Hne.
  destruct (recognize_branches pointsRaw color)
    as (rawClosed & pts & Hrc & Hpts & Hcases).
  destruct Hcases as [(Hshort & Hrun) | (Hlong & cr & cc & ct & Hsc & Hrun)];
    eexists; (split; [exact Hrun|]).
  - cbn [shapeValid].
    destruct (ensureClosed_ok pointsRaw) as (rc & Hrc' & Hlen & _).
    rewrite Hrc in Hrc'. injection Hrc' as <-.
    destruct pointsRaw; [congruence | simpl in Hlen; lia].
  - destruct (arbitrate_cases [cr; cc; ct] pts color)
      as [(_ & ->) | (best & Hbest & ->)].
    + cbn [shapeValid]. lia.
    + apply firstBest_In, filter_In in Hbest as [Hin Hs].
      apply survives_true in Hs.
      apply (Scored_valid _ _ _ _ _ _ _ _ Hsc); auto.
      intros p. apply Subseq_In.
      destruct (rdp_spec rawClosed (epsilonOf rawClosed)) as (out & Hout & [H _ _ _ _]).
      rewrite Hpts in Hout. now injection Hout as <-.
Qed.

Lemma recognize_ok (pointsRaw : list point) (color : string) :
  exists s, recognize pointsRaw color = Ok s.
Proof.
  destruct (recognize_branches pointsRaw color)
    as (rawClosed & pts & _ & _ & Hcases).
  destruct Hcases as [(_ & Hrun) | (_ & cr & cc & ct & _ & Hrun)];
    eauto.
Qed.

(** Without the engine's limit: on a non-empty stroke [recognize] answers
    with a shape and raises nothing: no [TypeError], no division by zero,
    and the recursion of [rdp] ends, on any array, because both recursive
    calls are on strictly shorter slices. *)
Lemma recognize_total (pointsRaw : list point) (color : string) :
  pointsRaw <> [] ->
  (exists s, recognize pointsRaw color = Ok s) /\
  (forall points epsilon, exists out, rdp points epsilon = Ok out) /\
  (forall points sx sy ex ey maxD idx,
     (3 <= length points)%nat ->
     rdpScan points sx sy ex ey = Ok (maxD, idx) ->
     (length (slice 0 (Z.to_nat (idx + 1)) points) < length points)%nat /\
     (length (sliceFrom (Z.to_nat idx) points) < length points)%nat).
Proof.
  intros _. split; [|split].
  - apply recognize_ok.
  - intros points epsilon.
    destruct (rdp_spec points epsilon) as (out & Hout & _). eauto.
  - apply rdp_slices_shorter.
Qed.

(** ** The engine's limit *)

Lemma length_closedPath_ge (points : list point) :
  (length points <= length (closedPath points))%nat.
Proof.
  unfold closedPath.
  destruct (length points <? 2)%nat; [lia|].
  destruct (closingGap points <=? 8); [lia|].
  rewrite length_app. simpl. lia.
Qed.

(** [bbox] raises exactly when the array is longer than the limit, and is
    the [bbox] above otherwise. *)
Lemma Engine_bbox_eq (maxArguments : nat) (points : list point) :
  Engine.bbox maxArguments points
  = if (maxArguments <? length points)%nat then Err RangeError
    else Ok (bbox points).
Proof.
  unfold Engine.bbox, Engine.spreadInto. rewrite !length_map.
  destruct (maxArguments <? length points)%nat; reflexivity.
Qed.

Lemma classifyRectangle_within_limit (maxArguments : nat)
  (pts rawClosed : list point) (P A w h : R) (color : string) :
  (length rawClosed <= maxArguments)%nat ->
  Engine.classifyRectangle maxArguments pts rawClosed P A w h color
  = classifyRectangle pts rawClosed P A w h color.
Proof.
  intros Hn. unfold Engine.classifyRectangle, classifyRectangle.
  rewrite Engine_bbox_eq.
  destruct (Nat.ltb_spec maxArguments (length rawClosed)); [lia | reflexivity].
Qed.

Lemma classifyCircle_within_limit (maxArguments : nat)
  (pts rawClosed : list point) (P A w h : R) (closed : bool) (color : string) :
  (length rawClosed <= maxArguments)%nat ->
  Engine.classifyCircle maxArguments pts rawClosed P A w h closed color
  = classifyCircle pts rawClosed P A w h closed color.
Proof.
  intros Hn. unfold Engine.classifyCircle, classifyCircle.
  rewrite Engine_bbox_eq.
  destruct (Nat.ltb_spec maxArguments (length rawClosed)); [lia | reflexivity].
Qed.

(** Up to the limit, [recognize] with the limit is [recognize]. *)
Lemma recognize_within_limit (maxArguments : nat) (pointsRaw : list point)
  (color : string) :
  (length (closedPath pointsRaw) <= maxArguments)%nat ->
  Engine.recognize maxArguments pointsRaw color = recognize pointsRaw color.
Proof.
  intros Hn. unfold Engine.recognize, recognize.
  rewrite ensureClosed_eq. cbn [bind]. rewrite Engine_bbox_eq.
  destruct (Nat.ltb_spec maxArguments (length (closedPath pointsRaw))); [lia|].
  cbn [bind]. cbv zeta.
  destruct (rdp _ _) as [pts|]; cbn [bind]; [|reflexivity].
  destruct (length pts <? 3)%nat; [reflexivity|].
  destruct (polygonPerimeter pts) as [P|]; cbn [bind]; [|reflexivity].
  destruct (polygonArea pts) as [A|]; cbn [bind]; [|reflexivity].
  destruct (pathClosed pointsRaw) as [closed|]; cbn [bind]; [|reflexivity].
  now rewrite classifyRectangle_within_limit, classifyCircle_within_limit.
Qed.

(** C2 fails on a long stroke: whatever the most arguments are that the
    engine passes to one call, [recognize] raises a [RangeError] on every
    stroke of more points, because [bbox] spreads the coordinates of the
    closed path into [Math.min] before anything else is computed. *)
Theorem recognize_raises_on_long_stroke (maxArguments : nat)
  (pointsRaw : list point) (color : string) :
  (maxArguments < length pointsRaw)%nat ->
  Engine.recognize maxArguments pointsRaw color = Err RangeError.
Proof.
  intros Hn. unfold Engine.recognize.
  rewrite ensureClosed_eq. cbn [bind]. rewrite Engine_bbox_eq.
  pose proof (length_closedPath_ge pointsRaw).
  destruct (Nat.ltb_spec maxArguments (length (closedPath pointsRaw)));
    [reflexivity | lia].
Qed.

(** [recognize] on the empty stroke, whatever [bbox] makes of it. *)
Lemma recognize_nil (color : string) : recognize [] color = Ok (free [] color).
Proof. reflexivity. Qed.

(** C3: when the closed path has fewer than three points, [recognize]
    answers with the free shape over that closed path, and every point of
    the answer is a point of the stroke (nothing is computed that could be
    [NaN]).  No classifier runs: the answer is the same whatever the three
    classifiers are, also when each of them would raise an error the moment
    it is called. *)
Theorem recognize_degenerate (pointsRaw rawClosed : list point) (color : string) :
  ensureClosed pointsRaw = Ok rawClosed ->
  (length rawClosed < 3)%nat ->
  recognize pointsRaw color = Ok (free rawClosed color) /\
  (forall cR cC cT,
     recognizeWith cR cC cT pointsRaw color = Ok (free rawClosed color)) /\
  recognizeWith (fun _ _ _ _ _ _ _ => raising) (fun _ _ _ _ _ _ _ _ => raising)
    (fun _ _ _ _ => raising) pointsRaw color = Ok (free rawClosed color) /\
  (forall p, In p rawClosed -> In p pointsRaw).
Proof.
  intros Hrc Hn.
  assert (Hpts : rdp rawClosed (epsilonOf rawClosed) = Ok rawClosed).
  { rewrite rdp_unfold.
    destruct (Nat.leb_spec (length rawClosed) 2); [reflexivity | lia]. }
  assert (Hany : forall cR cC cT,
            recognizeWith cR cC cT pointsRaw color = Ok (free rawClosed color)).
  { intros cR cC cT.
    now apply (recognizeWith_short cR cC cT pointsRaw rawClosed rawClosed). }
  split; [rewrite recognize_with; apply Hany|].
  split; [exact Hany|]. split; [apply Hany|].
  destruct (ensureClosed_ok pointsRaw) as (rc & Hrc' & _ & Hin).
  rewrite Hrc in Hrc'. now injection Hrc' as <-.
Qed.

(** ** The circle fit against its description *)

Lemma fold_left_sum {A : Type} (f : A -> R) (l : list A) :
  forall a, fold_left (fun s x => s + f x) l a = a + fold_right Rplus 0 (map f l).
Proof.
  induction l as [|x l IH]; intros a; simpl; [lra|]. rewrite IH. lra.
Qed.

Lemma sum_nonneg_zero (l : list R) :
  (forall x, In x l -> 0 <= x) -> fold_right Rplus 0 l = 0 ->
  forall x, In x l -> x = 0.
Proof.
  induction l as [|y l IH]; intros Hpos Hsum x; [intros []|].
  simpl in Hsum.
  assert (Hy : 0 <= y) by (apply Hpos; now left).
  assert (Hl : 0 <= fold_right Rplus 0 l).
  { clear -Hpos. induction l as [|z l IH]; simpl; [lra|].
    assert (0 <= z) by (apply Hpos; right; now left).
    assert (0 <= fold_right Rplus 0 l).
    { apply IH. intros x [<-|Hx]; apply Hpos; [now left | right; now right]. }
    lra. }
  intros [<-|Hx]; [lra|].
  apply IH; auto; [|lra]. intros z Hz. apply Hpos. now right.
Qed.

Lemma sum_constant (l : list R) (c : R) :
  (forall x, In x l -> x = c) -> fold_right Rplus 0 l = INR (length l) * c.
Proof.
  induction l as [|y l IH]; intros H.
  - simpl. lra.
  - cbn [fold_right length]. rewrite S_INR, IH.
    + rewrite (H y) by now left. lra.
    + intros x Hx. apply H. now right.
Qed.

Lemma mean_constant (l : list R) (c : R) :
  l <> [] -> (forall x, In x l -> x = c) -> mean l = c.
Proof.
  intros Hne H. unfold mean. rewrite (sum_constant l c H). field.
  apply not_0_INR. destruct l; [congruence | simpl; lia].
Qed.

Lemma fitMoments_constant (points : list point) (mx my : R) :
  (forall p, In p points -> p = (mx, my)) ->
  fitMoments mx my points = mkSums 0 0 0 0 0 0 0.
Proof.
  unfold fitMoments. generalize (mkSums 0 0 0 0 0 0 0).
  induction points as [|p l IH]; intros [a b c d e f g] H; simpl; [reflexivity|].
  rewrite (H p) by now left. cbn [Suu Suv Svv Suuu Suvv Svvv Suuv].
  replace (a + (mx - mx) * (mx - mx)) with a by ring.
  replace (b + (mx - mx) * (my - my)) with b by ring.
  replace (c + (my - my) * (my - my)) with c by ring.
  replace (d + (mx - mx) * (mx - mx) * (mx - mx)) with d by ring.
  replace (e + (mx - mx) * (my - my) * (my - my)) with e by ring.
  replace (f + (my - my) * (my - my) * (my - my)) with f by ring.
  replace (g + (mx - mx) * (mx - mx) * (my - my)) with g by ring.
  apply IH. intros q Hq. apply H. now right.
Qed.

Lemma radii_map (cx cy : R) (points : list point) :
  map (fun '(x, y) => hypot (x - cx) (y - cy)) points = radii (cx, cy) points.
Proof.
  unfold radii. apply map_ext. intros [x y]. reflexivity.
Qed.

Lemma sum_mean {A : Type} (f : A -> R) (l : list A) :
  fold_left (fun s x => s + f x) l 0 / INR (length l) = mean (map f l).
Proof.
  unfold mean. rewrite fold_left_sum, length_map. f_equal. lra.
Qed.

Lemma fitCircle_eq (points : list point) :
  let ds := radii (fitCenter points) points in
  fitCircle points =
  Ok (if (length points <? 6)%nat then None
      else if Rabs (normalDen points) <? 1e-6 then None
      else Some (mkFit (fst (fitCenter points)) (snd (fitCenter points)) (mean ds)
              (sqrt (mean (map (fun v => (v - mean ds) * (v - mean ds)) ds))
               / orOne (mean ds)))).
Proof.
  intros ds. unfold fitCircle.
  destruct (length points <? 6)%nat eqn:Hn; [reflexivity|].
  pose proof (INR_length_nonzero points Hn) as Hnz.
  rewrite !divide_Ok by exact Hnz. cbn [bind]. cbv zeta.
  rewrite (sum_mean (@fst R R) points), (sum_mean (@snd R R) points).
  fold (normalDen points).
  destruct (Rabs (normalDen points) <? 1e-6) eqn:Hden; [reflexivity|].
  apply fitCircle_den_nonzero in Hden. unfold normalDen in Hden.
  rewrite !divide_Ok by exact Hden. cbn [bind].
  rewrite radii_map. change (radii _ points) with ds.
  assert (Hlen : length points = length ds) by (symmetry; apply length_map).
  rewrite Hlen in Hnz |- *.
  rewrite (divide_Ok _ (INR _)) by exact Hnz. cbn [bind].
  rewrite (divide_Ok _ (INR _)) by exact Hnz. cbn [bind].
  rewrite divide_Ok by apply orOne_neq_0. cbn [bind].
  rewrite (sum_mean (fun v => v) ds), map_id.
  rewrite (sum_mean (fun v => (v - mean ds) * (v - mean ds)) ds).
  reflexivity.
Qed.

Lemma euclid_zero (p q : point) : euclid p q = 0 -> p = q.
Proof.
  rewrite euclid_hypot. intros H. apply hypot_zero in H as [Hx Hy].
  destruct p, q. cbn [fst snd] in *. f_equal; lra.
Qed.

(** Points that determine a circle are not all at its centre. *)
Lemma radii_mean_nonzero (points : list point) :
  points <> [] -> normalDen points <> 0 ->
  mean (radii (fitCenter points) points) <> 0.
Proof.
  intros Hne Hden Hmean. apply Hden. clear Hden.
  set (c := fitCenter points) in *.
  assert (Hn : INR (length (radii c points)) <> 0).
  { unfold radii. rewrite length_map. apply not_0_INR.
    destruct points; [congruence | simpl; lia]. }
  assert (Hsum : fold_right Rplus 0 (radii c points) = 0).
  { unfold mean in Hmean.
    apply (f_equal (fun x => x * INR (length (radii c points)))) in Hmean.
    field_simplify in Hmean; [lra | exact Hn]. }
  assert (Hall : forall p, In p points -> p = c).
  { intros p Hp. apply euclid_zero.
    apply (sum_nonneg_zero (radii c points)); [|exact Hsum|].
    - intros x Hx. apply in_map_iff in Hx as (q & <- & _). apply sqrt_pos.
    - unfold radii. apply (in_map (fun q => euclid q c)), Hp. }
  unfold normalDen.
  rewrite (mean_constant (map fst points) (fst c)),
          (mean_constant (map snd points) (snd c)).
  - rewrite fitMoments_constant; [unfold fitDen; simpl; ring|].
    intros p Hp. rewrite (Hall p Hp). now destruct c.
  - destruct points; [congruence | discriminate].
  - intros x Hx. apply in_map_iff in Hx as (q & <- & Hq). now rewrite (Hall q Hq).
  - destruct points; [congruence | discriminate].
  - intros x Hx. apply in_map_iff in Hx as (q & <- & Hq). now rewrite (Hall q Hq).
Qed.

(** In exact arithmetic [fitCircle] answers [null] exactly when it is given
    fewer than six points or the exact denominator of the normal equations
    is below [1e-6] in absolute value; otherwise it answers with a centre,
    with the mean of the distances of the points to that centre as radius
    [r], and with the standard deviation of those distances divided by [r]
    as [stdRel]. *)
Lemma fitCircle_exact_spec (points : list point) :
  (fitCircle points = Ok None <->
     (length points < 6)%nat \/ Rabs (normalDen points) < 1e-6) /\
  (~ ((length points < 6)%nat \/ Rabs (normalDen points) < 1e-6) ->
   exists f,
     fitCircle points = Ok (Some f) /\
     r f = mean (radii (cx f, cy f) points) /\
     stdRel f = stddev (radii (cx f, cy f) points) / r f).
Proof.
  rewrite fitCircle_eq.
  destruct (Nat.ltb_spec (length points) 6) as [Hn|Hn].
  { split; [split; auto | intros H; exfalso; auto]. }
  destruct (Rabs (normalDen points) <? 1e-6) eqn:Hden.
  { apply ltb_true in Hden. split; [split; auto | intros H; exfalso; auto]. }
  split.
  - split; [discriminate|]. apply ltb_false in Hden. intros [H|H]; [lia | lra].
  - intros _. eexists. split; [reflexivity|]. cbn [cx cy r stdRel].
    rewrite <- surjective_pairing. split; [reflexivity|].
    unfold stddev. rewrite orOne_id; [reflexivity|].
    apply radii_mean_nonzero.
    + destruct points; [simpl in Hn; lia | discriminate].
    + now apply fitCircle_den_nonzero.
Qed.

(** ** The circle fit in binary64 *)

Section Binary64Fit.

Import PrimFloat.

Variable hypot : float -> float -> float.

Lemma fold_left_map_sum (g : float -> float) (xs : list float) (a : float) :
  fold_left add (map g xs) a = fold_left (fun s v => (s + g v)%float) xs a.
Proof.
  revert a. induction xs as [|x xs IH]; intros a; [reflexivity|].
  cbn [map fold_left]. apply IH.
Qed.

(** [fitCircle] by its two tests. *)
Lemma fitCircle_binary64_eq (points : list (float * float)) :
  Binary64.fitCircle hypot points
  = if (length points <? 6)%nat then None
    else if (abs (Binary64.normalDen points) <? 1e-6)%float then None
    else
      let n := Binary64.ofNat (length points) in
      let meanX := (fold_left (fun s p => s + fst p) points 0 / n)%float in
      let meanY := (fold_left (fun s p => s + snd p) points 0 / n)%float in
      let S := Binary64.fitMoments meanX meanY points in
      let den := Binary64.fitDen S in
      let cx :=
        (meanX + (Binary64.Svv S * (Binary64.Suuu S + Binary64.Suvv S)
                  - Binary64.Suv S * (Binary64.Svvv S + Binary64.Suuv S))
                 / den)%float in
      let cy :=
        (meanY + (Binary64.Suu S * (Binary64.Svvv S + Binary64.Suuv S)
                  - Binary64.Suv S * (Binary64.Suuu S + Binary64.Suvv S))
                 / den)%float in
      let ds := map (fun '(x, y) => hypot (x - cx) (y - cy))%float points in
      Some (Binary64.mkFit cx cy (Binary64.average ds)
              (Binary64.deviation ds
               / Binary64.orOne (Binary64.average ds))%float).
Proof.
  unfold Binary64.fitCircle, Binary64.normalDen.
  destruct (length points <? 6)%nat; [reflexivity|].
  destruct (abs _ <? _)%float; [reflexivity|].
  cbv zeta. unfold Binary64.deviation, Binary64.average.
  rewrite fold_left_map_sum, !length_map. reflexivity.
Qed.


(** The six points [K6] lie on one line, and the denominator computed for
    them is [2 ^ -19], about [1.9e-6]: [fitCircle] answers with a fit. *)
Lemma K6_den : Binary64.normalDen Binary64.K6 = 0x1p-19%float.
Proof. vm_compute. reflexivity. Qed.

Lemma K6_fit : Binary64.fitCircle hypot Binary64.K6 <> None.
Proof.
  rewrite fitCircle_binary64_eq, K6_den. vm_compute. discriminate.
Qed.

End Binary64Fit.

(** * Uniform scaling *)

(** Two loops that step in lockstep through related states. *)
Lemma foldM_sim {A St St' : Type} (Rel : St -> St' -> Prop)
  (body : A -> St -> result St) (body' : A -> St' -> result St') (xs : list A) :
  (forall x s s' t, In x xs -> Rel s s' -> body x s = Ok t ->
                    exists t', body' x s' = Ok t' /\ Rel t t') ->
  forall s s' t, Rel s s' -> foldM body xs s = Ok t ->
                 exists t', foldM body' xs s' = Ok t' /\ Rel t t'.
Proof.
  induction xs as [|x xs IH]; intros Hbody s s' t Hrel; simpl.
  - intros [= <-]. eauto.
  - intros H. apply bind_Ok_inv in H as (s1 & H1 & H2).
    destruct (Hbody x s s' s1 (or_introl eq_refl) Hrel H1) as (s1' & -> & Hrel1).
    simpl. eapply IH; eauto. intros y u u' v Hy. apply Hbody. now right.
Qed.

Lemma forRange_sim {St St' : Type} (Rel : St -> St' -> Prop) (a b : nat)
  (body : nat -> St -> result St) (body' : nat -> St' -> result St') :
  (forall i s s' t, (a <= i < b)%nat -> Rel s s' -> body i s = Ok t ->
                    exists t', body' i s' = Ok t' /\ Rel t t') ->
  forall s s' t, Rel s s' -> forRange a b s body = Ok t ->
                 exists t', forRange a b s' body' = Ok t' /\ Rel t t'.
Proof.
  intros Hbody. unfold forRange. apply foldM_sim.
  intros i s s' t Hi. apply Hbody. apply in_seq in Hi. lia.
Qed.

Section Scaling.

Variable k : R.
Hypothesis k_pos : 0 < k.

Lemma length_scalePath (points : list point) :
  length (scalePath k points) = length points.
Proof. apply length_map. Qed.

Lemma get_scalePath (points : list point) (i : nat) (p : point) :
  get points i = Ok p -> get (scalePath k points) i = Ok (scalePoint k p).
Proof.
  intros H. apply get_Ok in H. apply get_Ok. unfold scalePath.
  now rewrite nth_error_map, H.
Qed.


Lemma hypot_scale_diff (a b c d : R) :
  hypot (k * a - k * b) (k * c - k * d) = k * hypot (a - b) (c - d).
Proof.
  rewrite <- hypot_scale by lra. f_equal; ring.
Qed.

Lemma Rmin_scale (a b : R) : Rmin (k * a) (k * b) = k * Rmin a b.
Proof. unfold Rmin. destruct (Rle_dec _ _), (Rle_dec _ _); nra. Qed.

Lemma Rmax_scale (a b : R) : Rmax (k * a) (k * b) = k * Rmax a b.
Proof. unfold Rmax. destruct (Rle_dec _ _), (Rle_dec _ _); nra. Qed.

Lemma arrayMin_scale (xs : list R) : arrayMin (map (Rmult k) xs) = k * arrayMin xs.
Proof.
  destruct xs as [|x xs]; simpl; [ring|]. revert x.
  induction xs as [|y xs IH]; intros x; simpl; [reflexivity|].
  now rewrite Rmin_scale, IH.
Qed.

Lemma arrayMax_scale (xs : list R) : arrayMax (map (Rmult k) xs) = k * arrayMax xs.
Proof.
  destruct xs as [|x xs]; simpl; [ring|]. revert x.
  induction xs as [|y xs IH]; intros x; simpl; [reflexivity|].
  now rewrite Rmax_scale, IH.
Qed.

Lemma bbox_scale (points : list point) :
  bbox (scalePath k points) =
  let b := bbox points in
  mkBBox (k * minX b) (k * minY b) (k * maxX b) (k * maxY b)
         (k * bw b) (k * bh b).
Proof.
  unfold bbox, scalePath. cbv zeta. cbn [minX minY maxX maxY bw bh].
  rewrite !map_map. cbn [scalePoint fst snd].
  rewrite <- (map_map fst (Rmult k)), <- (map_map snd (Rmult k)).
  rewrite !arrayMin_scale, !arrayMax_scale. f_equal; ring.
Qed.





Lemma lineDistance_scale (sx sy ex ey x y d : R) :
  lineDistance sx sy ex ey x y = Ok d ->
  lineDistance (k * sx) (k * sy) (k * ex) (k * ey) (k * x) (k * y) = Ok (k * d).
Proof.
  unfold lineDistance. intros H. apply divide_Ok_inv in H as [_ ->].
  rewrite hypot_scale_diff.
  rewrite divide_Ok by apply orOne_neq_0. f_equal.
  replace ((k * ey - k * sy) * (k * x) - (k * ex - k * sx) * (k * y)
           + k * ex * (k * sy) - k * ey * (k * sx))
    with (k * k * ((ey - sy) * x - (ex - sx) * y + ex * sy - ey * sx)) by ring.
  rewrite Rabs_mult, (Rabs_pos_eq (k * k)) by nra.
  destruct (Req_dec_T (hypot (ey - sy) (ex - sx)) 0) as [Hz|Hnz].
  - rewrite Hz, Rmult_0_r, orOne_0.
    apply hypot_zero in Hz as [Hy Hx].
    replace ((ey - sy) * x - (ex - sx) * y + ex * sy - ey * sx) with 0 by nra.
    rewrite Rabs_R0. field.
  - rewrite !orOne_id by nra. field. split; [exact Hnz | lra].
Qed.

Lemma gtb_scale (a b : R) : (k * a >? k * b) = (a >? b).
Proof.
  destruct (a >? b) eqn:E.
  - apply gtb_true in E. apply gtb_true. nra.
  - apply gtb_false in E. apply gtb_false. nra.
Qed.

Lemma ltb_scale (a b : R) : (k * a <? k * b) = (a <? b).
Proof. apply gtb_scale. Qed.

Lemma rdpDistance_scale (points : list point) (d : R) :
  rdpDistance points = Ok d ->
  rdpDistance (scalePath k points) = Ok (k * d).
Proof.
  unfold rdpDistance. rewrite length_scalePath.
  destruct (length points <? 3)%nat.
  { intros [= <-]. f_equal. ring. }
  intros H.
  apply bind_Ok_inv in H as ([sx sy] & Hs & H).
  apply bind_Ok_inv in H as ([ex ey] & He & H).
  rewrite (get_scalePath _ _ _ Hs), (get_scalePath _ _ _ He).
  cbn [bind scalePoint fst snd].
  destruct (forRange_sim (fun m m' => m' = k * m) 1 (length points - 1)
    (fun i maxD =>
      '(x, y) <- get points i ;;
      d <- lineDistance sx sy ex ey x y ;;
      Ok (if d >? maxD then d else maxD))
    (fun i maxD =>
      '(x, y) <- get (scalePath k points) i ;;
      d <- lineDistance (k * sx) (k * sy) (k * ex) (k * ey) x y ;;
      Ok (if d >? maxD then d else maxD))) with (s := 0) (s' := 0) (t := d)
    as (d' & Hd' & ->); [ | ring | exact H | exact Hd'].
  intros i m m' t Hi -> Hbody.
  apply bind_Ok_inv in Hbody as ([x y] & Hp & Hbody).
  apply bind_Ok_inv in Hbody as (di & Hdi & Hbody).
  rewrite (get_scalePath _ _ _ Hp). cbn [bind scalePoint fst snd].
  rewrite (lineDistance_scale _ _ _ _ _ _ _ Hdi). cbn [bind].
  rewrite gtb_scale. injection Hbody as <-.
  eexists. split; [reflexivity|]. now destruct (di >? m).
Qed.

Lemma rdpScan_scale (points : list point) (sx sy ex ey maxD : R) (idx : Z) :
  (3 <= length points)%nat ->
  rdpScan points sx sy ex ey = Ok (maxD, idx) ->
  rdpScan (scalePath k points) (k * sx) (k * sy) (k * ex) (k * ey)
    = Ok (k * maxD, idx).
Proof.
  intros Hn Hscan.
  destruct (rdpScan_ok points sx sy ex ey Hn) as (m0 & i0 & E & _ & Hm0).
  rewrite Hscan in E. injection E as <- <-.
  unfold rdpScan in *. rewrite length_scalePath.
  destruct (forRange_sim
    (fun '(m, i) '(m', i') =>
       i' = i /\ ((m = -1 /\ m' = -1) \/ (0 <= m /\ m' = k * m)))
    1 (length points - 1)
    (fun i '(maxD, idx) =>
      '(x, y) <- get points i ;;
      d <- lineDistance sx sy ex ey x y ;;
      Ok (if d >? maxD then (d, Z.of_nat i) else (maxD, idx)))
    (fun i '(maxD, idx) =>
      '(x, y) <- get (scalePath k points) i ;;
      d <- lineDistance (k * sx) (k * sy) (k * ex) (k * ey) x y ;;
      Ok (if d >? maxD then (d, Z.of_nat i) else (maxD, idx))))
    with (s := (-1, (-1)%Z)) (s' := (-1, (-1)%Z)) (t := (maxD, idx))
    as ([m' i'] & Hrun & -> & Hm); [ | split; auto | exact Hscan | ].
  - intros i [m j] [m' j'] t Hi (-> & Hm) Hbody.
    apply bind_Ok_inv in Hbody as ([x y] & Hp & Hbody).
    apply bind_Ok_inv in Hbody as (di & Hdi & Hbody).
    rewrite (get_scalePath _ _ _ Hp). cbn [bind scalePoint fst snd].
    rewrite (lineDistance_scale _ _ _ _ _ _ _ Hdi). cbn [bind].
    destruct (lineDistance_ok sx sy ex ey x y) as (d0 & Hd0 & Hpos).
    rewrite Hdi in Hd0. injection Hd0 as <-.
    injection Hbody as <-.
    assert (Hcmp : (k * di >? m') = (di >? m)).
    { destruct Hm as [(-> & ->) | (_ & ->)]; [|apply gtb_scale].
      rewrite (proj2 (gtb_true di (-1))) by lra.
      apply gtb_true. nra. }
    rewrite Hcmp. eexists. split; [reflexivity|].
    destruct (di >? m); [split; auto | split; auto].
  - rewrite Hrun. do 2 f_equal. destruct Hm as [(-> & _) | (_ & ->)]; [lra | reflexivity].
Qed.

Lemma scalePath_firstn (n : nat) (points : list point) :
  scalePath k (firstn n points) = firstn n (scalePath k points).
Proof. unfold scalePath. symmetry. apply firstn_map. Qed.

Lemma scalePath_skipn (n : nat) (points : list point) :
  scalePath k (skipn n points) = skipn n (scalePath k points).
Proof. unfold scalePath. symmetry. apply skipn_map. Qed.

Lemma scalePath_removelast (points : list point) :
  scalePath k (removelast points) = removelast (scalePath k points).
Proof.
  induction points as [|p [|q l] IH]; try reflexivity.
  change (scalePath k (removelast (p :: q :: l)))
    with (scalePoint k p :: scalePath k (removelast (q :: l))).
  now rewrite IH.
Qed.

Lemma rdpFuel_scale (fuel : nat) :
  forall points epsilon out,
  rdpFuel fuel points epsilon = Ok out ->
  rdpFuel fuel (scalePath k points) (k * epsilon) = Ok (scalePath k out).
Proof.
  induction fuel as [|fuel IH]; intros points epsilon out; cbn [rdpFuel];
    rewrite length_scalePath;
    destruct (Nat.leb_spec (length points) 2) as [Hn|Hn];
    try (intros [= <-]; reflexivity); try discriminate.
  intros H.
  apply bind_Ok_inv in H as ([sx sy] & Hs & H).
  apply bind_Ok_inv in H as ([ex ey] & He & H).
  apply bind_Ok_inv in H as ([maxD idx] & Hscan & H).
  apply bind_Ok_inv in H as (dist & Hdist & H).
  rewrite (get_scalePath _ _ _ Hs), (get_scalePath _ _ _ He).
  cbn [bind scalePoint fst snd].
  assert (Hn3 : (3 <= length points)%nat) by lia.
  rewrite (rdpScan_scale _ _ _ _ _ _ _ Hn3 Hscan). cbn [bind].
  rewrite (rdpDistance_scale _ _ Hdist). cbn [bind].
  rewrite ltb_scale, gtb_scale.
  destruct (dist <? epsilon); [now injection H as <-|].
  destruct ((maxD >? epsilon) && (0 <? idx)%Z); [|now injection H as <-].
  apply bind_Ok_inv in H as (left & Hleft & H).
  apply bind_Ok_inv in H as (right & Hright & H).
  injection H as <-.
  unfold slice, sliceFrom, dropLast in *.
  rewrite <- scalePath_skipn, <- scalePath_firstn, <- scalePath_skipn.
  rewrite (IH _ _ _ Hleft), (IH _ _ _ Hright). cbn [bind].
  rewrite <- scalePath_removelast. unfold scalePath. now rewrite map_app.
Qed.

Lemma rdp_scale (points : list point) (epsilon : R) (out : list point) :
  rdp points epsilon = Ok out ->
  rdp (scalePath k points) (k * epsilon) = Ok (scalePath k out).
Proof.
  unfold rdp. rewrite length_scalePath. apply rdpFuel_scale.
Qed.









(** *** The circle fit *)












(** *** Corners and the widest triple *)







(** *** Arbitration *)

Lemma insertBy_scale (x : ShapeCandidate) (cs : list ShapeCandidate) :
  insertBy byConfidence (scaleCandidate k x) (map (scaleCandidate k) cs)
  = map (scaleCandidate k) (insertBy byConfidence x cs).
Proof.
  induction cs as [|y cs IH]; [reflexivity|].
  cbn [map insertBy]. unfold byConfidence at 1 3. cbn [scaleCandidate confidence].
  destruct (_ >? 0); cbn [map]; [now rewrite IH | reflexivity].
Qed.

Lemma sortBy_scale (cs : list ShapeCandidate) :
  sortBy byConfidence (map (scaleCandidate k) cs)
  = map (scaleCandidate k) (sortBy byConfidence cs).
Proof.
  induction cs as [|x cs IH]; [reflexivity|].
  cbn [map]. unfold sortBy in *. cbn [fold_right].
  now rewrite IH, insertBy_scale.
Qed.

Lemma filter_scale (cs : list ShapeCandidate) :
  filter survives (map (scaleCandidate k) cs)
  = map (scaleCandidate k) (filter survives cs).
Proof.
  induction cs as [|x cs IH]; [reflexivity|].
  cbn [map filter]. change (survives (scaleCandidate k x)) with (survives x).
  destruct (survives x); cbn [map]; now rewrite IH.
Qed.

Lemma arbitrate_scale (cs : list ShapeCandidate) (pts : list point)
  (color : string) :
  arbitrate (map (scaleCandidate k) cs) (scalePath k pts) color
  = scaleShape k (arbitrate cs pts color).
Proof.
  unfold arbitrate. rewrite filter_scale, sortBy_scale.
  now destruct (sortBy byConfidence (filter survives cs)).
Qed.

(** *** The pipeline *)

Lemma bbox_scale_width (points : list point) :
  bw (bbox (scalePath k points)) = k * bw (bbox points).
Proof. now rewrite bbox_scale. Qed.

Lemma bbox_scale_height (points : list point) :
  bh (bbox (scalePath k points)) = k * bh (bbox points).
Proof. now rewrite bbox_scale. Qed.

Lemma epsilonOf_scale (rawClosed : list point) :
  3 <= hypot (bw (bbox rawClosed)) (bh (bbox rawClosed)) * 0.01 ->
  3 <= k * hypot (bw (bbox rawClosed)) (bh (bbox rawClosed)) * 0.01 ->
  epsilonOf (scalePath k rawClosed) = k * epsilonOf rawClosed.
Proof.
  intros H1 H2. unfold epsilonOf.
  rewrite bbox_scale_width, bbox_scale_height, hypot_scale by lra.
  rewrite !Rmax_right by lra. ring.
Qed.






End Scaling.

(** Scaling by [1] changes nothing. *)
Lemma scalePath_one (points : list point) : scalePath 1 points = points.
Proof.
  unfold scalePath. rewrite <- (map_id points) at 2. apply map_ext.
  intros [x y]. unfold scalePoint. cbn [fst snd]. f_equal; ring.
Qed.



(** At [k = 1] the thresholds agree, whatever the stroke. *)
Lemma floorsAgree_one (pointsRaw : list point) : floorsAgree 1 pointsRaw.
Proof.
  split.
  - now rewrite Rmult_1_l.
  - rewrite scalePath_one.
    destruct (rdp (closedPath pointsRaw) (epsilonOf (closedPath pointsRaw)));
      cbn [fmap bind]; [now rewrite scalePath_one | reflexivity].
  - intros pts _ _. split.
    + right. rewrite !Rmult_1_l. reflexivity.
    + right. split.
      * now rewrite Rmult_1_l.
      * now rewrite !Rmult_1_l.
      * intros _. now rewrite !Rmult_1_l.
      * intros f _. now rewrite Rmult_1_l.
Qed.

(** Where the tolerance is above its floor [3] at both scales, it keeps the
    same points. *)
Lemma agree_epsilon_above (k : R) (rawClosed : list point) :
  0 < k ->
  3 <= hypot (bw (bbox rawClosed)) (bh (bbox rawClosed)) * 0.01 ->
  3 <= k * hypot (bw (bbox rawClosed)) (bh (bbox rawClosed)) * 0.01 ->
  rdp (scalePath k rawClosed) (epsilonOf (scalePath k rawClosed))
  = fmap (scalePath k) (rdp rawClosed (epsilonOf rawClosed)).
Proof.
  intros Hk H1 H2. rewrite (epsilonOf_scale k Hk _ H1 H2).
  destruct (rdp_spec rawClosed (epsilonOf rawClosed)) as (out & Hout & _).
  rewrite Hout. cbn [fmap bind]. now apply rdp_scale.
Qed.


(** * Worked strokes *)

Lemma hypot_eq (a b c : R) : 0 <= c -> a * a + b * b = c * c -> hypot a b = c.
Proof.
  intros Hc H. unfold hypot. rewrite H. now apply sqrt_square.
Qed.

Lemma hypot_le_sum (a b : R) : 0 <= a -> 0 <= b -> hypot a b <= a + b.
Proof.
  intros Ha Hb. unfold hypot.
  rewrite <- (sqrt_square (a + b)) by lra.
  apply sqrt_le_1_alt. nra.
Qed.

(** Evaluation of the numeric primitives on numerals. *)
Ltac eval_hypot c :=
  match goal with
  | |- context [hypot ?a ?b] =>
    replace (hypot a b) with c by (symmetry; apply hypot_eq; lra)
  end.

Ltac eval_cmp :=
  match goal with
  | |- context [?a <? ?b] =>
    first [ replace (a <? b) with true by (symmetry; apply ltb_true; lra)
          | replace (a <? b) with false by (symmetry; apply ltb_false; lra) ]
  | |- context [?a <=? ?b] =>
    first [ replace (a <=? b) with true by (symmetry; apply leb_true; lra)
          | replace (a <=? b) with false by (symmetry; apply leb_false; lra) ]
  | |- context [?a >? ?b] =>
    first [ replace (a >? b) with true by (symmetry; apply gtb_true; lra)
          | replace (a >? b) with false by (symmetry; apply gtb_false; lra) ]
  end.

Ltac eval_minmax :=
  match goal with
  | |- context [Rmin ?a ?b] =>
    first [ rewrite (Rmin_left a b) by lra | rewrite (Rmin_right a b) by lra ]
  | |- context [Rmax ?a ?b] =>
    first [ rewrite (Rmax_left a b) by lra | rewrite (Rmax_right a b) by lra ]
  end.

Ltac eval_abs :=
  match goal with
  | |- context [Rabs ?a] =>
    first [ rewrite (Rabs_pos_eq a) by lra | rewrite (Rabs_left1 a) by lra ]
  end.

Ltac eval_orOne :=
  match goal with
  | |- context [orOne ?a] =>
    first [ rewrite (orOne_id a) by lra
          | replace (orOne a) with 1 by (replace a with 0 by lra; now rewrite orOne_0) ]
  end.

Ltac eval_divide :=
  match goal with
  | |- context [divide ?a ?b] => rewrite (divide_Ok a b) by lra
  end.

Ltac eval_Z :=
  match goal with
  | |- context [Z.to_nat ?z] =>
    let v := eval vm_compute in (Z.to_nat z) in change (Z.to_nat z) with v
  | |- context [Z.of_nat ?n] =>
    let v := eval vm_compute in (Z.of_nat n) in change (Z.of_nat n) with v
  | |- context [Z.ltb ?a ?b] =>
    let v := eval vm_compute in (Z.ltb a b) in change (Z.ltb a b) with v
  | |- context [Z.rem ?a ?b] =>
    let v := eval vm_compute in (Z.rem a b) in change (Z.rem a b) with v
  end.

Ltac eval_step :=
  first [ eval_orOne | eval_divide | eval_abs | eval_minmax | eval_cmp | eval_Z
        | progress cbn [bind andb orb negb fst snd] ].

Ltac unroll :=
  cbn [forRange foldM reduceFrom seq length Nat.sub Nat.add Nat.ltb Nat.leb
       Nat.eqb get nth_error bind map fold_left firstn skipn removelast app
       fst snd].

Lemma S0_perimeter : polygonPerimeter S0 = Ok 99.
Proof.
  unfold polygonPerimeter, S0. unroll.
  repeat first [eval_hypot 12 | eval_hypot 40 | eval_hypot 35].
  f_equal. lra.
Qed.

Lemma S0_area : polygonArea S0 = Ok 480.
Proof.
  unfold polygonArea, S0. unroll. eval_abs. f_equal. lra.
Qed.

Lemma S0_ensureClosed : ensureClosed S0 = Ok S0.
Proof.
  unfold ensureClosed, S0. unroll. eval_hypot 5. now eval_cmp.
Qed.

Lemma S0_closedPath : closedPath S0 = S0.
Proof.
  pose proof (ensureClosed_eq S0) as H. rewrite S0_ensureClosed in H.
  now injection H.
Qed.


Lemma S0_bbox : bbox S0 = mkBBox 0 0 12 40 12 40.
Proof.
  unfold bbox, S0, arrayMin, arrayMax. unroll. repeat eval_minmax.
  f_equal; lra.
Qed.

Lemma S0_epsilon : epsilonOf S0 = 3.
Proof.
  unfold epsilonOf. rewrite S0_bbox. cbn [bw bh].
  pose proof (hypot_le_sum 12 40 ltac:(lra) ltac:(lra)).
  apply Rmax_left. lra.
Qed.

Lemma S0_pathClosed : pathClosed S0 = Ok true.
Proof.
  rewrite pathClosed_eq. f_equal. unfold S0 at 1. unroll.
  apply ltb_true. unfold closingGap, S0. cbn [hd last fst snd].
  eval_hypot 5. pose proof (Rmax_l 10 (polylineLength S0 * 0.05)).
  unfold S0 in *. lra.
Qed.

Lemma S0_rdp_tail2 :
  rdp [(12, 40); (0, 40); (0, 5)] 3 = Ok [(12, 40); (0, 40); (0, 5)].
Proof.
  rewrite rdp_unfold. unfold rdpScan, rdpDistance, lineDistance. unroll.
  repeat eval_hypot 37. repeat eval_step.
  unfold slice, sliceFrom, dropLast. unroll. reflexivity.
Qed.

Lemma S0_rdp_tail1 :
  rdp [(12, 0); (12, 40); (0, 40); (0, 5)] 3
  = Ok [(12, 0); (12, 40); (0, 40); (0, 5)].
Proof.
  rewrite rdp_unfold. unfold rdpScan, rdpDistance, lineDistance. unroll.
  repeat eval_hypot 13. repeat eval_step.
  unfold slice, sliceFrom, dropLast. unroll. rewrite S0_rdp_tail2.
  reflexivity.
Qed.

Lemma S0_rdp : rdp S0 3 = Ok S0.
Proof.
  unfold S0.
  rewrite rdp_unfold. unfold rdpScan, rdpDistance, lineDistance. unroll.
  repeat eval_hypot 5. repeat eval_step.
  unfold slice, sliceFrom, dropLast. unroll. rewrite S0_rdp_tail1.
  reflexivity.
Qed.

Lemma S0_circularity_bounds : 0.5 < S0_circularity < 0.8.
Proof.
  unfold S0_circularity. pose proof PI2_3_2. pose proof PI_4. lra.
Qed.

Lemma S0_circularityOf : circularityOf 99 480 = Ok S0_circularity.
Proof.
  rewrite circularityOf_ok. rewrite orOne_id by lra. reflexivity.
Qed.

Lemma S0_rectangle :
  exists conf,
    classifyRectangle S0 S0 99 480 12 40 black
      = Ok (mkCandidate (rect 0 0 12 40 black) conf) /\ 0.8 <= conf.
Proof.
  unfold classifyRectangle. rewrite S0_circularityOf, S0_bbox.
  pose proof S0_circularity_bounds.
  cbn [minX minY]. repeat eval_step.
  eexists. split; [reflexivity | lra].
Qed.

Lemma S0_circle :
  exists c,
    classifyCircle S0 S0 99 480 12 40 true black = Ok c /\ confidence c < 0.8.
Proof.
  unfold classifyCircle. rewrite S0_circularityOf.
  pose proof S0_circularity_bounds.
  repeat eval_step.
  replace (fitCircle S0) with (Ok (@None CircleFit)) by reflexivity.
  cbn [bind]. eexists. split; [reflexivity|]. cbn [confidence].
  destruct (_ <? 0.75); lra.
Qed.

Lemma INR_le_5 (n : nat) : (n <= 5)%nat -> INR n <= 5.
Proof.
  intros H. apply le_INR in H. simpl in H. lra.
Qed.

(** The confidence of the triangle candidate is at most
    [0.6 + 0.3 * (1 - circularity)]. *)
Lemma classifyTriangle_confidence (pts : list point) (P A circ : R)
  (color : string) (c : ShapeCandidate) :
  classifyTriangle pts P A color = Ok c ->
  circularityOf P A = Ok circ ->
  confidence c = 0 \/ confidence c <= 0.6 + (1 - circ) * 0.3.
Proof.
  unfold classifyTriangle. intros Hrun Hcirc.
  destruct (countCorners_ok pts 35) as (corners & Hcorners).
  rewrite Hcorners, Hcirc in Hrun. cbn [bind] in Hrun.
  destruct (_ <? 0.3).
  { injection Hrun as <-. now left. }
  destruct (bestTriple_spec pts) as (best & maxSum & Hbest & _).
  rewrite Hbest in Hrun. cbn [bind] in Hrun.
  destruct (length best =? 3)%nat; injection Hrun as <-; [|now left].
  cbn [confidence].
  destruct (_ && (corners <=? 5)%nat && (circ <? 0.85)) eqn:E; [|now left].
  right. apply andb_true_iff in E as [E _]. apply andb_true_iff in E as [_ E].
  apply Nat.leb_le, INR_le_5 in E.
  pose proof (Rmin_r 0.8 ((INR corners - 2) * 0.2)). lra.
Qed.

Lemma S0_scored :
  exists cr cc ct,
    Scored S0 S0 S0 black cr cc ct /\
    shape cr = rect 0 0 12 40 black /\
    0.8 <= confidence cr /\ confidence cc < 0.8 /\ confidence ct < 0.8.
Proof.
  destruct S0_rectangle as (conf & Hcr & Hconf).
  destruct S0_circle as (cc & Hcc & Hccc).
  destruct (classifyTriangle_spec S0 99 480 black) as (ct & Hct & _).
  exists (mkCandidate (rect 0 0 12 40 black) conf), cc, ct.
  split; [|repeat split; auto].
  - apply (scored _ _ _ _ _ _ _ 99 480 true);
      rewrite ?S0_bbox; cbn [bw bh];
      auto using S0_perimeter, S0_area, S0_pathClosed.
  - pose proof S0_circularity_bounds.
    destruct (classifyTriangle_confidence _ _ _ _ _ _ Hct S0_circularityOf); lra.
Qed.

(** Whatever else is kept, a rectangle candidate that beats the circle and
    the triangle candidate is the answer. *)
Lemma arbitrate_rectangle (cr cc ct : ShapeCandidate) (pts : list point)
  (color : string) :
  0.4 < confidence cr ->
  confidence cc <= confidence cr -> confidence ct <= confidence cr ->
  firstBest (filter survives [cr; cc; ct]) cr.
Proof.
  intros Hcr Hcc Hct. exists [], (filter survives [cc; ct]).
  split; [|split].
  - cbn [filter app]. now rewrite (proj2 (survives_true cr) Hcr).
  - intros c [].
  - intros c Hc. apply filter_In in Hc as [[<-|[<-|[]]] _]; assumption.
Qed.

Lemma S0_recognize : recognize S0 black = Ok (rect 0 0 12 40 black).
Proof.
  destruct S0_scored as (cr & cc & ct & Hsc & Hshape & Hcr & Hcc & Hct).
  destruct (recognize_long S0 S0 S0 black) as (cr' & cc' & ct' & Hsc' & Hrun).
  - exact S0_ensureClosed.
  - rewrite S0_epsilon. exact S0_rdp.
  - simpl. lia.
  - destruct (Scored_unique _ _ _ _ _ _ _ _ _ _ Hsc Hsc') as (<- & <- & <-).
    rewrite Hrun, <- Hshape. do 2 f_equal.
    destruct (arbitrate_cases [cr; cc; ct] S0 black)
      as [(Hnone & _) | (b & Hb & ->)].
    + pose proof (arbitrate_rectangle cr cc ct S0 black) as (l1 & l2 & E & _);
        try lra. rewrite Hnone in E. now destruct l1.
    + f_equal. apply (firstBest_unique _ _ _ Hb).
      apply (arbitrate_rectangle cr cc ct S0 black); lra.
Qed.

Ltac eval_right_angle :=
  match goal with
  | |- context [acos ?x] =>
    replace (acos x) with (PI / 2) by (replace x with 0 by lra; now rewrite acos_0)
  end.

Lemma toDeg_right_angle : toDeg (PI / 2) = 90.
Proof. unfold toDeg. field. apply PI_neq0. Qed.




(** ** Instances of the theorems on the worked strokes *)

Lemma S0_nonempty : S0 <> [].
Proof. discriminate. Qed.

Lemma S0_simplified : rdp S0 (epsilonOf S0) = Ok S0.
Proof. rewrite S0_epsilon. exact S0_rdp. Qed.

(** C1 on the stroke [S0]: its closed path is [S0] itself and keeps all five
    points under simplification. *)
Lemma recognize_arbitrates_witness :
  ensureClosed S0 = Ok S0 /\
  rdp S0 (epsilonOf S0) = Ok S0 /\
  (3 <= length S0)%nat /\
  exists cr cc ct,
    Scored S0 S0 S0 black cr cc ct /\
    exists kept,
      (forall c, In c kept <-> In c [cr; cc; ct] /\ (confidence c >? 0.4) = true) /\
      (forall c, In c [cr; cc; ct] -> confidence c < 0.4 -> ~ In c kept) /\
      (kept = [] -> recognize S0 black = Ok (free S0 black)) /\
      (kept <> [] ->
       exists best,
         In best kept /\
         (forall c, In c kept -> confidence c <= confidence best) /\
         recognize S0 black = Ok (shape best)).
Proof.
  assert (Hn : (3 <= length S0)%nat) by (simpl; lia).
  split; [exact S0_ensureClosed|]. split; [exact S0_simplified|].
  split; [exact Hn|].
  exact (recognize_arbitrates S0 S0 S0 black S0_ensureClosed S0_simplified Hn).
Defined.

(** C2 on a stroke of 150000 points, in an engine that passes at most 65536
    arguments to one call (the limit of JavaScriptCore). *)
Lemma recognize_raises_on_long_stroke_witness :
  Engine.recognize 65536 (repeat (0, 0) 150000) black = Err RangeError.
Proof.
  apply recognize_raises_on_long_stroke.
  rewrite repeat_length. apply Nat.ltb_lt. vm_compute. reflexivity.
Defined.

(** Up to the limit the same engine answers: [S0]. *)
Lemma S0_within_limit :
  Engine.recognize 65536 S0 black = Ok (rect 0 0 12 40 black).
Proof.
  rewrite recognize_within_limit; [exact S0_recognize|].
  rewrite S0_closedPath. apply Nat.leb_le. vm_compute. reflexivity.
Qed.

Lemma P2_ensureClosed : ensureClosed P2 = Ok P2.
Proof.
  unfold ensureClosed, P2. unroll. eval_hypot 0. now eval_cmp.
Qed.

(** C3 on a stroke of two identical points. *)
Lemma recognize_degenerate_witness :
  ensureClosed P2 = Ok P2 /\
  (length P2 < 3)%nat /\
  recognize P2 black = Ok (free P2 black) /\
  recognizeWith (fun _ _ _ _ _ _ _ => raising) (fun _ _ _ _ _ _ _ _ => raising)
    (fun _ _ _ _ => raising) P2 black = Ok (free P2 black).
Proof.
  assert (Hn : (length P2 < 3)%nat) by (simpl; lia).
  split; [exact P2_ensureClosed|]. split; [exact Hn|].
  destruct (recognize_degenerate P2 P2 black P2_ensureClosed Hn)
    as (H1 & _ & H2 & _).
  split; assumption.
Defined.

Lemma F6_normalDen : normalDen F6 = 24.
Proof.
  unfold normalDen, mean, F6. cbn [map fold_right length fst snd].
  replace (INR 6) with 6 by (simpl; lra).
  replace ((1 + (-1 + (0 + (0 + (1 + (-1 + 0)))))) / 6) with 0 by lra.
  replace ((0 + (0 + (1 + (-1 + (1 + (-1 + 0)))))) / 6) with 0 by lra.
  unfold fitMoments, fitDen. cbn [fold_left Suu Suv Svv Suuu Suvv Svvv Suuv].
  lra.
Qed.

(** [fitCircle_exact_spec] on the six points [F6]: there are enough of them
    and the denominator is 24, so a fit is answered. *)
Lemma fitCircle_exact_F6 :
  exists f,
    fitCircle F6 = Ok (Some f) /\
    r f = mean (radii (cx f, cy f) F6) /\
    stdRel f = stddev (radii (cx f, cy f) F6) / r f.
Proof.
  apply (proj2 (fitCircle_exact_spec F6)).
  intros [H|H]; [simpl in H; lia|].
  rewrite F6_normalDen, Rabs_pos_eq in H; lra.
Defined.

(** A stroke of one point, with classifiers that raise. *)
Lemma recognize_single_point :
  recognizeWith (fun _ _ _ _ _ _ _ => raising) (fun _ _ _ _ _ _ _ _ => raising)
    (fun _ _ _ _ => raising) [(0, 0)] black = Ok (free [(0, 0)] black).
Proof. reflexivity. Qed.


(** C8 on the stroke [S0]. *)
Lemma recognize_shape_valid_witness :
  S0 <> [] /\ exists s, recognize S0 black = Ok s /\ shapeValid s.
Proof.
  split; [exact S0_nonempty|].
  exact (recognize_shape_valid S0 black S0_nonempty).
Defined.

(** C10 on the stroke [S0], with classifiers that answer a rectangle of
    confidence 1/2 and a circle and a triangle of confidence 7/10 each: all
    three are kept, circle and triangle tie for the highest confidence, and
    the answer is the circle, the earlier of the two. *)
Lemma recognize_first_wins_ties_witness :
  recognizeWith
    (fun _ _ _ _ _ _ color => Ok (mkCandidate (rect 0 0 12 40 color) (1 / 2)))
    (fun _ _ _ _ _ _ _ color => Ok (mkCandidate (circle 6 20 6 color) (7 / 10)))
    (fun pts _ _ color => Ok (mkCandidate (triangle pts color) (7 / 10)))
    S0 black
  = Ok (circle 6 20 6 black).
Proof.
  apply (recognize_first_wins_ties _ _ _ S0 S0 S0 black 99 480 true
           (mkCandidate (rect 0 0 12 40 black) (1 / 2))
           (mkCandidate (circle 6 20 6 black) (7 / 10))
           (mkCandidate (triangle S0 black) (7 / 10))
           (mkCandidate (circle 6 20 6 black) (7 / 10))
           [mkCandidate (rect 0 0 12 40 black) (1 / 2)]
           [mkCandidate (triangle S0 black) (7 / 10)]).
  - exact S0_ensureClosed.
  - exact S0_simplified.
  - simpl. lia.
  - exact S0_perimeter.
  - exact S0_area.
  - exact S0_pathClosed.
  - reflexivity.
  - reflexivity.
  - reflexivity.
  - cbn [filter confidence app].
    rewrite !(proj2 (gtb_true _ _)) by lra. reflexivity.
  - intros c [<-|[]]. cbn [confidence]. lra.
  - intros c [<-|[]]. cbn [confidence]. lra.
Defined.

(** ** Scaling the worked strokes *)






Lemma S1_closingGap : closingGap S1 = 4.
Proof. unfold closingGap, S1. cbn [hd last fst snd]. now eval_hypot 4. Qed.

Lemma S1_closedPath : closedPath S1 = S1.
Proof.
  unfold closedPath. rewrite S1_closingGap. unfold S1 at 1. unroll.
  now eval_cmp.
Qed.

Lemma S1_bbox : bbox S1 = mkBBox 0 0 300 400 300 400.
Proof.
  unfold bbox, S1, arrayMin, arrayMax. unroll. repeat eval_minmax.
  f_equal; lra.
Qed.

(** A stroke so large that every floor is exceeded at the scales 1 and 2. *)
Lemma S1_floorsAgree : floorsAgree 2 S1.
Proof.
  split.
  - rewrite S1_closingGap. lra.
  - rewrite S1_closedPath.
    apply agree_epsilon_above; [lra| |]; rewrite S1_bbox; cbn [bw bh];
      replace (hypot 300 400) with 500 by (symmetry; apply hypot_eq; lra); lra.
  - rewrite S1_closedPath. intros pts Hpts Hn.
    assert (Hlen : (length pts <= 5)%nat).
    { destruct (rdp_spec S1 (epsilonOf S1)) as (out & Hout & [Hsub _ _ _ _]).
      rewrite Hpts in Hout. injection Hout as <-.
      apply Subseq_length in Hsub. exact Hsub. }
    split; right; [|split];
      rewrite ?S1_closedPath, ?S1_bbox, ?S1_closingGap; cbn [bw bh].
    + rewrite !Rmax_right by lra. ring.
    + rewrite Rmin_left by lra. lra.
    + pose proof (Rmax_l 10 (polylineLength S1 * 0.05)).
      pose proof (Rmax_l 10 (2 * polylineLength S1 * 0.05)). lra.
    + lia.
    + intros f Hf. rewrite fitCircle_eq in Hf.
      destruct (Nat.ltb_spec (length pts) 6); [discriminate | lia].
Qed.









(** * Further properties of the code *)

Lemma closingGap_nonneg (points : list point) : 0 <= closingGap points.
Proof. apply hypot_nonneg. Qed.

Lemma closingGap_short (points : list point) :
  (length points < 2)%nat -> closingGap points = 0.
Proof.
  intros Hn. destruct points as [|p [|q l]]; [| |simpl in Hn; lia];
    unfold closingGap; cbn [hd last].
  - replace (fst (0, 0) - fst (0, 0)) with 0 by (simpl; ring).
    replace (snd (0, 0) - snd (0, 0)) with 0 by (simpl; ring). apply hypot_00.
  - replace (fst p - fst p) with 0 by ring.
    replace (snd p - snd p) with 0 by ring. apply hypot_00.
Qed.

Lemma closingGap_appended (points : list point) :
  points <> [] -> closingGap (points ++ [hd (0, 0) points]) = 0.
Proof.
  intros Hne. unfold closingGap. rewrite last_last.
  rewrite hd_app_nonempty by exact Hne.
  replace (fst _ - fst _) with 0 by ring.
  replace (snd (hd (0, 0) points) - snd _) with 0 by ring. apply hypot_00.
Qed.

Lemma closedPath_gap (points : list point) : closingGap (closedPath points) <= 8.
Proof.
  unfold closedPath. destruct (Nat.ltb_spec (length points) 2) as [Hn|Hn].
  - rewrite closingGap_short by exact Hn. lra.
  - destruct (closingGap points <=? 8) eqn:E.
    + now apply leb_true in E.
    + rewrite closingGap_appended; [lra|].
      destruct points; [simpl in Hn; lia | discriminate].
Qed.

(** X1: [ensureClosed] answers with the stroke itself, or with the stroke
    followed by a copy of its first point, and the two ends of its answer
    are never more than 8 apart. *)
Theorem ensureClosed_closes (points : list point) :
  exists out,
    ensureClosed points = Ok out /\
    (out = points \/ out = points ++ [hd (0, 0) points]) /\
    closingGap out <= 8.
Proof.
  rewrite ensureClosed_eq. eexists. split; [reflexivity|].
  split; [|apply closedPath_gap].
  unfold closedPath. destruct (_ <? _)%nat; [now left|].
  destruct (_ <=? _); auto.
Qed.

Lemma closedPath_idempotent (points : list point) :
  closedPath (closedPath points) = closedPath points.
Proof.
  pose proof (closedPath_gap points) as Hgap.
  unfold closedPath at 1.
  destruct (_ <? _)%nat; [reflexivity|].
  now rewrite (proj2 (leb_true _ _) Hgap).
Qed.

(** X2: closing a path that [ensureClosed] has closed changes nothing. *)
Theorem ensureClosed_idempotent (points : list point) :
  (rawClosed <- ensureClosed points ;; ensureClosed rawClosed)
  = ensureClosed points.
Proof.
  rewrite ensureClosed_eq. cbn [bind]. rewrite ensureClosed_eq.
  now rewrite closedPath_idempotent.
Qed.

Lemma firstn_snoc {A : Type} (d : A) (i : nat) :
  forall l : list A, (i < length l)%nat -> firstn (S i) l = firstn i l ++ [nth i l d].
Proof.
  induction i as [|i IH]; intros [|x l] H; simpl in H; try lia.
  - reflexivity.
  - cbn [firstn nth app]. f_equal. apply IH. lia.
Qed.

Lemma polylineLength_snoc (l : list point) (x d : point) :
  polylineLength (l ++ [x])
  = polylineLength l + match l with [] => 0 | _ => euclid (last l d) x end.
Proof.
  induction l as [|p l IH].
  - unfold polylineLength. simpl. lra.
  - destruct l as [|q l].
    + unfold polylineLength. simpl. lra.
    + change ((p :: q :: l) ++ [x]) with (p :: q :: (l ++ [x])).
      rewrite !polylineLength_cons.
      change (q :: l ++ [x]) with ((q :: l) ++ [x]). rewrite IH.
      change (last (p :: q :: l) d) with (last (q :: l) d). lra.
Qed.

Lemma polygonPerimeter_eq (points : list point) :
  polygonPerimeter points = Ok (polylineLength points).
Proof.
  unfold polygonPerimeter.
  destruct points as [|p0 l] eqn:E; [unfold polylineLength; reflexivity|].
  rewrite <- E.
  assert (Hn : (1 <= length points)%nat) by (subst; simpl; lia).
  destruct (forRange_counter_inv
    (fun i p => p = polylineLength (firstn i points)) 1 (length points)
    (fun i p =>
      '(xi, yi) <- get points i ;;
      '(xp, yp) <- get points (i - 1) ;;
      Ok (p + hypot (xi - xp) (yi - yp))) 0) as (P & -> & ->).
  - exact Hn.
  - intros i p Hi ->.
    get_step points i. destruct (nth i points (0, 0)) as [xi yi] eqn:Ei.
    get_step points (i - 1)%nat.
    destruct (nth (i - 1) points (0, 0)) as [xp yp] eqn:Ep.
    eexists. split; [reflexivity|].
    rewrite (firstn_snoc (0, 0)) by lia.
    rewrite (polylineLength_snoc _ _ (0, 0)).
    destruct (firstn i points) as [|q m] eqn:Ef.
    { apply (f_equal (@length point)) in Ef. rewrite length_firstn in Ef.
      simpl in Ef. lia. }
    rewrite <- Ef. f_equal.
    replace i with (S (i - 1)) at 1 by lia.
    rewrite (firstn_snoc (0, 0)) by lia. rewrite last_last.
    rewrite Ei, Ep, (euclid_sym (xp, yp)). reflexivity.
  - subst points. unfold polylineLength. reflexivity.
  - now rewrite firstn_all.
Qed.

Lemma polylineLength_nonneg (points : list point) : 0 <= polylineLength points.
Proof.
  destruct (polygonPerimeter_ok points) as (P & HP & Hpos).
  rewrite polygonPerimeter_eq in HP. now injection HP as <-.
Qed.

(** X3: [polygonPerimeter] is the length of the open polyline through the
    points: the edge from the last point back to the first is not counted,
    one more point adds its distance to the last point, and fewer than two
    points have perimeter 0. *)
Theorem polygonPerimeter_open (points : list point) :
  polygonPerimeter points = Ok (polylineLength points) /\
  (forall p, points <> [] ->
     polygonPerimeter (points ++ [p])
     = Ok (polylineLength points + euclid (last points (0, 0)) p)) /\
  ((length points < 2)%nat -> polygonPerimeter points = Ok 0).
Proof.
  split; [apply polygonPerimeter_eq|]. split.
  - intros p Hne. rewrite polygonPerimeter_eq, (polylineLength_snoc _ _ (0, 0)).
    destruct points; [congruence | reflexivity].
  - intros Hn. rewrite polygonPerimeter_eq.
    destruct points as [|p [|q l]]; [| |simpl in Hn; lia]; reflexivity.
Qed.

Lemma fold_left_Rmin_In (l : list R) :
  forall a, fold_left Rmin l a = a \/ In (fold_left Rmin l a) l.
Proof.
  induction l as [|y l IH]; intros a; simpl; [now left|].
  destruct (IH (Rmin a y)) as [H|H]; [|auto].
  rewrite H. unfold Rmin. destruct (Rle_dec a y); auto.
Qed.

Lemma fold_left_Rmax_In (l : list R) :
  forall a, fold_left Rmax l a = a \/ In (fold_left Rmax l a) l.
Proof.
  induction l as [|y l IH]; intros a; simpl; [now left|].
  destruct (IH (Rmax a y)) as [H|H]; [|auto].
  rewrite H. unfold Rmax. destruct (Rle_dec a y); auto.
Qed.

Lemma arrayMin_In (xs : list R) : xs <> [] -> In (arrayMin xs) xs.
Proof.
  destruct xs as [|a l]; [congruence|]. intros _. simpl.
  destruct (fold_left_Rmin_In l a) as [-> | H]; auto.
Qed.

Lemma arrayMax_In (xs : list R) : xs <> [] -> In (arrayMax xs) xs.
Proof.
  destruct xs as [|a l]; [congruence|]. intros _. simpl.
  destruct (fold_left_Rmax_In l a) as [-> | H]; auto.
Qed.

(** X4: the box of a non-empty array holds every point, each of its four
    sides passes through a point, and its width and height are not
    negative. *)
Theorem bbox_tight (points : list point) :
  points <> [] ->
  (forall p, In p points ->
     minX (bbox points) <= fst p <= maxX (bbox points) /\
     minY (bbox points) <= snd p <= maxY (bbox points)) /\
  (exists p, In p points /\ fst p = minX (bbox points)) /\
  (exists p, In p points /\ fst p = maxX (bbox points)) /\
  (exists p, In p points /\ snd p = minY (bbox points)) /\
  (exists p, In p points /\ snd p = maxY (bbox points)) /\
  0 <= bw (bbox points) /\ 0 <= bh (bbox points).
Proof.
  intros Hne.
  assert (Hx : map fst points <> []) by (destruct points; [congruence | discriminate]).
  assert (Hy : map snd points <> []) by (destruct points; [congruence | discriminate]).
  split; [apply bbox_spans|]. unfold bbox at 1 2 3 4. cbn [minX maxX minY maxY].
  repeat split.
  - apply arrayMin_In, in_map_iff in Hx as (p & E & Hp). eauto.
  - apply arrayMax_In, in_map_iff in Hx as (p & E & Hp). eauto.
  - apply arrayMin_In, in_map_iff in Hy as (p & E & Hp). eauto.
  - apply arrayMax_In, in_map_iff in Hy as (p & E & Hp). eauto.
  - apply bbox_width_nonneg.
  - apply bbox_height_nonneg.
Qed.

(** X4 on the square [Q4]. *)
Lemma bbox_tight_witness :
  Q4 <> [] /\
  (forall p, In p Q4 ->
     minX (bbox Q4) <= fst p <= maxX (bbox Q4) /\
     minY (bbox Q4) <= snd p <= maxY (bbox Q4)).
Proof.
  split; [discriminate|].
  apply (bbox_tight Q4). discriminate.
Defined.

(** X5: a path of three or more points that ends where it starts is
    simplified to two copies of that point, whatever the positive
    tolerance: the line through coinciding ends is a point, and [rdp]
    measures distance 0 to it. *)
Theorem rdp_collapses_closed_loop (points : list point) (epsilon : R) :
  (3 <= length points)%nat -> 0 < epsilon ->
  hd (0, 0) points = last points (0, 0) ->
  rdp points epsilon = Ok [hd (0, 0) points; hd (0, 0) points].
Proof.
  intros Hn Heps Hends. rewrite Hends at 2. now apply rdp_same_ends.
Qed.

(** X5 on the path [L4]. *)
Lemma rdp_collapses_closed_loop_witness :
  rdp L4 1 = Ok [(0, 0); (0, 0)].
Proof.
  apply (rdp_collapses_closed_loop L4 1); [simpl; lia | lra | reflexivity].
Defined.

Lemma closingGap_zero (points : list point) :
  closingGap points = 0 -> hd (0, 0) points = last points (0, 0).
Proof.
  unfold closingGap. intros H. apply hypot_zero in H as [Hx Hy].
  destruct (hd (0, 0) points), (last points (0, 0)). cbn [fst snd] in *.
  f_equal; lra.
Qed.

(** A stroke that is too short, ends where it starts, or ends far from its
    start is simplified to fewer than three points. *)
Lemma rdp_collapse_cases (pointsRaw : list point) :
  (length pointsRaw < 3)%nat \/ closingGap pointsRaw = 0 \/ 8 < closingGap pointsRaw ->
  exists pts,
    rdp (closedPath pointsRaw) (epsilonOf (closedPath pointsRaw)) = Ok pts /\
    (length pts < 3)%nat.
Proof.
  intros Hcase.
  assert (Heps : forall l, 0 < epsilonOf l).
  { intros l. pose proof (Rmax_l 3 (hypot (bw (bbox l)) (bh (bbox l)) * 0.01)).
    unfold epsilonOf. lra. }
  assert (Hsmall : (length (closedPath pointsRaw) < 3)%nat ->
    exists pts, rdp (closedPath pointsRaw) (epsilonOf (closedPath pointsRaw)) = Ok pts /\
                (length pts < 3)%nat).
  { intros Hn. exists (closedPath pointsRaw). split; [|exact Hn].
    rewrite rdp_unfold.
    destruct (Nat.leb_spec (length (closedPath pointsRaw)) 2); [reflexivity | lia]. }
  assert (Hloop : (3 <= length (closedPath pointsRaw))%nat ->
    hd (0, 0) (closedPath pointsRaw) = last (closedPath pointsRaw) (0, 0) ->
    exists pts, rdp (closedPath pointsRaw) (epsilonOf (closedPath pointsRaw)) = Ok pts /\
                (length pts < 3)%nat).
  { intros Hn Hends. eexists. split; [apply rdp_same_ends; auto|]. simpl. lia. }
  destruct (Nat.ltb_spec (length pointsRaw) 2) as [H2|H2].
  { apply Hsmall. unfold closedPath.
    destruct (Nat.ltb_spec (length pointsRaw) 2); lia. }
  destruct (Rle_dec (closingGap pointsRaw) 8) as [Hle|Hgt].
  - assert (Hrc : closedPath pointsRaw = pointsRaw).
    { unfold closedPath. destruct (Nat.ltb_spec (length pointsRaw) 2); [lia|].
      now rewrite (proj2 (leb_true _ _) Hle). }
    rewrite Hrc in *.
    destruct (Nat.ltb_spec (length pointsRaw) 3) as [H3|H3]; [auto|].
    destruct Hcase as [H|[H|H]]; [lia | | lra].
    apply Hloop; [exact H3 | now apply closingGap_zero].
  - apply Rnot_le_lt in Hgt.
    assert (Hrc : closedPath pointsRaw = pointsRaw ++ [hd (0, 0) pointsRaw]).
    { unfold closedPath. destruct (Nat.ltb_spec (length pointsRaw) 2); [lia|].
      now rewrite (proj2 (leb_false _ _) Hgt). }
    rewrite Hrc in *. apply Hloop.
    + rewrite length_app. simpl. lia.
    + rewrite last_last. destruct pointsRaw; [simpl in H2; lia | reflexivity].
Qed.

Lemma recognize_free_cases (pointsRaw : list point) (color : string) :
  (length pointsRaw < 3)%nat \/ closingGap pointsRaw = 0 \/ 8 < closingGap pointsRaw ->
  recognize pointsRaw color = Ok (free (closedPath pointsRaw) color).
Proof.
  intros Hcase. destruct (rdp_collapse_cases _ Hcase) as (pts & Hpts & Hn).
  apply (recognize_short pointsRaw (closedPath pointsRaw) pts color);
    auto using ensureClosed_eq.
Qed.

(** X6: [recognize] answers with a rectangle, a circle or a triangle only
    for a stroke of at least three points whose ends are apart, and by no
    more than 8.  A stroke that returns exactly to its start, or that stops
    more than 8 short of it, always comes back as a free shape. *)
Theorem recognize_needs_small_gap (pointsRaw : list point) (color : string)
  (s : DrawnShape) :
  recognize pointsRaw color = Ok s -> isFree s = false ->
  (3 <= length pointsRaw)%nat /\ 0 < closingGap pointsRaw <= 8.
Proof.
  intros Hrun Hshape.
  assert (Hnot : ~ ((length pointsRaw < 3)%nat \/ closingGap pointsRaw = 0 \/
                    8 < closingGap pointsRaw)).
  { intros Hcase. rewrite (recognize_free_cases _ _ Hcase) in Hrun.
    injection Hrun as <-. discriminate. }
  pose proof (closingGap_nonneg pointsRaw).
  split; [lia|]. split.
  - destruct (Req_dec (closingGap pointsRaw) 0); [tauto | lra].
  - destruct (Rle_dec (closingGap pointsRaw) 8) as [|Hgt]; [assumption|].
    apply Rnot_le_lt in Hgt. tauto.
Qed.

Lemma recognize_cases (pointsRaw : list point) (color : string) (s : DrawnShape) :
  recognize pointsRaw color = Ok s ->
  s = free (closedPath pointsRaw) color \/
  exists pts cr cc ct,
    rdp (closedPath pointsRaw) (epsilonOf (closedPath pointsRaw)) = Ok pts /\
    (3 <= length pts)%nat /\
    Scored pointsRaw (closedPath pointsRaw) pts color cr cc ct /\
    (s = free pts color \/
     exists best, In best [cr; cc; ct] /\ 0.4 < confidence best /\ s = shape best).
Proof.
  intros Hrun.
  destruct (recognize_branches pointsRaw color)
    as (rawClosed & pts & Hrc & Hpts & Hcases).
  rewrite ensureClosed_eq in Hrc. injection Hrc as <-.
  destruct Hcases as [(_ & Ht) | (Hlong & cr & cc & ct & Hsc & Ht)];
    rewrite Ht in Hrun; injection Hrun as <-.
  - now left.
  - right. exists pts, cr, cc, ct. repeat (split; [assumption|]).
    destruct (arbitrate_cases [cr; cc; ct] pts color)
      as [(_ & ->) | (best & Hbest & ->)]; [now left|].
    right. exists best.
    apply firstBest_In, filter_In in Hbest as [Hin Hs].
    apply survives_true in Hs. auto.
Qed.

Lemma rdp_In (points out : list point) (epsilon : R) (p : point) :
  rdp points epsilon = Ok out -> In p out -> In p points.
Proof.
  intros Hrun. destruct (rdp_spec points epsilon) as (out' & Hout & [H _ _ _ _]).
  rewrite Hrun in Hout. injection Hout as <-. now apply Subseq_In.
Qed.

Lemma closedPath_In (points : list point) (p : point) :
  In p (closedPath points) -> In p points.
Proof.
  destruct (ensureClosed_ok points) as (rc & Hrc & _ & Hin).
  rewrite ensureClosed_eq in Hrc. injection Hrc as <-. apply Hin.
Qed.

Lemma widestTriple_In (pts vs : list point) (p : point) :
  widestTriple pts vs -> In p vs -> In p pts.
Proof.
  intros (a & b & c & (Hab & Hc & ->) & _) Hp.
  destruct Hp as [<-|[<-|[<-|[]]]]; apply nth_In; lia.
Qed.

Lemma Scored_copies (pointsRaw rawClosed pts : list point) (color : string)
  (cr cc ct c : ShapeCandidate) :
  Scored pointsRaw rawClosed pts color cr cc ct -> In c [cr; cc; ct] ->
  colorOf (shape c) = color /\ forall p, In p (verticesOf (shape c)) -> In p pts.
Proof.
  intros [P A closed HP HA Hcl Hr Hc Ht] Hin.
  destruct Hin as [<-|[<-|[<-|[]]]].
  - destruct (classifyRectangle_spec pts rawClosed P A
                (bw (bbox rawClosed)) (bh (bbox rawClosed)) color)
      as (c0 & Hc0 & (x & y & W & H & Hshape & _) & _).
    rewrite Hr in Hc0. injection Hc0 as <-. rewrite Hshape.
    split; [reflexivity | intros p []].
  - destruct (classifyCircle_spec pts rawClosed P A
                (bw (bbox rawClosed)) (bh (bbox rawClosed)) closed color)
      as (c0 & Hc0 & Hcases).
    rewrite Hc in Hc0. injection Hc0 as <-.
    destruct Hcases as [(-> & _) | (x & y & r & -> & _)];
      (split; [reflexivity|]); [auto | intros p []].
  - destruct (classifyTriangle_spec pts P A color) as (c0 & Hc0 & Hcases).
    rewrite Ht in Hc0. injection Hc0 as <-.
    destruct Hcases as [(-> & _) | (vs & -> & Hvs)];
      (split; [reflexivity|]); [auto|].
    intros p. now apply widestTriple_In.
Qed.

Lemma recognize_copies (pointsRaw : list point) (color : string) :
  exists s,
    recognize pointsRaw color = Ok s /\
    colorOf s = color /\
    (forall p, In p (verticesOf s) -> In p pointsRaw) /\
    (forall points c, s = triangle points c -> length points = 3%nat).
Proof.
  destruct (recognize_ok pointsRaw color) as (s & Hrun). exists s.
  split; [exact Hrun|].
  destruct (recognize_cases _ _ _ Hrun)
    as [-> | (pts & cr & cc & ct & Hpts & Hn & Hsc & Hs)].
  { split; [reflexivity|]. split; [apply closedPath_In | discriminate]. }
  assert (Hsub : forall p, In p pts -> In p pointsRaw).
  { intros p Hp. eapply closedPath_In, rdp_In; eauto. }
  destruct Hs as [-> | (best & Hin & _ & ->)].
  { split; [reflexivity|]. split; [exact Hsub | discriminate]. }
  destruct (Scored_copies _ _ _ _ _ _ _ _ Hsc Hin) as [Hcol Hv].
  split; [exact Hcol|]. split; [auto|].
  intros points c Hshape.
  destruct Hsc as [P A closed HP HA Hcl Hr Hc Ht].
  destruct Hin as [<-|[<-|[<-|[]]]].
  - destruct (classifyRectangle_spec pts (closedPath pointsRaw) P A
                (bw (bbox (closedPath pointsRaw))) (bh (bbox (closedPath pointsRaw)))
                color)
      as (c0 & Hc0 & (x & y & W & H & Hsh & _) & _).
    rewrite Hr in Hc0. injection Hc0 as <-. congruence.
  - destruct (classifyCircle_spec pts (closedPath pointsRaw) P A
                (bw (bbox (closedPath pointsRaw))) (bh (bbox (closedPath pointsRaw)))
                closed color)
      as (c0 & Hc0 & Hcases).
    rewrite Hc in Hc0. injection Hc0 as <-.
    destruct Hcases as [(Hsh & _) | (x & y & r & Hsh & _)]; congruence.
  - destruct (classifyTriangle_spec pts P A color) as (c0 & Hc0 & Hcases).
    rewrite Ht in Hc0. injection Hc0 as <-.
    destruct Hcases as [(Hsh & _) | (vs & Hsh & a & b & k & (_ & _ & ->) & _)];
      [congruence|].
    rewrite Hshape in Hsh. now injection Hsh as -> _.
Qed.

(** X7: [recognize] invents nothing: the answer carries the colour it was
    given, every vertex of a triangle or of a free shape is a point of the
    stroke, and a triangle has exactly three vertices. *)
Theorem recognize_copies_stroke (pointsRaw : list point) (color : string) :
  exists s,
    recognize pointsRaw color = Ok s /\
    colorOf s = color /\
    (forall p, In p (verticesOf s) -> In p pointsRaw) /\
    (forall points c, s = triangle points c -> length points = 3%nat).
Proof. apply recognize_copies. Qed.

(** X6 on the stroke [S0], a rectangle. *)
Lemma recognize_needs_small_gap_witness :
  (3 <= length S0)%nat /\ 0 < closingGap S0 <= 8.
Proof.
  exact (recognize_needs_small_gap S0 black _ S0_recognize eq_refl).
Defined.

(** The closing point is a copy of the first, so the bounding box of the
    closed path is that of the stroke. *)
Lemma fold_left_Rmin_app (l : list R) (a x : R) :
  fold_left Rmin (l ++ [x]) a = Rmin (fold_left Rmin l a) x.
Proof. now rewrite fold_left_app. Qed.

Lemma fold_left_Rmax_app (l : list R) (a x : R) :
  fold_left Rmax (l ++ [x]) a = Rmax (fold_left Rmax l a) x.
Proof. now rewrite fold_left_app. Qed.

Lemma arrayMin_snoc_member (xs : list R) (x : R) :
  In x xs -> arrayMin (xs ++ [x]) = arrayMin xs.
Proof.
  intros Hx. pose proof (arrayMin_le xs x Hx) as Hle.
  destruct xs as [|a l]; [destruct Hx|].
  cbn [app arrayMin] in *. rewrite fold_left_Rmin_app. now apply Rmin_left.
Qed.

Lemma arrayMax_snoc_member (xs : list R) (x : R) :
  In x xs -> arrayMax (xs ++ [x]) = arrayMax xs.
Proof.
  intros Hx. pose proof (arrayMax_ge xs x Hx) as Hle.
  destruct xs as [|a l]; [destruct Hx|].
  cbn [app arrayMax] in *. rewrite fold_left_Rmax_app. now apply Rmax_left.
Qed.

Lemma bbox_closedPath (points : list point) :
  bbox (closedPath points) = bbox points.
Proof.
  unfold closedPath. destruct (Nat.ltb_spec (length points) 2) as [Hn|Hn];
    [reflexivity|].
  destruct (_ <=? _); [reflexivity|].
  destruct points as [|p l]; [simpl in Hn; lia|].
  unfold bbox. rewrite !map_app. cbn [hd map].
  change (fst p :: map fst l) with (map fst (p :: l)).
  change (snd p :: map snd l) with (map snd (p :: l)).
  rewrite !arrayMin_snoc_member, !arrayMax_snoc_member
    by (apply in_map; now left).
  reflexivity.
Qed.

Lemma classifyCircle_gate (pts rawClosed : list point) (P A w h : R)
  (closed : bool) (color color' : string) (c : ShapeCandidate) (x y rad : R) :
  classifyCircle pts rawClosed P A w h closed color = Ok c ->
  shape c = circle x y rad color' ->
  closed = true /\ 10 <= Rmin w h /\
  (6 < rad \/
   (x = minX (bbox rawClosed) + w / 2 /\ y = minY (bbox rawClosed) + h / 2 /\
    rad = Rmin w h / 2)) /\
  (0.4 < confidence c -> 0.75 <= 4 * PI * A / (orOne P * orOne P)).
Proof.
  unfold classifyCircle. intros Hrun Hshape.
  destruct (negb closed || (Rmin w h <? 10)) eqn:Egate.
  { injection Hrun as <-. discriminate. }
  apply orb_false_iff in Egate as [Hcl Hmin]. apply ltb_false in Hmin.
  apply negb_false_iff in Hcl.
  rewrite circularityOf_ok in Hrun. cbn [bind] in Hrun. cbv zeta in Hrun.
  destruct (fitCircle_ok pts) as (fit & Hfit). rewrite Hfit in Hrun.
  cbn [bind] in Hrun.
  split; [exact Hcl|]. split; [exact Hmin|].
  destruct fit as [f|].
  - destruct ((r f >? 6) && (stdRel f <? 0.15)) eqn:Efit;
      injection Hrun as <-; cbn [shape confidence] in *;
      injection Hshape as <- <- <- _.
    + apply andb_true_iff in Efit as [Hr _]. apply gtb_true in Hr.
      split; [now left|]. intros Hc.
      destruct (_ <? 0.75) eqn:E; [lra | now apply ltb_false in E].
    + split; [right; auto|]. intros Hc.
      destruct (_ <? 0.75) eqn:E; [lra | now apply ltb_false in E].
  - injection Hrun as <-; cbn [shape confidence] in *;
      injection Hshape as <- <- <- _.
    split; [right; auto|]. intros Hc.
    destruct (_ <? 0.75) eqn:E; [lra | now apply ltb_false in E].
Qed.

Lemma Scored_circle (pointsRaw rawClosed pts : list point) (color color' : string)
  (cr cc ct c : ShapeCandidate) (x y rad : R) :
  Scored pointsRaw rawClosed pts color cr cc ct -> In c [cr; cc; ct] ->
  shape c = circle x y rad color' -> c = cc.
Proof.
  intros [P A closed HP HA Hcl Hr Hc Ht] Hin Hshape.
  destruct Hin as [<-|[<-|[<-|[]]]]; [|reflexivity|]; exfalso.
  - destruct (classifyRectangle_spec pts rawClosed P A
                (bw (bbox rawClosed)) (bh (bbox rawClosed)) color)
      as (c0 & Hc0 & (x0 & y0 & W & H & Hsh & _) & _).
    rewrite Hr in Hc0. injection Hc0 as <-. congruence.
  - destruct (classifyTriangle_spec pts P A color) as (c0 & Hc0 & Hcases).
    rewrite Ht in Hc0. injection Hc0 as <-.
    destruct Hcases as [(Hsh & _) | (vs & Hsh & _)]; congruence.
Qed.

(** X8: when [recognize] answers with a circle, the stroke is closed in
    the sense of [pathClosed], its box is at least 10 wide and 10 high, the
    radius is at least 5, and the simplified polygon has a circularity of
    at least 0.75. *)
Theorem recognize_circle_gate (pointsRaw : list point) (color color' : string)
  (x y rad : R) :
  recognize pointsRaw color = Ok (circle x y rad color') ->
  pathClosed pointsRaw = Ok true /\
  10 <= bw (bbox pointsRaw) /\ 10 <= bh (bbox pointsRaw) /\
  5 <= rad /\
  exists pts P A,
    rdp (closedPath pointsRaw) (epsilonOf (closedPath pointsRaw)) = Ok pts /\
    polygonPerimeter pts = Ok P /\ polygonArea pts = Ok A /\
    0.75 * (P * P) <= 4 * PI * A.
Proof.
  intros Hrun.
  destruct (recognize_cases _ _ _ Hrun)
    as [Hs | (pts & cr & cc & ct & Hpts & Hn & Hsc & Hs)]; [discriminate|].
  destruct Hs as [Hs | (best & Hin & Hconf & Hs)]; [discriminate|].
  symmetry in Hs.
  pose proof (Scored_circle _ _ _ _ _ _ _ _ _ _ _ _ Hsc Hin Hs) as ->.
  destruct Hsc as [P A closed HP HA Hcl Hr Hc Ht].
  destruct (classifyCircle_gate _ _ _ _ _ _ _ _ _ _ _ _ _ Hc Hs)
    as (-> & Hmin & Hrad & Hcirc).
  rewrite bbox_closedPath in Hmin, Hrad.
  pose proof (Rmin_l (bw (bbox pointsRaw)) (bh (bbox pointsRaw))).
  pose proof (Rmin_r (bw (bbox pointsRaw)) (bh (bbox pointsRaw))).
  split; [exact Hcl|]. split; [lra|]. split; [lra|].
  split; [destruct Hrad as [|(_ & _ & ->)]; lra|].
  exists pts, P, A. repeat (split; [assumption|]).
  specialize (Hcirc Hconf).
  destruct (polygonPerimeter_ok pts) as (P' & HP' & HPpos).
  rewrite HP in HP'. injection HP' as <-.
  destruct (Req_dec P 0) as [->|HP0].
  - rewrite orOne_0 in Hcirc. lra.
  - rewrite orOne_id in Hcirc by exact HP0.
    assert (0 < P * P) by nra.
    apply (Rmult_le_compat_r (P * P)) in Hcirc; [|lra].
    replace (4 * PI * A / (P * P) * (P * P)) with (4 * PI * A) in Hcirc
      by (field; exact HP0).
    exact Hcirc.
Qed.

(** ** The rhombus [D0] *)

Lemma D0_perimeter : polygonPerimeter D0 = Ok 75.
Proof.
  unfold polygonPerimeter, D0. unroll.
  repeat first [eval_hypot 20 | eval_hypot 15].
  f_equal. lra.
Qed.

Lemma D0_area : polygonArea D0 = Ok 426.
Proof.
  unfold polygonArea, D0. unroll. eval_abs. f_equal. lra.
Qed.

Lemma D0_ensureClosed : ensureClosed D0 = Ok D0.
Proof.
  unfold ensureClosed, D0. unroll. eval_hypot 7. now eval_cmp.
Qed.

Lemma D0_bbox : bbox D0 = mkBBox 0 0 32 24 32 24.
Proof.
  unfold bbox, D0, arrayMin, arrayMax. unroll. repeat eval_minmax.
  f_equal; lra.
Qed.

Lemma D0_epsilon : epsilonOf D0 = 3.
Proof.
  unfold epsilonOf. rewrite D0_bbox. cbn [bw bh].
  pose proof (hypot_le_sum 32 24 ltac:(lra) ltac:(lra)).
  apply Rmax_left. lra.
Qed.

Lemma D0_pathClosed : pathClosed D0 = Ok true.
Proof.
  rewrite pathClosed_eq. f_equal. unfold D0 at 1. unroll.
  apply ltb_true. unfold closingGap, D0. cbn [hd last fst snd].
  eval_hypot 7. pose proof (Rmax_l 10 (polylineLength D0 * 0.05)).
  unfold D0 in *. lra.
Qed.

Lemma D0_rdp_left :
  rdp [(16, 0); (32, 12); (16, 24)] 3 = Ok [(16, 0); (32, 12); (16, 24)].
Proof.
  rewrite rdp_unfold. unfold rdpScan, rdpDistance, lineDistance. unroll.
  repeat eval_hypot 24. repeat eval_step.
  unfold slice, sliceFrom, dropLast. unroll. reflexivity.
Qed.

Lemma D0_rdp_right :
  rdp [(16, 24); (0, 12); (9, 0)] 3 = Ok [(16, 24); (0, 12); (9, 0)].
Proof.
  rewrite rdp_unfold. unfold rdpScan, rdpDistance, lineDistance. unroll.
  repeat eval_hypot 25. repeat eval_step.
  unfold slice, sliceFrom, dropLast. unroll. reflexivity.
Qed.

Lemma D0_rdp : rdp D0 3 = Ok D0.
Proof.
  unfold D0.
  rewrite rdp_unfold. unfold rdpScan, rdpDistance, lineDistance. unroll.
  repeat eval_hypot 7. repeat eval_step.
  unfold slice, sliceFrom, dropLast. unroll.
  rewrite D0_rdp_left, D0_rdp_right. reflexivity.
Qed.

Lemma D0_circularity_bounds : 0.9 < D0_circularity < 1.3.
Proof.
  unfold D0_circularity. pose proof PI2_3_2. pose proof PI_4. lra.
Qed.

Lemma D0_circularityOf : circularityOf 75 426 = Ok D0_circularity.
Proof.
  rewrite circularityOf_ok. rewrite orOne_id by lra. reflexivity.
Qed.

Lemma D0_rectangle :
  exists c, classifyRectangle D0 D0 75 426 32 24 black = Ok c /\ confidence c = 0.
Proof.
  unfold classifyRectangle. rewrite D0_circularityOf, D0_bbox.
  pose proof D0_circularity_bounds.
  cbn [minX minY]. repeat eval_step.
  eexists. split; reflexivity.
Qed.

Lemma D0_circle :
  classifyCircle D0 D0 75 426 32 24 true black
  = Ok (mkCandidate (circle 16 12 12 black) (D0_circularity * 0.9)).
Proof.
  unfold classifyCircle. rewrite D0_circularityOf, D0_bbox.
  pose proof D0_circularity_bounds.
  repeat eval_step.
  replace (fitCircle D0) with (Ok (@None CircleFit)) by reflexivity.
  cbn [bind minX minY]. do 2 f_equal. f_equal; lra.
Qed.

Lemma D0_scored :
  exists cr ct,
    Scored D0 D0 D0 black cr
      (mkCandidate (circle 16 12 12 black) (D0_circularity * 0.9)) ct /\
    confidence cr = 0 /\ confidence ct < 0.7.
Proof.
  destruct D0_rectangle as (cr & Hcr & Hconf).
  destruct (classifyTriangle_spec D0 75 426 black) as (ct & Hct & _).
  exists cr, ct. split; [|split; [exact Hconf|]].
  - apply (scored _ _ _ _ _ _ _ 75 426 true);
      rewrite ?D0_bbox; cbn [bw bh];
      auto using D0_perimeter, D0_area, D0_pathClosed, D0_circle.
  - pose proof D0_circularity_bounds.
    destruct (classifyTriangle_confidence _ _ _ _ _ _ Hct D0_circularityOf); lra.
Qed.

(** A circle candidate that beats the rectangle and the triangle candidate
    is the answer. *)
Lemma arbitrate_circle (cr cc ct : ShapeCandidate) (pts : list point)
  (color : string) :
  0.4 < confidence cc ->
  confidence cr < confidence cc -> confidence ct <= confidence cc ->
  arbitrate [cr; cc; ct] pts color = shape cc.
Proof.
  intros Hcc Hcr Hct.
  assert (Hfirst : firstBest (filter survives [cr; cc; ct]) cc).
  { exists (filter survives [cr]), (filter survives [ct]). split; [|split].
    - cbn [filter app]. rewrite (proj2 (survives_true cc) Hcc).
      now destruct (survives cr).
    - intros c Hc. apply filter_In in Hc as [[<-|[]] _]. assumption.
    - intros c Hc. apply filter_In in Hc as [[<-|[]] _]. assumption. }
  destruct (arbitrate_cases [cr; cc; ct] pts color)
    as [(Hnone & _) | (b & Hb & ->)].
  - destruct Hfirst as (l1 & l2 & E & _). rewrite Hnone in E. now destruct l1.
  - f_equal. apply (firstBest_unique _ _ _ Hb Hfirst).
Qed.

Lemma D0_recognize : recognize D0 black = Ok (circle 16 12 12 black).
Proof.
  destruct D0_scored as (cr & ct & Hsc & Hcr & Hct).
  destruct (recognize_long D0 D0 D0 black) as (cr' & cc' & ct' & Hsc' & Hrun).
  - exact D0_ensureClosed.
  - rewrite D0_epsilon. exact D0_rdp.
  - simpl. lia.
  - destruct (Scored_unique _ _ _ _ _ _ _ _ _ _ Hsc Hsc') as (<- & <- & <-).
    rewrite Hrun. f_equal.
    pose proof D0_circularity_bounds.
    rewrite arbitrate_circle; [reflexivity | | |]; cbn [confidence]; lra.
Qed.

(** X8 on the rhombus [D0], which is answered as the circle inscribed in
    the short side of its box. *)
Lemma recognize_circle_gate_witness :
  pathClosed D0 = Ok true /\
  10 <= bw (bbox D0) /\ 10 <= bh (bbox D0) /\
  5 <= 12 /\
  exists pts P A,
    rdp (closedPath D0) (epsilonOf (closedPath D0)) = Ok pts /\
    polygonPerimeter pts = Ok P /\ polygonArea pts = Ok A /\
    0.75 * (P * P) <= 4 * PI * A.
Proof.
  exact (recognize_circle_gate D0 black black 16 12 12 D0_recognize).
Defined.

(** X9: whenever [recognize] or the sequential [recognize] reaches its
    classifiers, that is, whenever the simplified closed path has three or
    more points, [ensureClosed] has added nothing to the stroke and
    [pathClosed] holds of it: the test [!closed] of [classifyCircle] never
    fires. *)
Theorem classifiers_always_closed (pointsRaw pts : list point) :
  rdp (closedPath pointsRaw) (epsilonOf (closedPath pointsRaw)) = Ok pts ->
  (3 <= length pts)%nat ->
  closedPath pointsRaw = pointsRaw /\ pathClosed pointsRaw = Ok true.
Proof.
  intros Hpts Hn.
  assert (Hnot : ~ ((length pointsRaw < 3)%nat \/ closingGap pointsRaw = 0 \/
                    8 < closingGap pointsRaw)).
  { intros Hcase. destruct (rdp_collapse_cases _ Hcase) as (pts' & Hpts' & Hn').
    rewrite Hpts in Hpts'. injection Hpts' as <-. lia. }
  assert (Hgap : closingGap pointsRaw <= 8).
  { destruct (Rle_dec (closingGap pointsRaw) 8) as [|Hgt]; [assumption|].
    apply Rnot_le_lt in Hgt. tauto. }
  split.
  - unfold closedPath. destruct (_ <? 2)%nat; [reflexivity|].
    now rewrite (proj2 (leb_true _ _) Hgap).
  - rewrite pathClosed_eq. f_equal.
    destruct (Nat.ltb_spec (length pointsRaw) 3); [tauto|].
    apply ltb_true.
    pose proof (Rmax_l 10 (polylineLength pointsRaw * 0.05)). lra.
Qed.

(** X9 on the stroke [S0]. *)
Lemma classifiers_always_closed_witness :
  closedPath S0 = S0 /\ pathClosed S0 = Ok true.
Proof.
  apply (classifiers_always_closed S0 S0);
    [rewrite S0_closedPath; exact S0_simplified | simpl; lia].
Defined.

Lemma classifyRectangle_box (pts rawClosed : list point) (P A w h : R)
  (color color' : string) (c : ShapeCandidate) (x y W H : R) :
  classifyRectangle pts rawClosed P A w h color = Ok c ->
  shape c = rect x y W H color' ->
  x + W / 2 = minX (bbox rawClosed) + w / 2 /\
  y + H / 2 = minY (bbox rawClosed) + h / 2 /\
  ((W = w /\ H = h /\ 0.2 <= Rabs (w / orOne h - 1)) \/
   (W = Rmin w h /\ H = Rmin w h /\ Rabs (w / orOne h - 1) < 0.2)).
Proof.
  unfold classifyRectangle. intros Hrun Hshape.
  rewrite divide_Ok in Hrun by apply Rmax_1_nonzero.
  rewrite circularityOf_ok in Hrun. cbn [bind] in Hrun. cbv zeta in Hrun.
  rewrite divide_Ok in Hrun by apply orOne_neq_0. cbn [bind] in Hrun.
  destruct (Rabs _ <? 0.2) eqn:E; injection Hrun as <-;
    cbn [shape] in Hshape; injection Hshape as <- <- <- <- _.
  - apply ltb_true in E. unfold bbox. cbn [minX minY].
    split; [lra|]. split; [lra|]. right. auto.
  - apply ltb_false in E. unfold bbox. cbn [minX minY].
    split; [lra|]. split; [lra|]. left. auto.
Qed.

Lemma Scored_rect (pointsRaw rawClosed pts : list point) (color color' : string)
  (cr cc ct c : ShapeCandidate) (x y W H : R) :
  Scored pointsRaw rawClosed pts color cr cc ct -> In c [cr; cc; ct] ->
  shape c = rect x y W H color' -> c = cr.
Proof.
  intros [P A closed HP HA Hcl Hr Hc Ht] Hin Hshape.
  destruct Hin as [<-|[<-|[<-|[]]]]; [reflexivity| |]; exfalso.
  - destruct (classifyCircle_spec pts rawClosed P A
                (bw (bbox rawClosed)) (bh (bbox rawClosed)) closed color)
      as (c0 & Hc0 & Hcases).
    rewrite Hc in Hc0. injection Hc0 as <-.
    destruct Hcases as [(Hsh & _) | (x0 & y0 & r0 & Hsh & _)]; congruence.
  - destruct (classifyTriangle_spec pts P A color) as (c0 & Hc0 & Hcases).
    rewrite Ht in Hc0. injection Hc0 as <-.
    destruct Hcases as [(Hsh & _) | (vs & Hsh & _)]; congruence.
Qed.

(** X10: when [recognize] answers with a rectangle, it lies inside the box
    of the stroke and has the centre of that box; it is the box itself or
    the square on its shorter side.  Which of the two is decided by the
    test of the aspect ratio against [0.2], and that test is left out here:
    at the boundary (a 60 x 50 box) binary64 and the real numbers decide
    differently. *)
Theorem recognize_rect_inside_bbox (pointsRaw : list point) (color color' : string)
  (x y w h : R) :
  recognize pointsRaw color = Ok (rect x y w h color') ->
  let b := bbox pointsRaw in
  (minX b <= x /\ x + w <= maxX b /\ minY b <= y /\ y + h <= maxY b) /\
  (x + w / 2 = (minX b + maxX b) / 2 /\ y + h / 2 = (minY b + maxY b) / 2) /\
  ((w = bw b /\ h = bh b) \/ (w = Rmin (bw b) (bh b) /\ h = w)).
Proof.
  intros Hrun b.
  destruct (recognize_cases _ _ _ Hrun)
    as [Hs | (pts & cr & cc & ct & Hpts & Hn & Hsc & Hs)]; [discriminate|].
  destruct Hs as [Hs | (best & Hin & Hconf & Hs)]; [discriminate|].
  symmetry in Hs.
  assert (Hvalid : 0 < w /\ 0 < h).
  { pose proof (Scored_valid _ _ _ _ _ _ _ _ Hsc
                  (fun p => rdp_In _ _ _ p Hpts) Hin Hconf) as Hv.
    now rewrite Hs in Hv. }
  pose proof (Scored_rect _ _ _ _ _ _ _ _ _ _ _ _ _ Hsc Hin Hs) as ->.
  destruct Hsc as [P A closed HP HA Hcl Hr Hc Ht].
  destruct (classifyRectangle_box _ _ _ _ _ _ _ _ _ _ _ _ _ Hr Hs)
    as (Hx & Hy & Hdims).
  rewrite bbox_closedPath in Hx, Hy, Hdims. fold b in Hx, Hy, Hdims.
  assert (Hbw : bw b = maxX b - minX b) by reflexivity.
  assert (Hbh : bh b = maxY b - minY b) by reflexivity.
  pose proof (Rmin_l (bw b) (bh b)). pose proof (Rmin_r (bw b) (bh b)).
  assert (Hh0 : orOne (bh b) = bh b).
  { apply orOne_id. intros E. destruct Hdims as [(_ & -> & _) | (_ & -> & _)];
      lra. }
  clear Hh0.
  destruct Hdims as [(-> & -> & _) | (-> & -> & _)].
  - split; [lra|]. split; [lra|]. left. split; reflexivity.
  - split; [lra|]. split; [lra|]. right. split; reflexivity.
Qed.

(** X10 on the stroke [S0]. *)
Lemma recognize_rect_inside_bbox_witness :
  let b := bbox S0 in
  (minX b <= 0 /\ 0 + 12 <= maxX b /\ minY b <= 0 /\ 0 + 40 <= maxY b) /\
  (0 + 12 / 2 = (minX b + maxX b) / 2 /\ 0 + 40 / 2 = (minY b + maxY b) / 2) /\
  ((12 = bw b /\ 40 = bh b) \/ (12 = Rmin (bw b) (bh b) /\ 40 = 12)).
Proof.
  exact (recognize_rect_inside_bbox S0 black black 0 0 12 40 S0_recognize).
Defined.

Lemma lineDistance_eq (sx sy ex ey x y : R) :
  lineDistance sx sy ex ey x y = Ok (distToLine (sx, sy) (ex, ey) (x, y)).
Proof. unfold lineDistance. apply divide_Ok, orOne_neq_0. Qed.

Lemma distToLine_nonneg (a b p : point) : 0 <= distToLine a b p.
Proof.
  unfold distToLine. apply Rmult_le_pos; [apply Rabs_pos|].
  left. apply Rinv_0_lt_compat, orOne_pos, hypot_nonneg.
Qed.

Lemma distToLine_start (a b : point) : distToLine a b a = 0.
Proof.
  unfold distToLine.
  replace ((snd b - snd a) * fst a - (fst b - fst a) * snd a
           + fst b * snd a - snd b * fst a) with 0 by ring.
  rewrite Rabs_R0. unfold Rdiv. ring.
Qed.

Lemma distToLine_end (a b : point) : distToLine a b b = 0.
Proof.
  unfold distToLine.
  replace ((snd b - snd a) * fst b - (fst b - fst a) * snd b
           + fst b * snd a - snd b * fst a) with 0 by ring.
  rewrite Rabs_R0. unfold Rdiv. ring.
Qed.

Lemma rdpDistance_bound (points : list point) (d : R) :
  (3 <= length points)%nat -> rdpDistance points = Ok d ->
  forall j, (1 <= j < length points - 1)%nat ->
    distToLine (hd (0, 0) points) (last points (0, 0)) (nth j points (0, 0)) <= d.
Proof.
  intros Hn Hrun. unfold rdpDistance in Hrun.
  destruct (Nat.ltb_spec (length points) 3); [lia|].
  destruct (get_first_last points) as [E1 E2].
  { destruct points; [simpl in Hn; lia | discriminate]. }
  rewrite E1, E2 in Hrun. cbn [bind] in Hrun.
  set (s := hd (0, 0) points) in *. set (e := last points (0, 0)) in *.
  destruct s as [sx sy] eqn:Es, e as [ex ey] eqn:Ee.
  destruct (forRange_counter_inv
    (fun i m => forall j, (1 <= j < i)%nat ->
       distToLine (sx, sy) (ex, ey) (nth j points (0, 0)) <= m)
    1 (length points - 1)
    (fun i maxD =>
      '(x, y) <- get points i ;;
      d <- lineDistance sx sy ex ey x y ;;
      Ok (if d >? maxD then d else maxD)) 0) as (m & Hm & Hinv).
  - lia.
  - intros i m Hi Hinv. get_step points i.
    destruct (nth i points (0, 0)) as [x y] eqn:Ei.
    rewrite lineDistance_eq. cbn [bind]. eexists. split; [reflexivity|].
    intros j Hj. destruct (Nat.eq_dec j i) as [->|Hne].
    + rewrite Ei. destruct (_ >? m) eqn:E; [lra | now apply gtb_false in E].
    + specialize (Hinv j ltac:(lia)).
      destruct (_ >? m) eqn:E; [apply gtb_true in E; lra | exact Hinv].
  - intros j Hj. lia.
  - rewrite Hm in Hrun. injection Hrun as <-. exact Hinv.
Qed.

Lemma rdpScan_bound (points : list point) (sx sy ex ey maxD : R) (idx : Z) :
  (3 <= length points)%nat -> rdpScan points sx sy ex ey = Ok (maxD, idx) ->
  forall j, (1 <= j < length points - 1)%nat ->
    distToLine (sx, sy) (ex, ey) (nth j points (0, 0)) <= maxD.
Proof.
  intros Hn Hrun. unfold rdpScan in Hrun.
  destruct (forRange_counter_inv
    (fun i '(m, _) => forall j, (1 <= j < i)%nat ->
       distToLine (sx, sy) (ex, ey) (nth j points (0, 0)) <= m)
    1 (length points - 1)
    (fun i '(maxD, idx) =>
       '(x, y) <- get points i ;;
       d <- lineDistance sx sy ex ey x y ;;
       Ok (if d >? maxD then (d, Z.of_nat i) else (maxD, idx)))
    (-1, (-1)%Z)) as ([m k] & Hm & Hinv).
  - lia.
  - intros i [m k] Hi Hinv. get_step points i.
    destruct (nth i points (0, 0)) as [x y] eqn:Ei.
    rewrite lineDistance_eq. cbn [bind]. eexists. split; [reflexivity|].
    destruct (_ >? m) eqn:E; intros j Hj;
      (destruct (Nat.eq_dec j i) as [->|Hne];
       [rewrite Ei | specialize (Hinv j ltac:(lia))]).
    + lra.
    + apply gtb_true in E. lra.
    + now apply gtb_false in E.
    + exact Hinv.
  - intros j Hj. lia.
  - rewrite Hm in Hrun. injection Hrun as <- _. exact Hinv.
Qed.

Lemma withinTolerance_ends (epsilon : R) (points : list point) :
  (2 <= length points)%nat -> 0 <= epsilon ->
  (forall j, (1 <= j < length points - 1)%nat ->
     distToLine (hd (0, 0) points) (last points (0, 0)) (nth j points (0, 0))
     <= epsilon) ->
  withinTolerance epsilon [hd (0, 0) points; last points (0, 0)] points.
Proof.
  intros Hn Heps Hmid p Hp.
  exists (hd (0, 0) points), (last points (0, 0)).
  split; [exists [], []; reflexivity|].
  apply (In_nth _ _ (0, 0)) in Hp as (j & Hj & <-).
  destruct (Nat.eq_dec j 0) as [->|H0].
  { replace (nth 0 points (0, 0)) with (hd (0, 0) points)
      by (destruct points; reflexivity).
    now rewrite distToLine_start. }
  destruct (Nat.eq_dec j (length points - 1)) as [->|Hl].
  { replace (nth (length points - 1) points (0, 0)) with (last points (0, 0)).
    - now rewrite distToLine_end.
    - assert (Hne : points <> []) by (destruct points; [simpl in Hn; lia | discriminate]).
      pose proof (get_last points (0, 0) Hne) as E.
      rewrite (get_in_range points _ (0, 0)) in E by lia. now injection E. }
  apply Hmid. lia.
Qed.

Lemma adjacent_join (left right : list point) (a b : point) :
  (2 <= length left)%nat -> right <> [] ->
  last left (0, 0) = hd (0, 0) right ->
  adjacent left a b \/ adjacent right a b ->
  adjacent (removelast left ++ right) a b.
Proof.
  intros HL HR Hmeet [(l1 & l2 & ->) | (l1 & l2 & ->)].
  - destruct l2 as [|c l2].
    + replace (l1 ++ [a; b]) with ((l1 ++ [a]) ++ [b]) in *
        by now rewrite <- app_assoc.
      rewrite removelast_last. rewrite last_last in Hmeet.
      destruct right as [|q right]; [congruence|]. cbn [hd] in Hmeet. subst q.
      exists l1, right. now rewrite <- app_assoc.
    + exists l1, (removelast (c :: l2) ++ right).
      replace (l1 ++ a :: b :: c :: l2) with ((l1 ++ [a; b]) ++ c :: l2)
        by now rewrite <- app_assoc.
      rewrite removelast_app by discriminate.
      now rewrite <- !app_assoc.
  - exists (removelast left ++ l1), l2. now rewrite <- app_assoc.
Qed.

Lemma rdpFuel_tolerance (fuel : nat) :
  forall points epsilon out,
  (length points <= fuel)%nat -> (2 <= length points)%nat -> 0 <= epsilon ->
  rdpFuel fuel points epsilon = Ok out -> withinTolerance epsilon out points.
Proof.
  induction fuel as [|fuel IH]; intros points epsilon out Hfuel Hn Heps Hrun;
    [lia|].
  assert (Hne : points <> []) by (destruct points; [simpl in Hn; lia | discriminate]).
  cbn [rdpFuel] in Hrun.
  destruct (Nat.leb_spec (length points) 2) as [H2|H2].
  { injection Hrun as <-.
    destruct points as [|a [|b [|c l]]]; simpl in Hn, H2; try lia.
    intros p Hp. exists a, b. split; [exists [], []; reflexivity|].
    destruct Hp as [<-|[<-|[]]];
      [rewrite distToLine_start | rewrite distToLine_end]; exact Heps. }
  destruct (get_first_last points Hne) as [E1 E2].
  rewrite E1, E2 in Hrun. cbn [bind] in Hrun.
  pose proof (rdpDistance_bound points) as Hdist.
  pose proof (fun maxD idx => rdpScan_bound points
    (fst (hd (0, 0) points)) (snd (hd (0, 0) points))
    (fst (last points (0, 0))) (snd (last points (0, 0))) maxD idx) as Hscan.
  rewrite <- !surjective_pairing in Hscan.
  pose proof (withinTolerance_ends epsilon points ltac:(lia) Heps) as Hends.
  destruct (hd (0, 0) points) as [sx sy], (last points (0, 0)) as [ex ey].
  cbn [fst snd] in Hscan.
  destruct (rdpScan_ok points sx sy ex ey ltac:(lia))
    as (maxD & idx & Hs & Hidx & _).
  rewrite Hs in Hrun. cbn [bind] in Hrun.
  destruct (rdpDistance_ok points) as (dist & Hd & _).
  rewrite Hd in Hrun. cbn [bind] in Hrun.
  destruct (dist <? epsilon) eqn:Elt.
  { injection Hrun as <-. apply ltb_true in Elt. apply Hends.
    intros j Hj. specialize (Hdist dist ltac:(lia) Hd j Hj). lra. }
  destruct (maxD >? epsilon) eqn:Egt.
  2:{ cbn [andb] in Hrun. injection Hrun as <-. apply gtb_false in Egt.
      apply Hends. intros j Hj. specialize (Hscan maxD idx ltac:(lia) Hs j Hj). lra. }
  destruct (Z.ltb_spec 0 idx); [|lia]. cbn [andb] in Hrun.
  unfold slice, sliceFrom, dropLast in Hrun. cbn [skipn] in Hrun.
  rewrite Nat.sub_0_r in Hrun.
  replace (Z.to_nat (idx + 1)) with (S (Z.to_nat idx)) in Hrun by lia.
  set (i := Z.to_nat idx) in *.
  assert (Hi : (1 <= i < length points - 1)%nat) by lia.
  destruct (rdpFuel_spec fuel (firstn (S i) points) epsilon)
    as (left & HL & [_ _ _ L4 L5]).
  { rewrite length_firstn. lia. }
  destruct (rdpFuel_spec fuel (skipn i points) epsilon)
    as (right & HR & [_ _ R3 _ R5]).
  { rewrite length_skipn. lia. }
  rewrite HL, HR in Hrun. cbn [bind] in Hrun. injection Hrun as <-.
  rewrite length_firstn in L5. rewrite length_skipn in R5.
  assert (HLn : (2 <= length left)%nat) by (apply L5; lia).
  assert (HRn : (2 <= length right)%nat) by (apply R5; lia).
  assert (Hmeet : last left (0, 0) = hd (0, 0) right).
  { rewrite L4, R3. rewrite (firstn_snoc (0, 0)) by lia. rewrite last_last.
    rewrite <- (firstn_skipn i points) at 1.
    rewrite app_nth2 by (rewrite length_firstn; lia).
    rewrite length_firstn. replace (i - Nat.min i (length points))%nat with 0%nat by lia.
    destruct (skipn i points); reflexivity. }
  intros p Hp.
  assert (Hside : In p (firstn (S i) points) \/ In p (skipn i points)).
  { rewrite <- (firstn_skipn i points) in Hp.
    apply in_app_or in Hp as [Hp|Hp]; [left | now right].
    rewrite (firstn_snoc (0, 0)) by lia. apply in_or_app. now left. }
  assert (HLf : (length (firstn (S i) points) <= fuel)%nat /\
                (2 <= length (firstn (S i) points))%nat)
    by (rewrite length_firstn; lia).
  assert (HRf : (length (skipn i points) <= fuel)%nat /\
                (2 <= length (skipn i points))%nat)
    by (rewrite length_skipn; lia).
  destruct Hside as [Hp'|Hp'].
  - destruct (IH _ _ _ (proj1 HLf) (proj2 HLf) Heps HL p Hp')
      as (a & b & Hadj & Hab).
    exists a, b. split; [|exact Hab].
    apply adjacent_join; auto. destruct right; [simpl in HRn; lia | discriminate].
  - destruct (IH _ _ _ (proj1 HRf) (proj2 HRf) Heps HR p Hp')
      as (a & b & Hadj & Hab).
    exists a, b. split; [|exact Hab].
    apply adjacent_join; auto. destruct right; [simpl in HRn; lia | discriminate].
Qed.

(** X11: [rdp] keeps every point of a path of two or more points within the
    tolerance of its answer: each point is, by the distance [rdp] itself
    measures, at most [epsilon] from the line through two neighbours of the
    simplified path. *)
Theorem rdp_within_tolerance (points : list point) (epsilon : R) :
  (2 <= length points)%nat -> 0 <= epsilon ->
  exists out,
    rdp points epsilon = Ok out /\
    forall p, In p points ->
      exists a b, adjacent out a b /\ distToLine a b p <= epsilon.
Proof.
  intros Hn Heps. destruct (rdp_spec points epsilon) as (out & Hrun & _).
  exists out. split; [exact Hrun|].
  apply (rdpFuel_tolerance (length points)); auto.
Qed.

(** X11 on the stroke [S0]. *)
Lemma rdp_within_tolerance_witness :
  exists out,
    rdp S0 3 = Ok out /\
    forall p, In p S0 ->
      exists a b, adjacent out a b /\ distToLine a b p <= 3.
Proof.
  apply (rdp_within_tolerance S0 3); [simpl; lia | lra].
Defined.

(** The sums of [fitCircle] over points of one circle: with [u] and [v] the
    centred coordinates and [(a', b')] the centred centre,
    [u^2 + v^2 = 2 a' u + 2 b' v + c] holds at every point, and the sums of
    third powers are combinations of the sums of second powers. *)
Lemma fitMoments_on_circle (mx my a' b' c : R) (points : list point) :
  (forall p, In p points ->
     (fst p - mx) * (fst p - mx) + (snd p - my) * (snd p - my)
     = 2 * a' * (fst p - mx) + 2 * b' * (snd p - my) + c) ->
  forall S0,
  let S := fold_left (fun S '(x, y) =>
      let u := x - mx in
      let v := y - my in
      mkSums (Suu S + u * u) (Suv S + u * v) (Svv S + v * v)
             (Suuu S + u * u * u) (Suvv S + u * v * v) (Svvv S + v * v * v)
             (Suuv S + u * u * v)) points S0 in
  (Suuu S + Suvv S) - (Suuu S0 + Suvv S0)
  = 2 * a' * (Suu S - Suu S0) + 2 * b' * (Suv S - Suv S0)
    + c * fold_right Rplus 0 (map (fun p => fst p - mx) points) /\
  (Svvv S + Suuv S) - (Svvv S0 + Suuv S0)
  = 2 * a' * (Suv S - Suv S0) + 2 * b' * (Svv S - Svv S0)
    + c * fold_right Rplus 0 (map (fun p => snd p - my) points).
Proof.
  induction points as [|[x y] l IH]; intros Hon S0.
  - cbn. split; ring.
  - cbn [fold_left map fold_right].
    destruct (IH (fun p Hp => Hon p (or_intror Hp))
      (mkSums (Suu S0 + (x - mx) * (x - mx)) (Suv S0 + (x - mx) * (y - my))
              (Svv S0 + (y - my) * (y - my))
              (Suuu S0 + (x - mx) * (x - mx) * (x - mx))
              (Suvv S0 + (x - mx) * (y - my) * (y - my))
              (Svvv S0 + (y - my) * (y - my) * (y - my))
              (Suuv S0 + (x - mx) * (x - mx) * (y - my)))) as [H1 H2].
    cbn [Suu Suv Svv Suuu Suvv Svvv Suuv] in H1, H2.
    pose proof (Hon (x, y) (or_introl eq_refl)) as Hp. cbn [fst snd] in *.
    set (u := x - mx) in *. set (v := y - my) in *.
    assert (Hu : u * u * u + u * v * v = u * (2 * a' * u + 2 * b' * v + c))
      by (rewrite <- Hp; ring).
    assert (Hv : v * v * v + u * u * v = v * (2 * a' * u + 2 * b' * v + c))
      by (rewrite <- Hp; ring).
    split; lra.
Qed.

Lemma sum_centred (xs : list R) :
  xs <> [] -> fold_right Rplus 0 (map (fun x => x - mean xs) xs) = 0.
Proof.
  intros Hne.
  assert (Hn : INR (length xs) <> 0).
  { apply not_0_INR. destruct xs; [congruence | simpl; lia]. }
  assert (H : forall m l, fold_right Rplus 0 (map (fun x => x - m) l)
                          = fold_right Rplus 0 l - INR (length l) * m).
  { intros m l. induction l as [|x l IH]; [simpl; ring|].
    cbn [map fold_right length]. rewrite S_INR, IH. ring. }
  rewrite H. unfold mean. field. exact Hn.
Qed.

Lemma fitCenter_on_circle (points : list point) (a b rho : R) :
  points <> [] -> normalDen points <> 0 ->
  (forall p, In p points -> euclid p (a, b) = rho) ->
  fitCenter points = (a, b).
Proof.
  intros Hne Hden Hon.
  set (mx := mean (map fst points)). set (my := mean (map snd points)).
  assert (Hcirc : forall p, In p points ->
     (fst p - mx) * (fst p - mx) + (snd p - my) * (snd p - my)
     = 2 * (a - mx) * (fst p - mx) + 2 * (b - my) * (snd p - my)
       + (rho * rho - (a - mx) * (a - mx) - (b - my) * (b - my))).
  { intros p Hp. specialize (Hon p Hp). unfold euclid in Hon. cbn [fst snd] in Hon.
    assert (Hsq : rho * rho
                  = (fst p - a) * (fst p - a) + (snd p - b) * (snd p - b)).
    { rewrite <- Hon. rewrite sqrt_sqrt; [reflexivity|].
      pose proof (Rle_0_sqr (fst p - a)). pose proof (Rle_0_sqr (snd p - b)).
      unfold Rsqr in *. lra. }
    rewrite Hsq. ring. }
  destruct (fitMoments_on_circle mx my _ _ _ points Hcirc (mkSums 0 0 0 0 0 0 0))
    as [H1 H2].
  cbn zeta in H1, H2. fold (fitMoments mx my points) in H1, H2.
  cbn [Suu Suv Svv Suuu Suvv Svvv Suuv] in H1, H2.
  assert (Hx : fold_right Rplus 0 (map (fun p : point => fst p - mx) points) = 0).
  { rewrite <- (map_map fst (fun x => x - mx)). apply sum_centred.
    destruct points; [congruence | discriminate]. }
  assert (Hy : fold_right Rplus 0 (map (fun p : point => snd p - my) points) = 0).
  { rewrite <- (map_map snd (fun y => y - my)). apply sum_centred.
    destruct points; [congruence | discriminate]. }
  rewrite Hx in H1. rewrite Hy in H2.
  unfold fitCenter. fold mx my. unfold normalDen in Hden. fold mx my in Hden.
  set (S := fitMoments mx my points) in *.
  assert (E1 : Suuu S + Suvv S = 2 * (a - mx) * Suu S + 2 * (b - my) * Suv S) by lra.
  assert (E2 : Svvv S + Suuv S = 2 * (a - mx) * Suv S + 2 * (b - my) * Svv S) by lra.
  rewrite E1, E2. unfold fitDen in *. f_equal; field; lra.
Qed.

(** X12: on six or more points of one circle, with a denominator that is
    not below [1e-6], [fitCircle] answers with exactly that circle: its
    centre, its radius, and a spread of 0. *)
Theorem fitCircle_exact_on_circle (points : list point) (a b rho : R) :
  (6 <= length points)%nat ->
  (forall p, In p points -> euclid p (a, b) = rho) ->
  1e-6 <= Rabs (normalDen points) ->
  fitCircle points = Ok (Some (mkFit a b rho 0)).
Proof.
  intros Hn Hon Hden.
  assert (Hne : points <> []) by (destruct points; [simpl in Hn; lia | discriminate]).
  assert (Hden0 : normalDen points <> 0).
  { intros E. rewrite E, Rabs_R0 in Hden. lra. }
  rewrite fitCircle_eq. cbv zeta.
  destruct (Nat.ltb_spec (length points) 6); [lia|].
  rewrite (proj2 (ltb_false _ _) Hden).
  rewrite (fitCenter_on_circle points a b rho Hne Hden0 Hon). cbn [fst snd].
  assert (Hmean : mean (radii (a, b) points) = rho).
  { apply mean_constant.
    - destruct points; [congruence | discriminate].
    - intros x Hx. apply in_map_iff in Hx as (p & <- & Hp). auto. }
  rewrite Hmean.
  assert (Hvar : mean (map (fun v => (v - rho) * (v - rho)) (radii (a, b) points)) = 0).
  { apply mean_constant.
    - destruct points; [congruence | discriminate].
    - intros x Hx. apply in_map_iff in Hx as (v & <- & Hv).
      apply in_map_iff in Hv as (p & <- & Hp). rewrite (Hon p Hp). ring. }
  rewrite Hvar, sqrt_0. do 3 f_equal. unfold Rdiv. ring.
Qed.

Lemma C6_normalDen : normalDen C6 = 10000.
Proof.
  unfold normalDen, mean, C6. cbn [map fold_right length fst snd].
  replace (INR 6) with 6 by (simpl; lra).
  replace ((5 + (-5 + (0 + (0 + (3 + (-3 + 0)))))) / 6) with 0 by lra.
  replace ((0 + (0 + (5 + (-5 + (4 + (-4 + 0)))))) / 6) with 0 by lra.
  unfold fitMoments, fitDen. cbn [fold_left Suu Suv Svv Suuu Suvv Svvv Suuv].
  lra.
Qed.

(** X12 on the six points [C6]. *)
Lemma fitCircle_exact_on_circle_witness :
  fitCircle C6 = Ok (Some (mkFit 0 0 5 0)).
Proof.
  apply (fitCircle_exact_on_circle C6 0 0 5).
  - simpl. lia.
  - intros p Hp. rewrite euclid_hypot.
    repeat (destruct Hp as [<-|Hp]; [cbn [fst snd]; apply hypot_eq; lra|]).
    destruct Hp.
  - rewrite C6_normalDen, Rabs_pos_eq; lra.
Defined.







Section Translation.

Variables dx dy : R.

































(** *** The circle fit *)








(** *** Corners and the widest triple *)





(** *** Arbitration *)





(** *** The pipeline *)



End Translation.





Lemma length_insertBy {A : Type} (cmp : A -> A -> R) (x : A) (xs : list A) :
  length (insertBy cmp x xs) = S (length xs).
Proof.
  induction xs as [|y ys IH]; [reflexivity|]. cbn [insertBy].
  destruct (_ >? 0); cbn [length]; [now rewrite IH | reflexivity].
Qed.

Lemma length_sortBy {A : Type} (cmp : A -> A -> R) (xs : list A) :
  length (sortBy cmp xs) = length xs.
Proof.
  induction xs as [|x xs IH]; [reflexivity|].
  unfold sortBy in *. cbn [fold_right]. now rewrite length_insertBy, IH.
Qed.

(** The gap loop of [angleCoverage] over any array of numbers: the largest
    gap is non-negative, and [n - 1] times it reaches from the first to the
    last element. *)
Lemma angleCoverage_gaps (angs : list R) :
  (1 <= length angs)%nat ->
  exists m,
    forRange 0 (length angs - 1) 0 (fun i maxGap =>
      a1 <- get angs (i + 1) ;;
      a0 <- get angs i ;;
      Ok (if a1 - a0 >? maxGap then a1 - a0 else maxGap)) = Ok m /\
    0 <= m /\
    nth (length angs - 1) angs 0 - nth 0 angs 0 <= INR (length angs - 1) * m /\
    (forall i, (i < length angs - 1)%nat ->
       nth (i + 1) angs 0 - nth i angs 0 <= m) /\
    (m = 0 \/ exists i, (i < length angs - 1)%nat /\
                        m = nth (i + 1) angs 0 - nth i angs 0).
Proof.
  intros Hn.
  destruct (forRange_counter_inv
    (fun i m => 0 <= m /\ nth i angs 0 - nth 0 angs 0 <= INR i * m /\
       (forall j, (j < i)%nat -> nth (j + 1) angs 0 - nth j angs 0 <= m) /\
       (m = 0 \/ exists j, (j < i)%nat /\ m = nth (j + 1) angs 0 - nth j angs 0))
    0 (length angs - 1)
    (fun i maxGap =>
      a1 <- get angs (i + 1) ;;
      a0 <- get angs i ;;
      Ok (if a1 - a0 >? maxGap then a1 - a0 else maxGap)) 0) as (m & Hrun & Hinv).
  - lia.
  - intros i m Hi (Hm & Hsum & Hall & Hex).
    rewrite (get_in_range angs (i + 1) 0), (get_in_range angs i 0) by lia.
    cbn [bind]. eexists. split; [reflexivity|].
    set (gap := nth (i + 1) angs 0 - nth i angs 0) in *.
    assert (Hi0 : 0 <= INR i) by apply pos_INR.
    replace (S i) with (i + 1)%nat by lia. rewrite plus_INR. simpl INR.
    destruct (gap >? m) eqn:E.
    + apply gtb_true in E. split; [lra|]. split; [unfold gap in *; nra|].
      split.
      * intros j Hj. destruct (Nat.eq_dec j i) as [->|Hne]; [fold gap; lra|].
        specialize (Hall j ltac:(lia)). lra.
      * right. exists i. split; [lia | reflexivity].
    + apply gtb_false in E. split; [lra|]. split; [unfold gap in *; nra|].
      split.
      * intros j Hj. destruct (Nat.eq_dec j i) as [->|Hne]; [fold gap; lra|].
        apply Hall. lia.
      * destruct Hex as [->|(j & Hj & ->)]; [now left|].
        right. exists j. split; [lia | reflexivity].
  - split; [lra|]. split; [simpl; lra|]. split; [intros j Hj; lia | now left].
  - exists m. split; [exact Hrun | exact Hinv].
Qed.

(** [angs[i]] is never out of range: [angleCoverage] always answers. *)
Lemma angleCoverage_ok (points : list point) (cx cy : R) :
  exists coverage, angleCoverage points cx cy = Ok coverage.
Proof.
  unfold angleCoverage.
  destruct (length points <? 3)%nat; [now exists 0|].
  cbv zeta.
  set (angs := sortBy (fun a b => a - b)
                 (map (fun '(x, y) => atan2 (y - cy) (x - cx)) points)).
  destruct (Nat.ltb_spec (length angs) 2); [now exists 0|].
  destruct (angleCoverage_gaps angs ltac:(lia)) as (m & -> & _).
  cbn [bind].
  rewrite (get_in_range angs 0 0), (get_in_range angs (length angs - 1) 0)
    by lia.
  cbn [bind]. eexists. reflexivity.
Qed.

(** X16: [angleCoverage] always answers, with a value between 0 and
    [2 PI]; [n >= 3] points cover at most the fraction [(n - 1) / n] of the
    full turn, and fewer than three points cover nothing. *)
Theorem angleCoverage_bounds (points : list point) (cx cy : R) :
  exists coverage,
    angleCoverage points cx cy = Ok coverage /\
    0 <= coverage <= 2 * PI /\
    ((3 <= length points)%nat ->
     coverage * INR (length points) <= 2 * PI * (INR (length points) - 1)) /\
    ((length points < 3)%nat -> coverage = 0).
Proof.
  unfold angleCoverage.
  destruct (Nat.ltb_spec (length points) 3) as [Hn|Hn].
  { exists 0. split; [reflexivity|]. pose proof PI_RGT_0.
    split; [lra|]. split; [lia | reflexivity]. }
  cbv zeta.
  set (angs := sortBy (fun a b => a - b)
                 (map (fun '(x, y) => atan2 (y - cy) (x - cx)) points)).
  assert (Hlen : length angs = length points)
    by (unfold angs; now rewrite length_sortBy, length_map).
  rewrite Hlen. destruct (Nat.ltb_spec (length points) 2); [lia|].
  destruct (angleCoverage_gaps angs ltac:(lia)) as (m & Hrun & Hm & Hsum & _).
  rewrite Hlen in Hrun, Hsum. rewrite Hrun. cbn [bind].
  rewrite (get_in_range angs 0 0), (get_in_range angs (length points - 1) 0)
    by lia.
  cbn [bind]. eexists. split; [reflexivity|].
  set (a0 := nth 0 angs 0) in *. set (an := nth (length points - 1) angs 0) in *.
  set (wrap := a0 + PI * 2 - an).
  set (M := if wrap >? m then wrap else m).
  assert (HM : m <= M /\ wrap <= M).
  { unfold M. destruct (wrap >? m) eqn:E;
      [apply gtb_true in E | apply gtb_false in E]; lra. }
  pose proof PI_RGT_0 as Hpi.
  assert (Hn1 : INR (length points - 1) = INR (length points) - 1).
  { rewrite minus_INR by lia. simpl. lra. }
  rewrite Hn1 in Hsum.
  assert (Hn3 : 3 <= INR (length points)).
  { apply le_INR in Hn. simpl in Hn. lra. }
  assert (Hbound : 2 * PI <= INR (length points) * M).
  { assert ((INR (length points) - 1) * m <= (INR (length points) - 1) * M)
      by (apply Rmult_le_compat_l; lra).
    unfold wrap in HM. nra. }
  pose proof (Rmax_l 0 (Rmin (PI * 2) (PI * 2 - M))).
  pose proof (Rmin_l (PI * 2) (PI * 2 - M)).
  pose proof (Rmin_r (PI * 2) (PI * 2 - M)).
  assert (Hc : Rmax 0 (Rmin (PI * 2) (PI * 2 - M)) <= Rmax 0 (PI * 2 - M)).
  { apply Rle_max_compat_l. lra. }
  split; [|split; [intros _|lia]].
  - split; [lra|]. apply Rmax_lub; lra.
  - unfold Rmax in *. destruct (Rle_dec 0 (Rmin (PI * 2) (PI * 2 - M))),
      (Rle_dec 0 (PI * 2 - M)); nra.
Qed.

(** ** [Math.atan2] *)

Lemma atan2_range (y x : R) : - PI < atan2 y x <= PI.
Proof.
  unfold atan2. pose proof PI_RGT_0 as Hpi.
  pose proof (atan_bound (y / x)) as Hb.
  destruct (0 <? x) eqn:Ex; [lra|]. apply ltb_false in Ex.
  destruct (x <? 0) eqn:Ex'.
  - apply ltb_true in Ex'.
    assert (Hinv : / x < 0) by now apply Rinv_lt_0_compat.
    destruct (0 <=? y) eqn:Ey.
    + apply leb_true in Ey.
      assert (Hq : y / x <= 0) by (unfold Rdiv; nra).
      assert (atan (y / x) <= 0).
      { destruct Hq as [Hq| ->]; [|rewrite atan_0; lra].
        apply atan_increasing in Hq. rewrite atan_0 in Hq. lra. }
      lra.
    + apply leb_false in Ey.
      assert (Hq : 0 < y / x) by (unfold Rdiv; nra).
      apply atan_increasing in Hq. rewrite atan_0 in Hq. lra.
  - destruct (0 <? y); [lra|]. destruct (y <? 0); lra.
Qed.

Lemma atan2_scale (k y x : R) : 0 < k -> atan2 (k * y) (k * x) = atan2 y x.
Proof.
  intros Hk. unfold atan2.
  assert (Hlt : forall a, (0 <? k * a) = (0 <? a)).
  { intros a. destruct (0 <? a) eqn:E.
    - apply ltb_true in E. apply ltb_true. nra.
    - apply ltb_false in E. apply ltb_false. nra. }
  assert (Hgt : forall a, (k * a <? 0) = (a <? 0)).
  { intros a. destruct (a <? 0) eqn:E.
    - apply ltb_true in E. apply ltb_true. nra.
    - apply ltb_false in E. apply ltb_false. nra. }
  assert (Hle : forall a, (0 <=? k * a) = (0 <=? a)).
  { intros a. destruct (0 <=? a) eqn:E.
    - apply leb_true in E. apply leb_true. nra.
    - apply leb_false in E. apply leb_false. nra. }
  rewrite !Hlt, !Hgt, Hle.
  destruct (0 <? x) eqn:E1.
  { apply ltb_true in E1. f_equal. field. lra. }
  destruct (x <? 0) eqn:E2; [|reflexivity].
  apply ltb_true in E2.
  replace (k * y / (k * x)) with (y / x) by (field; lra). reflexivity.
Qed.

(** ** The sort of [angleCoverage] *)

Lemma insertBy_perm (x : R) (xs : list R) :
  Permutation (insertBy ascending x xs) (x :: xs).
Proof.
  induction xs as [|y ys IH]; [apply Permutation_refl|]. cbn [insertBy].
  destruct (_ >? 0); [|apply Permutation_refl].
  apply perm_trans with (y :: x :: ys); [now apply perm_skip | apply perm_swap].
Qed.

Lemma sortBy_perm (xs : list R) : Permutation (sortBy ascending xs) xs.
Proof.
  induction xs as [|x xs IH]; [apply perm_nil|].
  unfold sortBy in *. cbn [fold_right].
  apply perm_trans with (x :: fold_right (insertBy ascending) [] xs);
    [apply insertBy_perm | now apply perm_skip].
Qed.

Lemma insertBy_sorted (x : R) (xs : list R) :
  StronglySorted Rle xs -> StronglySorted Rle (insertBy ascending x xs).
Proof.
  induction xs as [|y ys IH]; intros Hs; cbn [insertBy].
  - repeat constructor.
  - inversion Hs as [|? ? Hys Hall]; subst. unfold ascending at 1.
    destruct (x - y >? 0) eqn:E.
    + apply gtb_true in E. constructor; [now apply IH|].
      apply Forall_forall. intros z Hz.
      apply (Permutation_in _ (insertBy_perm x ys)) in Hz.
      destruct Hz as [<-|Hz]; [lra|].
      rewrite Forall_forall in Hall. now apply Hall.
    + apply gtb_false in E. constructor; [exact Hs|].
      constructor; [lra|].
      rewrite Forall_forall in Hall |- *. intros z Hz.
      specialize (Hall z Hz). lra.
Qed.

Lemma sortBy_sorted (xs : list R) : StronglySorted Rle (sortBy ascending xs).
Proof.
  induction xs as [|x xs IH]; [constructor|].
  unfold sortBy in *. cbn [fold_right]. now apply insertBy_sorted.
Qed.

(** Two sorted arrangements of the same numbers are the same array. *)
Lemma sorted_perm_eq (l l' : list R) :
  StronglySorted Rle l -> StronglySorted Rle l' -> Permutation l l' -> l = l'.
Proof.
  revert l'. induction l as [|a l IH]; intros l' Hs Hs' Hp.
  - apply Permutation_nil in Hp. now subst.
  - destruct l' as [|b l'].
    { apply Permutation_sym, Permutation_nil in Hp. discriminate. }
    inversion Hs as [|? ? Hl Ha]; subst.
    inversion Hs' as [|? ? Hl' Hb]; subst.
    rewrite Forall_forall in Ha, Hb.
    assert (Hab : a = b).
    { assert (H1 : In a (b :: l')) by (apply (Permutation_in _ Hp); now left).
      assert (H2 : In b (a :: l))
        by (apply (Permutation_in _ (Permutation_sym Hp)); now left).
      destruct H1 as [H1|H1]; [auto|]. destruct H2 as [H2|H2]; [auto|].
      apply Rle_antisym; auto. }
    subst b. f_equal. apply IH; auto.
    now apply Permutation_cons_inv in Hp.
Qed.

Lemma sortBy_perm_eq (xs ys : list R) :
  Permutation xs ys -> sortBy ascending xs = sortBy ascending ys.
Proof.
  intros Hp. apply sorted_perm_eq; try apply sortBy_sorted.
  apply perm_trans with xs; [apply sortBy_perm|].
  apply perm_trans with ys; [exact Hp | apply Permutation_sym, sortBy_perm].
Qed.

(** ** What [angleCoverage] depends on *)

Lemma angleCoverage_directions (points points' : list point) (cx cy cx' cy' : R) :
  Permutation
    (map (fun '(x, y) => atan2 (y - cy') (x - cx')) points')
    (map (fun '(x, y) => atan2 (y - cy) (x - cx)) points) ->
  angleCoverage points' cx' cy' = angleCoverage points cx cy.
Proof.
  intros Hp. unfold angleCoverage.
  assert (Hlen : length points' = length points).
  { apply Permutation_length in Hp. now rewrite !length_map in Hp. }
  rewrite Hlen. fold ascending. now rewrite (sortBy_perm_eq _ _ Hp).
Qed.

(** X17: [angleCoverage] depends only on the directions in which the
    centre sees the points: the order of the points does not matter, nor
    does moving the points and the centre together, nor scaling both by
    [k > 0]. *)
Theorem angleCoverage_similar (k dx dy : R) (points points' : list point)
  (cx cy : R) :
  0 < k ->
  Permutation points' (translatePath dx dy (scalePath k points)) ->
  angleCoverage points' (k * cx + dx) (k * cy + dy) = angleCoverage points cx cy.
Proof.
  intros Hk Hp. apply angleCoverage_directions.
  apply perm_trans
    with (map (fun '(x, y) => atan2 (y - (k * cy + dy)) (x - (k * cx + dx)))
              (translatePath dx dy (scalePath k points)));
    [now apply Permutation_map|].
  unfold translatePath, scalePath. rewrite !map_map.
  erewrite map_ext; [apply Permutation_refl|].
  intros [x y]. cbn [translatePoint scalePoint fst snd].
  replace (k * y + dy - (k * cy + dy)) with (k * (y - cy)) by ring.
  replace (k * x + dx - (k * cx + dx)) with (k * (x - cx)) by ring.
  now apply atan2_scale.
Qed.

(** X17 on the three points [Q3], doubled and moved by [(1, 1)]. *)
Lemma angleCoverage_similar_witness :
  angleCoverage (translatePath 1 1 (scalePath 2 Q3)) (2 * 0 + 1) (2 * 0 + 1)
  = angleCoverage Q3 0 0.
Proof.
  apply (angleCoverage_similar 2 1 1 Q3); [lra | apply Permutation_refl].
Defined.

Lemma epsilonOf_eq (rawClosed : list point) :
  Rmax 3 (hypot (bw (bbox rawClosed)) (bh (bbox rawClosed)) * 0.010)
  = epsilonOf rawClosed.
Proof. unfold epsilonOf. f_equal. lra. Qed.

Lemma sequential_short (pointsRaw pts : list point) (color : string) :
  rdp (closedPath pointsRaw) (epsilonOf (closedPath pointsRaw)) = Ok pts ->
  (length pts < 3)%nat ->
  Sequential.recognize pointsRaw color = Ok (free (closedPath pointsRaw) color).
Proof.
  intros Hpts Hn. unfold Sequential.recognize.
  rewrite ensureClosed_eq. cbn [bind]. cbv zeta.
  rewrite epsilonOf_eq, Hpts. cbn [bind].
  destruct (Nat.leb_spec 3 (length pts)); [lia | reflexivity].
Qed.

(** X18: the sequential [recognize], too, answers with a circle, a
    rectangle or a triangle only for a stroke of at least three points whose
    ends are apart by no more than 8: its circle test is never reached by a
    stroke whose ends are further apart. *)
Theorem sequential_needs_small_gap (pointsRaw : list point) (color : string)
  (s : DrawnShape) :
  Sequential.recognize pointsRaw color = Ok s -> isFree s = false ->
  (3 <= length pointsRaw)%nat /\ 0 < closingGap pointsRaw <= 8.
Proof.
  intros Hrun Hshape.
  assert (Hnot : ~ ((length pointsRaw < 3)%nat \/ closingGap pointsRaw = 0 \/
                    8 < closingGap pointsRaw)).
  { intros Hcase. destruct (rdp_collapse_cases _ Hcase) as (pts & Hpts & Hn).
    rewrite (sequential_short _ _ color Hpts Hn) in Hrun.
    injection Hrun as <-. discriminate. }
  pose proof (closingGap_nonneg pointsRaw).
  split; [lia|]. split.
  - destruct (Req_dec (closingGap pointsRaw) 0); [tauto | lra].
  - destruct (Rle_dec (closingGap pointsRaw) 8) as [|Hgt]; [assumption|].
    apply Rnot_le_lt in Hgt. tauto.
Qed.

Lemma positive_area_box (pts rawClosed : list point) (A : R) :
  polygonArea pts = Ok A -> 0 < A ->
  (forall p, In p pts -> In p rawClosed) ->
  0 < bw (bbox rawClosed) /\ 0 < bh (bbox rawClosed).
Proof.
  intros HA Hpos Hsub.
  pose proof (bbox_width_nonneg rawClosed) as Hw.
  pose proof (bbox_height_nonneg rawClosed) as Hh.
  assert (Hw0 : bw (bbox rawClosed) <> 0).
  { intros Hz. rewrite (polygonArea_flat pts (minX (bbox rawClosed))) in HA.
    - injection HA as <-. lra.
    - left. intros p Hp. apply bbox_width_zero; auto. }
  assert (Hh0 : bh (bbox rawClosed) <> 0).
  { intros Hz. rewrite (polygonArea_flat pts (minY (bbox rawClosed))) in HA.
    - injection HA as <-. lra.
    - right. intros p Hp. apply bbox_height_zero; auto. }
  lra.
Qed.

(** A test that may end the function, followed by the rest of it. *)
Lemma early_return {A : Type} (m : result (option A)) (rest : result A)
  (Q : A -> Prop) :
  (exists o, m = Ok o /\ forall a, o = Some a -> Q a) ->
  (exists s, rest = Ok s /\ Q s) ->
  exists s,
    (x <- m ;; match x with Some a => Ok a | None => rest end) = Ok s /\ Q s.
Proof.
  intros (o & -> & Ho) Hrest. cbn [bind]. destruct o as [a|]; eauto.
Qed.

Lemma sequential_result (pointsRaw : list point) (color : string) :
  exists s,
    Sequential.recognize pointsRaw color = Ok s /\ Recognized pointsRaw color s.
Proof.
  unfold Sequential.recognize. rewrite ensureClosed_eq. cbn [bind]. cbv zeta.
  set (rawClosed := closedPath pointsRaw). rewrite epsilonOf_eq.
  destruct (rdp_spec rawClosed (epsilonOf rawClosed)) as (pts & Hpts & _).
  rewrite Hpts. cbn [bind].
  assert (Hraw : forall p, In p rawClosed -> In p pointsRaw)
    by apply closedPath_In.
  assert (Hsub : forall p, In p pts -> In p rawClosed)
    by (intros p; now apply (rdp_In _ _ _ _ Hpts)).
  destruct (Nat.leb_spec 3 (length pts)) as [Hn|Hn].
  2:{ eexists. split; [reflexivity|]. split; cbn [colorOf verticesOf shapeValid];
        try discriminate; auto.
      intros Hne. destruct (ensureClosed_ok pointsRaw) as (rc & Hrc & Hlen & _).
      rewrite ensureClosed_eq in Hrc. injection Hrc as <-. fold rawClosed in Hlen.
      destruct pointsRaw; [congruence | simpl in Hlen; lia]. }
  destruct (countCorners_ok pts 35) as (corners & ->).
  destruct (polygonPerimeter_ok pts) as (P & -> & _).
  destruct (polygonArea_ok pts) as (A & HA & _). rewrite HA. cbn [bind].
  rewrite circularityOf_ok.
  destruct (fitCircle_ok (if (6 <=? length rawClosed)%nat then rawClosed else pts))
    as (fit & ->).
  cbn [bind].
  apply early_return; [|apply early_return].
  - (* the circle test *)
    destruct fit as [c|]; [|eexists; split; [reflexivity | discriminate]].
    rewrite divide_Ok by apply orOne_neq_0. cbn [bind].
    destruct (angleCoverage_ok pointsRaw (cx c) (cy c)) as (coverage & ->).
    cbn [bind]. eexists. split; [reflexivity|].
    destruct (r c >? 6) eqn:Er; [|discriminate].
    destruct (_ && _ && _); [|discriminate].
    cbn [andb]. apply gtb_true in Er. intros a [= <-].
    split; cbn [colorOf verticesOf shapeValid]; try discriminate; auto.
    + intros p [].
    + intros _. lra.
    + intros x y rad c' [= _ _ <- _]. exact Er.
  - (* the rectangle test *)
    destruct (corners =? 4)%nat; [|eexists; split; [reflexivity | discriminate]].
    rewrite divide_Ok by apply Rmax_1_nonzero. cbn [bind].
    destruct (_ >? 0.70) eqn:Erect;
      [|eexists; split; [reflexivity | discriminate]].
    destruct (_ <? 0.82); [|eexists; split; [reflexivity | discriminate]].
    cbn [andb]. rewrite divide_Ok by apply orOne_neq_0. cbn [bind].
    apply gtb_true in Erect.
    assert (HApos : 0 < A).
    { pose proof (Rmax_l 1 (bw (bbox rawClosed) * bh (bbox rawClosed))) as Hm.
      assert (0 < / Rmax 1 (bw (bbox rawClosed) * bh (bbox rawClosed)))
        by (apply Rinv_0_lt_compat; lra).
      unfold Rdiv in Erect. nra. }
    destruct (positive_area_box pts rawClosed A HA HApos Hsub) as [Hw Hh].
    destruct (Rabs _ <? 0.15); eexists; (split; [reflexivity|]);
      intros a [= <-]; split; cbn [colorOf verticesOf shapeValid];
      try discriminate; auto; try (intros p []).
    all: intros _; unfold bbox in Hw, Hh; cbn [bw bh minX minY maxX maxY] in Hw, Hh;
      unfold Rmin; try destruct (Rle_dec _ _); split; lra.
  - (* the triangle test, and the free polygon *)
    apply early_return.
    + destruct (_ && (_ <? 0.78)); [|eexists; split; [reflexivity | discriminate]].
      destruct (bestTriple_spec pts) as (best & maxSum & -> & _ & Hbest).
      cbn [bind]. eexists. split; [reflexivity|].
      destruct (Nat.eqb_spec (length best) 3) as [Hlen|Hlen]; [|discriminate].
      intros a [= <-].
      split; cbn [colorOf verticesOf shapeValid]; try discriminate; auto.
      * intros p Hp. apply Hraw, Hsub.
        destruct Hbest as [(-> & _) | (a & b & c & (Hab & Hc & ->) & _)];
          [destruct Hp|].
        destruct Hp as [<-|[<-|[<-|[]]]]; apply nth_In; lia.
      * intros points c [= <- _]. exact Hlen.
    + eexists. split; [reflexivity|].
      split; cbn [colorOf verticesOf shapeValid]; try discriminate; auto. lia.
Qed.

(** X19: the sequential [recognize] always answers, with a shape of the
    colour it was given; the vertices of a triangle or a free shape are
    points of the stroke, a triangle has three of them, a circle has a
    radius above 6, a rectangle a positive width and height, and a free
    shape over a non-empty stroke at least one point. *)
Theorem sequential_recognized (pointsRaw : list point) (color : string) :
  exists s,
    Sequential.recognize pointsRaw color = Ok s /\ Recognized pointsRaw color s.
Proof. apply sequential_result. Qed.

Lemma acos_straight : acos (-1) = PI.
Proof. replace (-1) with (Ropp 1) by lra. rewrite acos_opp, acos_1. ring. Qed.

Ltac eval_straight_angle :=
  match goal with
  | |- context [acos ?x] =>
    replace (acos x) with PI by (replace x with (-1) by lra; now rewrite acos_straight)
  end.

Lemma toDeg_straight_angle : toDeg PI = 180.
Proof. unfold toDeg. field. apply PI_neq0. Qed.

Lemma S0_corners : countCorners S0 35 = Ok 4%nat.
Proof.
  unfold countCorners, S0, getZ. unroll. repeat eval_Z. unroll.
  repeat first [eval_hypot 5 | eval_hypot 12 | eval_hypot 40 | eval_hypot 35].
  repeat first [eval_orOne | eval_divide | progress cbn [bind]].
  repeat eval_minmax. repeat eval_right_angle. repeat eval_straight_angle.
  rewrite toDeg_right_angle, toDeg_straight_angle.
  repeat eval_step. reflexivity.
Qed.

Lemma sequential_S0 : Sequential.recognize S0 black = Ok (rect 0 0 12 40 black).
Proof.
  unfold Sequential.recognize. rewrite S0_ensureClosed. cbn [bind]. cbv zeta.
  rewrite epsilonOf_eq, S0_epsilon, S0_rdp. cbn [bind].
  change (3 <=? length S0)%nat with true. cbv iota.
  rewrite S0_corners, S0_perimeter, S0_area. cbn [bind].
  rewrite S0_circularityOf.
  replace (fitCircle (if (6 <=? length S0)%nat then S0 else S0))
    with (Ok (@None CircleFit)) by reflexivity.
  cbn [bind Nat.eqb]. rewrite S0_bbox. cbn [bw bh minX minY].
  pose proof S0_circularity_bounds.
  repeat eval_step. reflexivity.
Qed.

(** X18 on the stroke [S0]. *)
Lemma sequential_needs_small_gap_witness :
  (3 <= length S0)%nat /\ 0 < closingGap S0 <= 8.
Proof.
  exact (sequential_needs_small_gap S0 black _ sequential_S0 eq_refl).
Defined.




Section WorldProperties.

Context {M : Matter}.

(** [Math.max(lo, Math.min(hi, v))] *)
Lemma clamp_spec (lo hi v : R) :
  lo <= hi ->
  lo <= Rmax lo (Rmin hi v) <= hi /\
  (lo <= v <= hi -> Rmax lo (Rmin hi v) = v).
Proof.
  intros H. unfold Rmin. destruct (Rle_dec hi v) as [H1|H1];
    unfold Rmax; destruct (Rle_dec lo _) as [H2|H2];
    try apply Rnot_le_lt in H1; try apply Rnot_le_lt in H2;
    repeat split; intros; lra.
Qed.

(** The same with a bound [room] that may lie below the floor [lo]: the
    floor wins. *)
Lemma floor_spec (lo room v : R) :
  lo <= Rmax lo (Rmin room v) /\
  (lo <= room -> Rmax lo (Rmin room v) <= room) /\
  (lo <= v <= room -> Rmax lo (Rmin room v) = v) /\
  (room < lo -> Rmax lo (Rmin room v) = lo).
Proof.
  unfold Rmin. destruct (Rle_dec room v) as [H1|H1];
    unfold Rmax; destruct (Rle_dec lo _) as [H2|H2];
    try apply Rnot_le_lt in H1; try apply Rnot_le_lt in H2;
    repeat split; intros; lra.
Qed.

(** X21: in a viewport of non-negative size, a rectangle enters the world
    as one rectangle body whose corner is clamped into the viewport and whose
    sides are at least 10.  The body ends inside the viewport when its
    corner is at least 10 away from the far edge; nearer to the edge its side
    is exactly 10 and it sticks out.  A rectangle that fits is placed as it
    is, with the absolute values of its sides. *)
Theorem addShapeToWorld_rect (world : list Body) (x0 y0 w0 h0 : R)
  (color : string) (dynamic : bool) (viewportWidth viewportHeight : R) :
  0 <= viewportWidth -> 0 <= viewportHeight ->
  exists x y w h,
    addShapeToWorld world (rect x0 y0 w0 h0 color) dynamic
      viewportWidth viewportHeight
    = Ok (Some (Bodies_rectangle (x + w / 2) (y + h / 2) w h
                  (mkOptions (negb dynamic) 0.8 color)),
          world ++ [Bodies_rectangle (x + w / 2) (y + h / 2) w h
                      (mkOptions (negb dynamic) 0.8 color)]) /\
    (0 <= x <= viewportWidth /\ 0 <= y <= viewportHeight) /\
    (10 <= w /\ 10 <= h) /\
    (x + 10 <= viewportWidth -> x + w <= viewportWidth) /\
    (y + 10 <= viewportHeight -> y + h <= viewportHeight) /\
    (viewportWidth < x + 10 -> w = 10) /\
    (viewportHeight < y + 10 -> h = 10) /\
    (0 <= x0 <= viewportWidth -> 10 <= Rabs w0 <= viewportWidth - x0 ->
     x = x0 /\ w = Rabs w0) /\
    (0 <= y0 <= viewportHeight -> 10 <= Rabs h0 <= viewportHeight - y0 ->
     y = y0 /\ h = Rabs h0).
Proof.
  intros Hvw Hvh. do 4 eexists. split; [reflexivity|].
  destruct (clamp_spec 0 viewportWidth x0 Hvw) as [Hx Hx'].
  destruct (clamp_spec 0 viewportHeight y0 Hvh) as [Hy Hy'].
  set (x := Rmax 0 (Rmin viewportWidth x0)) in *.
  set (y := Rmax 0 (Rmin viewportHeight y0)) in *.
  destruct (floor_spec 10 (viewportWidth - x) (Rabs w0)) as (Hw1 & Hw2 & Hw3 & Hw4).
  destruct (floor_spec 10 (viewportHeight - y) (Rabs h0)) as (Hh1 & Hh2 & Hh3 & Hh4).
  set (w := Rmax 10 (Rmin (viewportWidth - x) (Rabs w0))) in *.
  set (h := Rmax 10 (Rmin (viewportHeight - y) (Rabs h0))) in *.
  split; [split; lra|]. split; [split; lra|].
  split; [intros H; assert (10 <= viewportWidth - x) as H' by lra;
          apply Hw2 in H'; lra|].
  split; [intros H; assert (10 <= viewportHeight - y) as H' by lra;
          apply Hh2 in H'; lra|].
  split; [intros H; apply Hw4; lra|]. split; [intros H; apply Hh4; lra|].
  split; intros H1 H2.
  - split; [auto|]. apply Hw3. rewrite (Hx' H1). exact H2.
  - split; [auto|]. apply Hh3. rewrite (Hy' H1). exact H2.
Qed.

(** X22: in a viewport of non-negative size, a circle enters the world as
    one circle body whose centre is clamped into the viewport and whose
    radius is clamped between 5 and 300. *)
Theorem addShapeToWorld_circle (world : list Body) (x0 y0 r0 : R)
  (color : string) (dynamic : bool) (viewportWidth viewportHeight : R) :
  0 <= viewportWidth -> 0 <= viewportHeight ->
  exists x y r,
    addShapeToWorld world (circle x0 y0 r0 color) dynamic
      viewportWidth viewportHeight
    = Ok (Some (Bodies_circle x y r (mkOptions (negb dynamic) 0.8 color)),
          world ++ [Bodies_circle x y r (mkOptions (negb dynamic) 0.8 color)]) /\
    (0 <= x <= viewportWidth /\ 0 <= y <= viewportHeight) /\
    5 <= r <= 300 /\
    (0 <= x0 <= viewportWidth -> x = x0) /\
    (0 <= y0 <= viewportHeight -> y = y0) /\
    (5 <= r0 <= 300 -> r = r0).
Proof.
  intros Hvw Hvh. do 3 eexists. split; [reflexivity|].
  destruct (clamp_spec 0 viewportWidth x0 Hvw) as [Hx Hx'].
  destruct (clamp_spec 0 viewportHeight y0 Hvh) as [Hy Hy'].
  destruct (clamp_spec 5 300 r0 ltac:(lra)) as [Hr Hr'].
  split; [split; lra|]. split; [lra|]. auto.
Qed.

Lemma relativeTo_sum (points : list point) :
  points <> [] ->
  fold_right Rplus 0 (map fst (relativeTo (centroidOf points) points)) = 0 /\
  fold_right Rplus 0 (map snd (relativeTo (centroidOf points) points)) = 0.
Proof.
  intros Hne. unfold relativeTo, centroidOf. cbn [fst snd]. rewrite !map_map.
  cbn [fst snd].
  rewrite <- (map_map fst (fun x => x - mean (map fst points))).
  rewrite <- (map_map snd (fun y => y - mean (map snd points))).
  split; apply sum_centred; destruct points; try congruence; discriminate.
Qed.

(** The fallback loop of [addShapeToWorld]: a fan of triangles around the
    first vertex. *)
Lemma fan_loop (cx cy : R) (rel : list point) (options : BodyOptions) :
  (2 <= length rel)%nat ->
  exists parts,
    forRange 1 (length rel - 1) [] (fun i parts =>
      r0 <- get rel 0 ;;
      ri <- get rel i ;;
      rj <- get rel (i + 1) ;;
      match Bodies_fromVertices cx cy [[r0; ri; rj]] options true with
      | Some b => Ok (parts ++ [b])
      | None => Ok parts
      end) = Ok parts /\
    (length parts <= length rel - 2)%nat /\
    (forall b, In b parts ->
       exists i, (1 <= i < length rel - 1)%nat /\
         Bodies_fromVertices cx cy
           [[nth 0 rel (0, 0); nth i rel (0, 0); nth (i + 1) rel (0, 0)]]
           options true = Some b) /\
    ((forall i, (1 <= i < length rel - 1)%nat ->
        Bodies_fromVertices cx cy
          [[nth 0 rel (0, 0); nth i rel (0, 0); nth (i + 1) rel (0, 0)]]
          options true <> None) ->
     length parts = (length rel - 2)%nat).
Proof.
  intros Hn.
  destruct (forRange_counter_inv
    (fun i parts =>
       (length parts <= i - 1)%nat /\
       (forall b, In b parts ->
          exists j, (1 <= j < i)%nat /\
            Bodies_fromVertices cx cy
              [[nth 0 rel (0, 0); nth j rel (0, 0); nth (j + 1) rel (0, 0)]]
              options true = Some b) /\
       ((forall j, (1 <= j < length rel - 1)%nat ->
           Bodies_fromVertices cx cy
             [[nth 0 rel (0, 0); nth j rel (0, 0); nth (j + 1) rel (0, 0)]]
             options true <> None) ->
        length parts = (i - 1)%nat))
    1 (length rel - 1)
    (fun i parts =>
      r0 <- get rel 0 ;;
      ri <- get rel i ;;
      rj <- get rel (i + 1) ;;
      match Bodies_fromVertices cx cy [[r0; ri; rj]] options true with
      | Some b => Ok (parts ++ [b])
      | None => Ok parts
      end) []) as (parts & Hrun & Hlen & Hall & Hfull).
  - lia.
  - intros i parts Hi (Hlen & Hall & Hfull).
    rewrite (get_in_range rel 0 (0, 0)), (get_in_range rel i (0, 0)),
      (get_in_range rel (i + 1) (0, 0)) by lia.
    cbn [bind].
    destruct (Bodies_fromVertices cx cy _ options true) as [b|] eqn:Eb.
    + eexists. split; [reflexivity|]. split; [|split].
      * rewrite length_app. simpl. lia.
      * intros b' Hb'. apply in_app_or in Hb' as [Hb'|[<-|[]]].
        -- destruct (Hall b' Hb') as (j & Hj & Ej). exists j. split; [lia | exact Ej].
        -- exists i. split; [lia | exact Eb].
      * intros Hacc. rewrite length_app, (Hfull Hacc). simpl. lia.
    + eexists. split; [reflexivity|]. split; [lia|]. split.
      * intros b' Hb'. destruct (Hall b' Hb') as (j & Hj & Ej).
        exists j. split; [lia | exact Ej].
      * intros Hacc. exfalso. apply (Hacc i); [lia | exact Eb].
  - split; [simpl; lia|]. split; [intros b []|]. intros _. reflexivity.
  - exists parts. split; [exact Hrun|]. split; [lia|]. split; [|intros H; rewrite Hfull; auto; lia].
    intros b Hb. destruct (Hall b Hb) as (j & Hj & Ej). exists j. split; [lia | exact Ej].
Qed.

Lemma free_centroid (points : list point) :
  (2 < length points)%nat ->
  divide (fold_left (fun s p => s + fst p) points 0) (INR (length points))
    = Ok (fst (centroidOf points)) /\
  divide (fold_left (fun s p => s + snd p) points 0) (INR (length points))
    = Ok (snd (centroidOf points)).
Proof.
  intros Hn.
  assert (Hnz : INR (length points) <> 0) by (apply not_0_INR; lia).
  rewrite !divide_Ok by exact Hnz.
  rewrite (sum_mean (@fst R R) points), (sum_mean (@snd R R) points).
  split; reflexivity.
Qed.

Lemma addShapeToWorld_cases (world : list Body) (shape : DrawnShape)
  (dynamic : bool) (viewportWidth viewportHeight : R) :
  ((exists points color,
      shape = triangle points color /\ (length points < 3)%nat) ->
   addShapeToWorld world shape dynamic viewportWidth viewportHeight
   = Err TypeError) /\
  (~ (exists points color,
        shape = triangle points color /\ (length points < 3)%nat) ->
   exists body,
     addShapeToWorld world shape dynamic viewportWidth viewportHeight
     = Ok (body, world ++ added body) /\
     match shape with
     | rect _ _ _ _ _ | circle _ _ _ _ => body <> None
     | triangle _ _ => True
     | free points _ => (length points <= 2)%nat -> body = None
     end).
Proof.
  split.
  - intros (points & color & -> & Hn). cbn [addShapeToWorld]. cbv zeta.
    destruct points as [|p0 [|p1 [|p2 l]]]; simpl in Hn; try lia; reflexivity.
  - intros Hok. destruct shape as [x y w h c | x y r c | points c | points c];
      cbn [addShapeToWorld]; cbv zeta.
    + eexists (Some _). split; [reflexivity | discriminate].
    + eexists (Some _). split; [reflexivity | discriminate].
    + destruct points as [|p0 [|p1 [|p2 l]]];
        try (exfalso; apply Hok; do 2 eexists; split; [reflexivity | simpl; lia]).
      cbn [get nth_error bind].
      destruct (Bodies_fromVertices _ _ _ _ _) as [b|].
      * exists (Some b). split; [reflexivity | exact I].
      * exists None. cbn [added]. rewrite app_nil_r. split; [reflexivity | exact I].
    + destruct (Nat.ltb_spec 2 (length points)) as [Hn|Hn].
      2:{ exists None. cbn [added]. rewrite app_nil_r. split; reflexivity. }
      destruct (free_centroid points Hn) as [-> ->]. cbn [bind].
      set (c0 := centroidOf points).
      set (rel := map (fun p => (fst p - fst c0, snd p - snd c0)) points).
      assert (Hrel : (2 <= length rel)%nat) by (unfold rel; rewrite length_map; lia).
      destruct (Bodies_fromVertices (fst c0) (snd c0) [rel] _ true) as [b|].
      { cbn [bind]. eexists (Some _). split; [reflexivity | lia]. }
      destruct (fan_loop (fst c0) (snd c0) rel
                  (mkOptions (negb dynamic) 0.8 c) Hrel) as (parts & -> & _).
      cbn [bind]. destruct (0 <? length parts)%nat; cbn [bind].
      * eexists (Some _). split; [reflexivity | lia].
      * exists None. cbn [added]. rewrite app_nil_r. split; [reflexivity | lia].
Qed.

(** X23: when the library builds the polygon, a triangle of three points
    or a free shape of more than two enters the world as one body placed at
    the mean of its points, with its vertices given relative to that mean,
    so that they sum to zero. *)
Theorem addShapeToWorld_placement (world : list Body) (shape : DrawnShape)
  (points : list point) (color : string)
  (dynamic : bool) (viewportWidth viewportHeight : R) (b : Body) :
  (shape = triangle points color /\ length points = 3%nat) \/
  (shape = free points color /\ (2 < length points)%nat) ->
  Bodies_fromVertices (fst (centroidOf points)) (snd (centroidOf points))
    [relativeTo (centroidOf points) points]
    (mkOptions (negb dynamic) 0.8 color) true = Some b ->
  (exists placed,
     addShapeToWorld world shape dynamic viewportWidth viewportHeight
     = Ok (Some placed, world ++ [placed]) /\
     (placed = b \/ placed = Body_setStatic b (negb dynamic))) /\
  fold_right Rplus 0 (map fst (relativeTo (centroidOf points) points)) = 0 /\
  fold_right Rplus 0 (map snd (relativeTo (centroidOf points) points)) = 0.
Proof.
  intros Hshape Hb. split.
  2:{ apply relativeTo_sum. destruct Hshape as [(_ & Hn) | (_ & Hn)];
        destruct points; simpl in Hn; try lia; discriminate. }
  destruct Hshape as [(-> & Hn) | (-> & Hn)]; cbn [addShapeToWorld]; cbv zeta.
  - destruct points as [|p0 [|p1 [|p2 [|p3 l]]]]; try discriminate.
    cbn [get nth_error bind].
    assert (Ex : (fst p0 + fst p1 + fst p2) / 3 = fst (centroidOf [p0; p1; p2])).
    { unfold centroidOf, mean. cbn [fst snd map fold_right length].
      replace (INR 3) with 3 by (simpl; lra). lra. }
    assert (Ey : (snd p0 + snd p1 + snd p2) / 3 = snd (centroidOf [p0; p1; p2])).
    { unfold centroidOf, mean. cbn [fst snd map fold_right length].
      replace (INR 3) with 3 by (simpl; lra). lra. }
    rewrite Ex, Ey. fold (relativeTo (centroidOf [p0; p1; p2]) [p0; p1; p2]).
    rewrite Hb. exists b. split; [reflexivity | now left].
  - destruct (Nat.ltb_spec 2 (length points)); [|lia].
    destruct (free_centroid points Hn) as [-> ->]. cbn [bind].
    fold (relativeTo (centroidOf points) points). rewrite Hb. cbn [bind].
    eexists. split; [reflexivity | now right].
Qed.

(** X24: when the library does not build the polygon of a free shape,
    [addShapeToWorld] tries the fan of triangles around the first vertex,
    one for each of the [n - 2] pairs of later neighbours; the body is the
    compound of the triangles the library builds, all [n - 2] of them if it
    builds each, and there is no body, and no change to the world, if it
    builds none. *)
Theorem addShapeToWorld_fan (world : list Body) (points : list point)
  (color : string) (dynamic : bool) (viewportWidth viewportHeight : R) :
  (2 < length points)%nat ->
  Bodies_fromVertices (fst (centroidOf points)) (snd (centroidOf points))
    [relativeTo (centroidOf points) points]
    (mkOptions (negb dynamic) 0.8 color) true = None ->
  exists parts,
    addShapeToWorld world (free points color) dynamic viewportWidth viewportHeight
    = Ok (match parts with
          | [] => (None, world)
          | _ => (Some (Body_setStatic (Body_create parts) (negb dynamic)),
                  world ++ [Body_setStatic (Body_create parts) (negb dynamic)])
          end) /\
    (length parts <= length points - 2)%nat /\
    (forall part, In part parts ->
       exists i, (1 <= i < length points - 1)%nat /\
         Bodies_fromVertices (fst (centroidOf points)) (snd (centroidOf points))
           [[nth 0 (relativeTo (centroidOf points) points) (0, 0);
             nth i (relativeTo (centroidOf points) points) (0, 0);
             nth (i + 1) (relativeTo (centroidOf points) points) (0, 0)]]
           (mkOptions (negb dynamic) 0.8 color) true = Some part) /\
    ((forall i, (1 <= i < length points - 1)%nat ->
        Bodies_fromVertices (fst (centroidOf points)) (snd (centroidOf points))
          [[nth 0 (relativeTo (centroidOf points) points) (0, 0);
            nth i (relativeTo (centroidOf points) points) (0, 0);
            nth (i + 1) (relativeTo (centroidOf points) points) (0, 0)]]
          (mkOptions (negb dynamic) 0.8 color) true <> None) ->
     length parts = (length points - 2)%nat).
Proof.
  intros Hn Hwhole. cbn [addShapeToWorld]. cbv zeta.
  destruct (Nat.ltb_spec 2 (length points)); [|lia].
  destruct (free_centroid points Hn) as [-> ->]. cbn [bind].
  fold (relativeTo (centroidOf points) points). rewrite Hwhole.
  set (rel := relativeTo (centroidOf points) points) in *.
  assert (Hlen : length rel = length points) by apply length_map.
  destruct (fan_loop (fst (centroidOf points)) (snd (centroidOf points)) rel
              (mkOptions (negb dynamic) 0.8 color))
    as (parts & -> & Hparts & Hall & Hfull); [lia|].
  rewrite Hlen in Hparts, Hall, Hfull.
  exists parts. cbn [bind]. split; [|auto].
  destruct parts; reflexivity.
Qed.

(** X26: [addShapeToWorld] raises an error exactly for a triangle of fewer
    than three points.  Otherwise it answers with a body or with none, and
    the world afterwards is the world before followed by that body; a
    rectangle and a circle always give a body, a free shape of at most two
    points never does. *)
Theorem addShapeToWorld_answers (world : list Body) (shape : DrawnShape)
  (dynamic : bool) (viewportWidth viewportHeight : R) :
  ((exists points color,
      shape = triangle points color /\ (length points < 3)%nat) ->
   addShapeToWorld world shape dynamic viewportWidth viewportHeight
   = Err TypeError) /\
  (~ (exists points color,
        shape = triangle points color /\ (length points < 3)%nat) ->
   exists body,
     addShapeToWorld world shape dynamic viewportWidth viewportHeight
     = Ok (body, world ++ added body) /\
     match shape with
     | rect _ _ _ _ _ | circle _ _ _ _ => body <> None
     | triangle _ _ => True
     | free points _ => (length points <= 2)%nat -> body = None
     end).
Proof. apply addShapeToWorld_cases. Qed.

End WorldProperties.

(** X21 on a rectangle drawn 5 from the right edge of a 600 x 500 viewport. *)
Lemma addShapeToWorld_rect_witness :
  exists x y w h,
    @addShapeToWorld (Recording anything) [] (rect 595 20 30 (-40) black) true
      600 500
    = Ok (Some (RectangleCall (x + w / 2) (y + h / 2) w h
                  (mkOptions false 0.8 black)),
          [RectangleCall (x + w / 2) (y + h / 2) w h
             (mkOptions false 0.8 black)]) /\
    (0 <= x <= 600 /\ 0 <= y <= 500) /\
    (10 <= w /\ 10 <= h) /\
    (x + 10 <= 600 -> x + w <= 600) /\
    (y + 10 <= 500 -> y + h <= 500) /\
    (600 < x + 10 -> w = 10) /\
    (500 < y + 10 -> h = 10) /\
    (0 <= 595 <= 600 -> 10 <= Rabs 30 <= 600 - 595 -> x = 595 /\ w = Rabs 30) /\
    (0 <= 20 <= 500 -> 10 <= Rabs (-40) <= 500 - 20 -> y = 20 /\ h = Rabs (-40)).
Proof.
  apply (@addShapeToWorld_rect (Recording anything) []
           595 20 30 (-40) black true 600 500); lra.
Defined.

(** X22 on a circle of radius 400. *)
Lemma addShapeToWorld_circle_witness :
  exists x y r,
    @addShapeToWorld (Recording anything) [] (circle 100 200 400 black) true
      600 500
    = Ok (Some (CircleCall x y r (mkOptions false 0.8 black)),
          [CircleCall x y r (mkOptions false 0.8 black)]) /\
    (0 <= x <= 600 /\ 0 <= y <= 500) /\
    5 <= r <= 300 /\
    (0 <= 100 <= 600 -> x = 100) /\
    (0 <= 200 <= 500 -> y = 200) /\
    (5 <= 400 <= 300 -> r = 400).
Proof.
  apply (@addShapeToWorld_circle (Recording anything) []
           100 200 400 black true 600 500); lra.
Defined.

(** X23 on the square [Q4] as a free shape, with a library that builds
    every polygon. *)
Lemma addShapeToWorld_placement_witness :
  (exists placed,
     @addShapeToWorld (Recording anything) [] (free Q4 black) true 600 500
     = Ok (Some placed, [placed]) /\
     (placed = FromVerticesCall (fst (centroidOf Q4)) (snd (centroidOf Q4))
                 [relativeTo (centroidOf Q4) Q4] (mkOptions false 0.8 black) true
      \/ placed = SetStaticCall
                    (FromVerticesCall (fst (centroidOf Q4)) (snd (centroidOf Q4))
                       [relativeTo (centroidOf Q4) Q4]
                       (mkOptions false 0.8 black) true) false)) /\
  fold_right Rplus 0 (map fst (relativeTo (centroidOf Q4) Q4)) = 0 /\
  fold_right Rplus 0 (map snd (relativeTo (centroidOf Q4) Q4)) = 0.
Proof.
  apply (@addShapeToWorld_placement (Recording anything) [] (free Q4 black)
           Q4 black true 600 500).
  - right. split; [reflexivity | simpl; lia].
  - reflexivity.
Defined.

(** X24 on the square [Q4], with a library that builds triangles only. *)
Lemma addShapeToWorld_fan_witness :
  exists parts,
    @addShapeToWorld (Recording trianglesOnly) [] (free Q4 black) true 600 500
    = Ok (match parts with
          | [] => (None, [])
          | _ => (Some (SetStaticCall (CreateCall parts) false),
                  [SetStaticCall (CreateCall parts) false])
          end) /\
    (length parts <= length Q4 - 2)%nat /\
    (forall part, In part parts ->
       exists i, (1 <= i < length Q4 - 1)%nat /\
         @Bodies_fromVertices (Recording trianglesOnly)
           (fst (centroidOf Q4)) (snd (centroidOf Q4))
           [[nth 0 (relativeTo (centroidOf Q4) Q4) (0, 0);
             nth i (relativeTo (centroidOf Q4) Q4) (0, 0);
             nth (i + 1) (relativeTo (centroidOf Q4) Q4) (0, 0)]]
           (mkOptions false 0.8 black) true = Some part) /\
    ((forall i, (1 <= i < length Q4 - 1)%nat ->
        @Bodies_fromVertices (Recording trianglesOnly)
          (fst (centroidOf Q4)) (snd (centroidOf Q4))
          [[nth 0 (relativeTo (centroidOf Q4) Q4) (0, 0);
            nth i (relativeTo (centroidOf Q4) Q4) (0, 0);
            nth (i + 1) (relativeTo (centroidOf Q4) Q4) (0, 0)]]
          (mkOptions false 0.8 black) true <> None) ->
     length parts = (length Q4 - 2)%nat).
Proof.
  apply (@addShapeToWorld_fan (Recording trianglesOnly) [] Q4 black true 600 500).
  - simpl. lia.
  - reflexivity.
Defined.

(** X27: whatever the stroke, the shape either [recognize] answers with
    enters the world without an error, and the world grows by the body
    answered and by nothing else; a stroke whose closed path has fewer than
    three points leaves no body, a rectangle or a circle always leaves
    one. *)
Theorem recognized_shape_enters_world {M : Matter} (world : list Body)
  (pointsRaw : list point) (color : string) (dynamic : bool)
  (viewportWidth viewportHeight : R) :
  (exists s body,
     recognize pointsRaw color = Ok s /\
     addShapeToWorld world s dynamic viewportWidth viewportHeight
     = Ok (body, world ++ added body) /\
     ((length (closedPath pointsRaw) < 3)%nat -> body = None) /\
     (isFree s = false -> (forall points c, s <> triangle points c) ->
      body <> None)) /\
  (exists s body,
     Sequential.recognize pointsRaw color = Ok s /\
     addShapeToWorld world s dynamic viewportWidth viewportHeight
     = Ok (body, world ++ added body) /\
     ((length (closedPath pointsRaw) < 3)%nat -> body = None) /\
     (isFree s = false -> (forall points c, s <> triangle points c) ->
      body <> None)).
Proof.
  assert (Hworld : forall s,
    (forall points c, s = triangle points c -> length points = 3%nat) ->
    exists body,
      addShapeToWorld world s dynamic viewportWidth viewportHeight
      = Ok (body, world ++ added body) /\
      (forall points c, s = free points c -> (length points < 3)%nat ->
         body = None) /\
      (isFree s = false -> (forall points c, s <> triangle points c) ->
       body <> None)).
  { intros s Htri.
    destruct (addShapeToWorld_cases world s dynamic viewportWidth viewportHeight)
      as [_ Hok].
    destruct Hok as (body & Hrun & Hbody).
    - intros (points & c & -> & Hn). specialize (Htri points c eq_refl). lia.
    - exists body. split; [exact Hrun|]. split.
      + intros points c -> Hn. apply Hbody. lia.
      + intros Hfree Hnot. destruct s; try exact Hbody; try discriminate.
        exfalso. now apply (Hnot points color0). }
  assert (Hshort : forall pts,
    rdp (closedPath pointsRaw) (epsilonOf (closedPath pointsRaw)) = Ok pts ->
    (length (closedPath pointsRaw) < 3)%nat -> (length pts < 3)%nat).
  { intros pts Hpts Hn. rewrite rdp_unfold in Hpts.
    destruct (Nat.leb_spec (length (closedPath pointsRaw)) 2); [|lia].
    now injection Hpts as <-. }
  destruct (rdp_spec (closedPath pointsRaw) (epsilonOf (closedPath pointsRaw)))
    as (pts & Hpts & _).
  split.
  - destruct (recognize_copies pointsRaw color) as (s & Hs & _ & _ & Htri).
    destruct (Hworld s Htri) as (body & Hrun & Hfree & Hsolid).
    exists s, body. repeat (split; [assumption|]). split; [|exact Hsolid].
    intros Hn. specialize (Hshort pts Hpts Hn).
    rewrite (recognize_short pointsRaw _ pts color (ensureClosed_eq _) Hpts Hshort)
      in Hs.
    injection Hs as <-. now apply (Hfree _ _ eq_refl).
  - destruct (sequential_result pointsRaw color) as (s & Hs & [_ _ _ _ Htri]).
    destruct (Hworld s Htri) as (body & Hrun & Hfree & Hsolid).
    exists s, body. repeat (split; [assumption|]). split; [|exact Hsolid].
    intros Hn. specialize (Hshort pts Hpts Hn).
    rewrite (sequential_short _ _ color Hpts Hshort) in Hs.
    injection Hs as <-. now apply (Hfree _ _ eq_refl).
Qed.

